(** * memexfs: the Node.js loader, collector, worker and worker pool

    A shallow embedding of the JavaScript layer of memexfs
    ([js/collect.mjs], [js/loader.mjs], [js/worker.mjs], [js/pool.mjs]) and
    the properties of it that the specification states.

    Conventions of the embedding:
    - a JavaScript exception is a value of [thrown]; code that can throw
      returns [res A] and is sequenced with the monadic [x ← c; k];
    - [localeCompare] is an interface ([Collator]), as the WebAssembly core
      is ([Core]); where JavaScript compares strings code unit by code
      unit, the statement is about ASCII names;
    - the file system is a finite tree ([node]); a normalised absolute POSIX
      path is the list of its segments;
    - the worker pool is a record of the variables the closure of
      [createPool] captures; every event handler is a function on it. *)

From Stdlib Require Import ZArith String Ascii Permutation Sorted.
From stdpp Require Import gmap strings list fin_maps sorting pretty.

Set Warnings "-register-all".
Local Open Scope string_scope.
Local Open Scope list_scope.

(** ** JavaScript values, exceptions and the error monad *)

(** The structured-clonable values that cross the worker boundary. Numbers
    are the integers the pool transports (request ids, document counts). *)
Inductive jsval :=
  | JUndefined
  | JNull
  | JBool (b : bool)
  | JNum (n : Z)
  | JStr (s : string)
  | JArr (items : list jsval)
  | JObj (fields : list (string * jsval)).

(** A thrown [Error]: what the handlers read of it is [err.message]. *)
Inductive thrown := JsError (message : string).

Definition message_of (e : thrown) : string :=
  match e with JsError m => m end.

Inductive res (A : Type) :=
  | Ok (a : A)
  | Throw (e : thrown).
Arguments Ok {A} a.
Arguments Throw {A} e.

#[global] Instance res_ret : MRet res := @Ok.

#[global] Instance res_bind : MBind res := fun A B k c =>
  match c with
  | Ok a => k a
  | Throw e => Throw e
  end.

(** ** Paths and the file system *)

Module Fs.

(** A normalised absolute path, as [path.resolve] returns it, by segment. *)
Definition path := list string.

Inductive node :=
  | File (content : string)
  | Dir (entries : list (string * node)).

(** [path.join(dir, entry)] for a directory entry name. *)
Definition join (dir : path) (entry : string) : path := dir ++ [entry].

(** [path.relative(from, to)] on POSIX: drop the common prefix, climb out of
    what is left of [from], descend into what is left of [to]. *)
Fixpoint relative_segs (from to : path) : list string :=
  match from, to with
  | f :: from', t :: to' =>
      if String.eqb f t then relative_segs from' to'
      else map (fun _ => "..") from ++ to
  | _, _ => map (fun _ => "..") from ++ to
  end.

Definition relative (from to : path) : string :=
  String.concat "/" (relative_segs from to).

(** [s.endsWith(suffix)]. *)
Definition endsWith (s suffix : string) : bool :=
  let n := String.length s in
  let m := String.length suffix in
  (m <=? n)%nat && String.eqb (substring (n - m) m s) suffix.

(** [readdirSync(dir)] where the file system holds [cur] at [dir]. *)
Definition readdirSync (cur : node) : res (list string) :=
  match cur with
  | File _ => Throw (JsError "ENOTDIR: not a directory, scandir")
  | Dir entries => Ok (map fst entries)
  end.

(** The entry called [name] of a directory. *)
Definition entry_named (cur : node) (name : string) : option node :=
  match cur with
  | File _ => None
  | Dir entries =>
      snd <$> List.find (fun e => String.eqb (fst e) name) entries
  end.

(** [readFileSync(join(dir, name), "utf-8")] where the file system holds
    [cur] at [dir]. *)
Definition readFileSync (cur : node) (name : string) : res string :=
  match entry_named cur name with
  | Some (File content) => Ok content
  | Some (Dir _) => Throw (JsError "EISDIR: illegal operation on a directory, read")
  | None => Throw (JsError "ENOENT: no such file or directory, open")
  end.

(** The regular file at the relative path [segs] below a node, and its
    content. *)
Inductive file_at : node -> list string -> string -> Prop :=
  | file_here c : file_at (File c) [] c
  | file_below es name child segs c :
      In (name, child) es -> file_at child segs c ->
      file_at (Dir es) (name :: segs) c.

(** The last segment of a path, the file's name, ends in [".md"]. *)
Definition is_md (segs : list string) : Prop :=
  exists name, last segs = Some name /\ endsWith name ".md" = true.

(** The number of regular files below a node whose name ends in [".md"]. *)
Fixpoint md_count (n : node) : nat :=
  match n with
  | File _ => 0
  | Dir es =>
      (fix go (es : list (string * node)) : nat :=
         match es with
         | [] => 0
         | (name, child) :: es' =>
             match child with
             | File _ => if endsWith name ".md" then 1 else 0
             | Dir _ => md_count child
             end + go es'
         end) es
  end.

(** Induction on a node that reaches the children of a directory. *)
Section NodeInd.
Variable P : node -> Prop.
Hypothesis HFile : forall c, P (File c).
Hypothesis HDir : forall es, Forall (fun e => P e.2) es -> P (Dir es).

Fixpoint node_children_ind (n : node) : P n :=
  match n with
  | File c => HFile c
  | Dir es =>
      HDir es
        ((fix go (es : list (string * node)) : Forall (fun e => P e.2) es :=
            match es with
            | [] => @List.Forall_nil _ _
            | e :: es' =>
                @List.Forall_cons _ _ e es' (node_children_ind e.2) (go es')
            end) es)
  end.
End NodeInd.

End Fs.

(** ** js/collect.mjs *)

Module Collect.
Import Fs.

(** [collectMdFiles(rootDir, currentDir)]. [cur] is what the file system
    holds at [currentDir]: [readdirSync] lists its entries (and throws when
    it is not a directory), [statSync(fullPath).isDirectory()] tells the two
    kinds of [node] apart, [readFileSync(fullPath, "utf-8")] is the content
    of a [File]. The inner loop is the [for ... of] over [entries], [docs]
    the array it pushes to. *)
Fixpoint collectMdFiles (rootDir currentDir : path) (cur : node) {struct cur}
  : res (list (string * string)) :=
  match cur with
  | File _ => Throw (JsError "ENOTDIR: not a directory, scandir")
  | Dir entries =>
      (fix loop (es : list (string * node)) (docs : list (string * string))
           {struct es} : res (list (string * string)) :=
         match es with
         | [] => Ok docs
         | (entry, child) :: es' =>
             let fullPath := join currentDir entry in
             match child with
             | Dir _ =>
                 sub ← collectMdFiles rootDir fullPath child;
                 loop es' (docs ++ sub)
             | File content =>
                 if endsWith entry ".md"
                 then loop es' (docs ++ [(relative rootDir fullPath, content)])
                 else loop es' docs
             end
         end) entries []
  end.

(** What one entry of [currentDir] contributes to [docs]. *)
Definition entry_docs (rootDir currentDir : path) (e : string * node)
  : res (list (string * string)) :=
  match e.2 with
  | Dir _ => collectMdFiles rootDir (join currentDir e.1) e.2
  | File content =>
      Ok (if endsWith e.1 ".md"
          then [(relative rootDir (join currentDir e.1), content)]
          else [])
  end.

(** [ds] are the pairs of the .md files below [n], which lies at [pre]
    below the root. *)
Definition describes (pre : list string) (n : node) (ds : list (string * string)) : Prop :=
  (forall p c, In (p, c) ds <->
     exists segs, file_at n segs c /\ is_md segs /\ p = String.concat "/" (pre ++ segs))
  /\ length ds = md_count n.

End Collect.

(** ** Array.prototype.sort and the two comparisons the loaders use *)

Module JsArray.

Section Sort.
Context {A : Type} (cmp : A -> A -> Z).

(** Place [x], which preceded every element of [l] in the array, into the
    sorted [l]: before the first [y] with [cmp x y <= 0]. *)
Fixpoint insert_sorted (x : A) (l : list A) : list A :=
  match l with
  | [] => [x]
  | y :: l' =>
      if (cmp x y <=? 0)%Z then x :: y :: l' else y :: insert_sorted x l'
  end.

(** [arr.sort(cmp)]: the sort is stable, so for a consistent comparator
    its result is the one stable insertion produces. *)
Definition sort (l : list A) : list A := foldr insert_sorted [] l.
End Sort.

(** [a] may stay before [b]: the comparator does not return a positive
    number for them. *)
Definition cmp_le {A : Type} (cmp : A -> A -> Z) (a b : A) : Prop :=
  (cmp a b <= 0)%Z.

(** The numbers a string is compared by, one per character of the Rocq
    string: its bytes. For a string of ASCII characters ([is_ascii]) these
    are its UTF-16 code units, which JavaScript compares; beyond ASCII the
    two differ, and what is stated of a JavaScript comparison by code units
    is stated of ASCII names. *)
Definition code_units (s : string) : list N :=
  map N_of_ascii (list_ascii_of_string s).

(** A string of ASCII characters only. *)
Definition is_ascii (s : string) : Prop :=
  Forall (fun c => (c < 128)%N) (code_units s).

Fixpoint lex_compare (a b : list N) : comparison :=
  match a, b with
  | [], [] => Eq
  | [], _ :: _ => Lt
  | _ :: _, [] => Gt
  | x :: a', y :: b' =>
      match N.compare x y with
      | Eq => lex_compare a' b'
      | c => c
      end
  end.

Definition sign (c : comparison) : Z :=
  match c with Lt => (-1)%Z | Eq => 0%Z | Gt => 1%Z end.

(** Comparison by the lexicographic order of a key. *)
Definition by_key {A : Type} (key : A -> list N) (a b : A) : Z :=
  sign (lex_compare (key a) (key b)).

(** The comparison [arr.sort()] uses when it is given none: the strings
    compared code unit by code unit (on ASCII strings, see [code_units]). *)
Definition codeUnitCompare (a b : string) : Z :=
  sign (lex_compare (code_units a) (code_units b)).

(** [a < b] on strings. *)
Definition str_lt (a b : string) : Prop :=
  lex_compare (code_units a) (code_units b) = Lt.

(** [a <= b] on strings. *)
Definition str_le (a b : string) : Prop :=
  lex_compare (code_units a) (code_units b) <> Gt.

(** *** [String.prototype.localeCompare]

    [a.localeCompare(b)] with no locale argument compares with the collator
    of the default locale of the process. What it returns is decided by the
    ICU data and the locale Node runs with, not by the program: like the
    core, it is an interface here, and what is proved of the loaders is
    proved for every collator. *)
Class Collator := localeCompare : string -> string -> Z.

(** *** A collator for the examples

    The collation of ICU's root locale at tertiary strength, which the
    default locale en-US uses, on strings of printable ASCII: space, the
    punctuation in [punctuation], the digits, the letters alphabetically
    regardless of case (primary level), and only for strings equal on that
    level, lower case before upper case (tertiary level). Characters outside
    printable ASCII are given weights above all of these, which is not what
    ICU does with them: the examples hold none. *)

(** Space and punctuation in collation order, by code:
    space _ - , ; : ! ? . ' quote ( ) [ ] { } @ * / \ & # % ` ^ + < = > | ~ $ *)
Definition punctuation : list N :=
  [32; 95; 45; 44; 59; 58; 33; 63; 46; 39; 34; 40; 41; 91; 93; 123; 125;
   64; 42; 47; 92; 38; 35; 37; 96; 94; 43; 60; 61; 62; 124; 126; 36]%N.

Fixpoint index_of (c : N) (l : list N) : option N :=
  match l with
  | [] => None
  | x :: l' => if N.eqb c x then Some 0%N else N.succ <$> index_of c l'
  end.

Definition is_upper (c : N) : bool := (65 <=? c)%N && (c <=? 90)%N.
Definition is_lower (c : N) : bool := (97 <=? c)%N && (c <=? 122)%N.
Definition is_digit (c : N) : bool := (48 <=? c)%N && (c <=? 57)%N.

(** Primary weight of a code unit; never 0, which separates the levels. *)
Definition primary (c : N) : N :=
  if is_lower c then (100 + (c - 97))%N
  else if is_upper c then (100 + (c - 65))%N
  else if is_digit c then (50 + (c - 48))%N
  else match index_of c punctuation with
       | Some i => (1 + i)%N
       | None => (200 + c)%N
       end.

(** Tertiary weight: upper case after lower case. *)
Definition tertiary (c : N) : N := if is_upper c then 2%N else 1%N.

(** The sort key: all primary weights, a separator, all tertiary weights. *)
Definition sort_key (s : string) : list N :=
  map primary (code_units s) ++ [0%N] ++ map tertiary (code_units s).

Definition root_collator : Collator :=
  fun a b => sign (lex_compare (sort_key a) (sort_key b)).

End JsArray.

(** ** js/loader.mjs and js/worker.mjs: the list handed to [new MemexFS] *)

Module Loader.
Import Fs Collect JsArray.

(** The documents a loader hands over: [[path, content]] pairs. *)
Definition docs := list (string * string).

(** [collectMdFiles(absDir, absDir).sort((a, b) => a[0].localeCompare(b[0]))],
    the expression both the recursive [loadFromDirectory] and the worker
    evaluate. *)
Definition sorted_collect {collator : Collator} (absDir : path) (cur : node)
  : res docs :=
  collected ← collectMdFiles absDir absDir cur;
  Ok (sort (fun a b => localeCompare (fst a) (fst b)) collected).

Fixpoint map_res {A B} (f : A -> res B) (l : list A) : res (list B) :=
  match l with
  | [] => Ok []
  | x :: l' => y ← f x; ys ← map_res f l'; Ok (y :: ys)
  end.

(** The flat [loadFromDirectory] of js/loader.mjs, up to the construction:
    [readdirSync(absDir).filter(f => f.endsWith(".md")).sort()] and the
    [map] that reads each file. *)
Definition flat_docs (cur : node) : res docs :=
  names ← readdirSync cur;
  let files := sort codeUnitCompare (List.filter (fun f => endsWith f ".md") names) in
  map_res (fun f => content ← readFileSync cur f; Ok (f, content)) files.

(** A directory in which the flat and the recursive loader see the same
    files: a subdirectory has no .md file below it and is not itself called
    like one. *)
Definition no_nested_md (entries : list (string * node)) : Prop :=
  Forall (fun e => match e.2 with
                   | Dir _ => endsWith e.1 ".md" = false /\ md_count e.2 = 0
                   | File _ => True
                   end) entries.

(** What an entry contributes when no subdirectory holds a .md file. *)
Definition top_level (e : string * node) : list (string * string) :=
  match e.2 with
  | File content => if endsWith e.1 ".md" then [(e.1, content)] else []
  | Dir _ => []
  end.

(** The content [readFileSync] returns for a name, when it returns. *)
Definition content_of (cur : node) (name : string) : string :=
  match readFileSync cur name with
  | Ok content => content
  | Throw _ => ""
  end.

Section Construct.
(** The WebAssembly core is not part of the JavaScript layer: its
    constructor is a parameter. *)
Context {Store : Type} (MemexFS : docs -> res Store).
Context {collator : Collator}.

(** The recursive [loadFromDirectory(dir)]; [absDir] is [resolve(dir)]. *)
Definition loadFromDirectory (absDir : path) (cur : node) : res Store :=
  ds ← sorted_collect absDir cur; MemexFS ds.

(** The flat [loadFromDirectory(dir)] of js/loader.mjs. *)
Definition loadFromDirectory_flat (cur : node) : res Store :=
  ds ← flat_docs cur; MemexFS ds.
End Construct.

End Loader.

(** ** js/worker.mjs: the message handler of a worker *)

Module Worker.

(** A request [{ id, method, args }] the pool posts to a worker. *)
Record Request := {
  req_id : nat;
  req_method : string;
  req_args : list jsval;
}.

(** A message a worker posts to the pool: [{ type: "ready" }],
    [{ id, result }] or [{ id, error }]. A field the object literal does not
    have reads as [undefined]: [None], or [JUndefined] for [result]. *)
Record Message := {
  m_type : option string;
  m_id : option nat;
  m_result : jsval;
  m_error : option string;
}.

Definition ready_message : Message :=
  {| m_type := Some "ready"; m_id := None; m_result := JUndefined; m_error := None |}.

Definition result_message (id : nat) (result : jsval) : Message :=
  {| m_type := None; m_id := Some id; m_result := result; m_error := None |}.

Definition error_message (id : nat) (error : string) : Message :=
  {| m_type := None; m_id := Some id; m_result := JUndefined; m_error := Some error |}.

(** The [MemexFS] class of the WebAssembly package, which the worker
    imports: its constructor and the five methods the handler calls.
    [args] is the spread argument list. *)
Class Core (Store : Type) := {
  MemexFS : Loader.docs -> res Store;
  grep : Store -> list jsval -> res string;
  read : Store -> list jsval -> res string;
  ls : Store -> list jsval -> res string;
  tool_definitions : Store -> string;
  document_count : Store -> Z;
}.

Section Handler.
Context {Store : Type} `{!Core Store}.
(** [JSON.parse]. *)
Context (JSON_parse : string -> res jsval).

(** The [switch (method)] inside the [try]. *)
Definition call (fs : Store) (method : string) (args : list jsval) : res jsval :=
  if String.eqb method "grep" then s ← grep fs args; JSON_parse s
  else if String.eqb method "read" then s ← read fs args; Ok (JStr s)
  else if String.eqb method "ls" then s ← ls fs args; JSON_parse s
  else if String.eqb method "toolDefinitions" then JSON_parse (tool_definitions fs)
  else if String.eqb method "documentCount" then Ok (JNum (document_count fs))
  else Throw (JsError ("unknown method: " +:+ method)).

(** [parentPort.on("message", (msg) => ...)]: the messages the handler
    posts for one request, in order. *)
Definition on_message (fs : Store) (msg : Request) : list Message :=
  match call fs (req_method msg) (req_args msg) with
  | Ok result => [result_message (req_id msg) result]
  | Throw err => [error_message (req_id msg) (message_of err)]
  end.
End Handler.

End Worker.

(** A small stand-in for the core, on which the handlers can be run: its
    store is the list of documents, [read] returns the content stored under
    a path, the structured results are empty. *)
Module Sample.
Import Worker.

Definition lookup_doc (p : string) (ds : Loader.docs) : option string :=
  snd <$> List.find (fun d => String.eqb d.1 p) ds.

Definition sample_core : Core Loader.docs := {|
  MemexFS ds :=
    match ds with
    | [] => Throw (JsError "no documents")
    | _ => Ok ds
    end;
  grep _ _ := Ok "[]";
  read ds args :=
    match args with
    | JStr p :: _ =>
        match lookup_doc p ds with
        | Some content => Ok content
        | None => Throw (JsError ("document not found: " +:+ p))
        end
    | _ => Throw (JsError "invalid path")
    end;
  ls _ _ := Ok "[]";
  tool_definitions _ := "[]";
  document_count ds := Z.of_nat (length ds);
|}.

Definition sample_parse (s : string) : res jsval :=
  if String.eqb s "[]" then Ok (JArr []) else Throw (JsError "Unexpected token").

End Sample.

(** ** js/pool.mjs: the worker pool *)

Module Pool.
Import Worker.

(** The state of a promise [dispatch] has returned. *)
Inductive promise :=
  | Pending
  | Resolved (v : jsval)
  | Rejected (e : thrown).

(** The promise [createPool] makes for one slot while it waits for
    ["ready"]; its two listeners are attached exactly while it is
    [Waiting]. *)
Inductive wait :=
  | Waiting
  | GotReady
  | GotError (e : thrown).

(** The promise [createPool] itself returns. *)
Inductive status :=
  | Creating
  | Created
  | Failed (e : thrown).

(** The variables the closure of [createPool] captures, and the objects it
    allocates. A worker is named by the order of its construction; a slot
    object [{ worker, pending }] is named by its worker, so that [slots] is
    an array of references and [pendings] the heap holding each slot's
    [pending] Map (request id to the [{ resolve, reject }] of a promise,
    itself named by its index in [promises]). *)
Record State := mkState {
  nextId : nat;
  terminated : bool;
  slots : list nat;
  pendings : gmap nat (gmap nat nat);
  promises : list promise;
  spawned : nat;
  posted : list (nat * Request);
  terminate_calls : list nat;
  waits : gmap nat wait;
  created : status;
}.

Definition set_nextId (v : nat) (s : State) : State :=
  mkState v (terminated s) (slots s) (pendings s) (promises s) (spawned s)
          (posted s) (terminate_calls s) (waits s) (created s).
Definition set_terminated (v : bool) (s : State) : State :=
  mkState (nextId s) v (slots s) (pendings s) (promises s) (spawned s)
          (posted s) (terminate_calls s) (waits s) (created s).
Definition set_slots (v : list nat) (s : State) : State :=
  mkState (nextId s) (terminated s) v (pendings s) (promises s) (spawned s)
          (posted s) (terminate_calls s) (waits s) (created s).
Definition set_pendings (v : gmap nat (gmap nat nat)) (s : State) : State :=
  mkState (nextId s) (terminated s) (slots s) v (promises s) (spawned s)
          (posted s) (terminate_calls s) (waits s) (created s).
Definition set_promises (v : list promise) (s : State) : State :=
  mkState (nextId s) (terminated s) (slots s) (pendings s) v (spawned s)
          (posted s) (terminate_calls s) (waits s) (created s).
Definition set_spawned (v : nat) (s : State) : State :=
  mkState (nextId s) (terminated s) (slots s) (pendings s) (promises s) v
          (posted s) (terminate_calls s) (waits s) (created s).
Definition set_posted (v : list (nat * Request)) (s : State) : State :=
  mkState (nextId s) (terminated s) (slots s) (pendings s) (promises s)
          (spawned s) v (terminate_calls s) (waits s) (created s).
Definition set_terminate_calls (v : list nat) (s : State) : State :=
  mkState (nextId s) (terminated s) (slots s) (pendings s) (promises s)
          (spawned s) (posted s) v (waits s) (created s).
Definition set_waits (v : gmap nat wait) (s : State) : State :=
  mkState (nextId s) (terminated s) (slots s) (pendings s) (promises s)
          (spawned s) (posted s) (terminate_calls s) v (created s).
Definition set_created (v : status) (s : State) : State :=
  mkState (nextId s) (terminated s) (slots s) (pendings s) (promises s)
          (spawned s) (posted s) (terminate_calls s) (waits s) v.

(** The [pending] Map of the slot of worker [w]. *)
Definition pending_of (s : State) (w : nat) : gmap nat nat :=
  default ∅ (pendings s !! w).

Definition set_pending (w : nat) (m : gmap nat nat) (s : State) : State :=
  set_pendings (<[w := m]> (pendings s)) s.

(** [resolve(v)] or [reject(e)] of promise [h]: a settled promise stays as
    it is. *)
Definition settle (h : nat) (o : promise) (ps : list promise) : list promise :=
  match ps !! h with
  | Some Pending => <[h := o]> ps
  | _ => ps
  end.

(** [p.reject(err)] for each of the promises [hs]. *)
Definition reject_list (err : thrown) (hs : list nat) (ps : list promise)
  : list promise :=
  foldr (fun h acc => settle h (Rejected err) acc) ps hs.

(** [for (const p of pending.values()) p.reject(err)]. *)
Definition reject_all (err : thrown) (m : gmap nat nat) (ps : list promise)
  : list promise :=
  reject_list err (map_to_list m).*2 ps.

(** [spawnWorker()]: the new slot, named by its worker. *)
Definition spawnWorker (s : State) : nat * State :=
  let w := spawned s in
  (w, set_pending w ∅ (set_spawned (S w) s)).

(** [worker.on("message", ...)] of the slot of worker [w]. *)
Definition slot_on_message (w : nat) (msg : Message) (s : State) : State :=
  if bool_decide (m_type msg = Some "ready") then s
  else
    match m_id msg with
    | None => s
    | Some id =>
        match pending_of s w !! id with
        | None => s
        | Some p =>
            let s1 := set_pending w (delete id (pending_of s w)) s in
            match m_error msg with
            | Some error =>
                set_promises (settle p (Rejected (JsError error)) (promises s1)) s1
            | None =>
                set_promises (settle p (Resolved (m_result msg)) (promises s1)) s1
            end
        end
    end.

(** [worker.on("error", ...)] of the slot of worker [w]. *)
Definition slot_on_error (w : nat) (err : thrown) (s : State) : State :=
  set_pending w ∅
    (set_promises (reject_all err (pending_of s w) (promises s)) s).

(** [slots.indexOf(slot)]. *)
Fixpoint indexOf (w : nat) (l : list nat) : option nat :=
  match l with
  | [] => None
  | x :: l' => if decide (x = w) then Some 0 else S <$> indexOf w l'
  end.

Definition exit_error (code : Z) : thrown :=
  JsError ("worker exited with code " +:+ pretty code).

(** [worker.on("exit", ...)] of the slot of worker [w]. *)
Definition slot_on_exit (w : nat) (code : Z) (s : State) : State :=
  if terminated s then s
  else
    let s1 :=
      set_pending w ∅
        (set_promises (reject_all (exit_error code) (pending_of s w) (promises s)) s) in
    match indexOf w (slots s1) with
    | None => s1
    | Some idx =>
        let '(w', s2) := spawnWorker s1 in
        set_slots (<[idx := w']> (slots s2)) s2
    end.

(** The [for] loop that spawns all workers: [slots.push(spawnWorker())]. *)
Fixpoint spawn_loop (n : nat) (s : State) : State :=
  match n with
  | 0 => s
  | S n' =>
      let '(w, s1) := spawnWorker s in
      spawn_loop n' (set_slots (slots s1 ++ [w]) s1)
  end.

(** The outcome of [Promise.all] over the slots' promises, as far as it is
    decided: it is rejected by the first rejection, fulfilled once every
    promise is. *)
Definition is_ready (st : wait) : bool :=
  match st with GotReady => true | _ => false end.

Definition all_ready (s : State) : bool :=
  bool_decide (map_Forall (fun _ st => is_ready st = true) (waits s)).

Definition settle_created (s : State) : State :=
  match created s with
  | Creating => if all_ready s then set_created Created s else s
  | _ => s
  end.

Definition initial : State :=
  mkState 0 false [] ∅ [] 0 [] [] ∅ Creating.

(** [createPool(dir, opts)] up to its [await]: [size] is
    [opts.workers ?? availableParallelism()]. The loop runs for
    [i = 0, 1, ...] while [i < size]. *)
Definition createPool (size : Z) : State :=
  let s := spawn_loop (Z.to_nat size) initial in
  settle_created
    (set_waits (list_to_map (map (fun w => (w, Waiting)) (slots s))) s).

(** The listener [onMessage] that [createPool] attaches to the worker of
    each slot. *)
Definition onMessage (w : nat) (msg : Message) (s : State) : State :=
  match waits s !! w with
  | Some Waiting =>
      if bool_decide (m_type msg = Some "ready")
      then settle_created (set_waits (<[w := GotReady]> (waits s)) s)
      else s
  | _ => s
  end.

(** The listener [onError] that [createPool] attaches next to it. *)
Definition onError (w : nat) (err : thrown) (s : State) : State :=
  match waits s !! w with
  | Some Waiting =>
      let s1 := set_waits (<[w := GotError err]> (waits s)) s in
      match created s1 with
      | Creating => set_created (Failed err) s1
      | _ => s1
      end
  | _ => s
  end.

(** The least-pending choice of [dispatch]: [best] after the loop, or
    [None] when [slots[0]] is [undefined]. *)
Definition least_pending (s : State) : option nat :=
  match slots s with
  | [] => None
  | first :: rest =>
      Some (foldl (fun best w =>
                     if (size (pending_of s w) <? size (pending_of s best))%nat
                     then w else best)
                  first rest)
  end.

(** [dispatch(method, args)]: the promise it returns, and the state it
    leaves. *)
Definition dispatch (method : string) (args : list jsval) (s : State)
  : nat * State :=
  let h := length (promises s) in
  if terminated s
  then (h, set_promises (promises s ++ [Rejected (JsError "pool is terminated")]) s)
  else
    let best := least_pending s in
    let id := nextId s in
    let s1 := set_nextId (S id) s in
    match best with
    | None =>
        (h, set_promises
              (promises s1 ++
                 [Rejected (JsError "Cannot read properties of undefined (reading 'pending')")])
              s1)
    | Some w =>
        let s2 := set_promises (promises s1 ++ [Pending]) s1 in
        let s3 := set_pending w (<[id := h]> (pending_of s2 w)) s2 in
        (h, set_posted (posted s3 ++ [(w, Build_Request id method args)]) s3)
    end.

Definition defined (v : jsval) : list jsval :=
  match v with JUndefined => [] | _ => [v] end.

(** The methods of the object [createPool] returns. *)
Definition pool_grep (pattern glob : jsval) : State -> nat * State :=
  dispatch "grep" (match glob with JUndefined => [pattern] | _ => [pattern; glob] end).
Definition pool_read (path offset limit : jsval) : State -> nat * State :=
  dispatch "read" ([path] ++ defined offset ++ defined limit).
Definition pool_ls (path : jsval) : State -> nat * State :=
  dispatch "ls" [path].
Definition pool_toolDefinitions : State -> nat * State :=
  dispatch "toolDefinitions" [].
Definition pool_documentCount : State -> nat * State :=
  dispatch "documentCount" [].

(** [terminate()] up to its [await]. *)
Definition terminate (s : State) : State :=
  let s1 := set_terminated true s in
  set_terminate_calls (terminate_calls s1 ++ slots s1) s1.

(** What can happen to a pool: an event of one of its workers, or a call of
    one of its methods. *)
Inductive operation :=
  | Grep (pattern glob : jsval)
  | Read (path offset limit : jsval)
  | Ls (path : jsval)
  | ToolDefinitions
  | DocumentCount.

Definition invoke (c : operation) : State -> nat * State :=
  match c with
  | Grep pattern glob => pool_grep pattern glob
  | Read path offset limit => pool_read path offset limit
  | Ls path => pool_ls path
  | ToolDefinitions => pool_toolDefinitions
  | DocumentCount => pool_documentCount
  end.

Inductive event :=
  | EMessage (w : nat) (msg : Message)
  | EError (w : nat) (err : thrown)
  | EExit (w : nat) (code : Z)
  | ECall (c : operation)
  | ETerminate.

(** One turn of the event loop. Both listeners of a worker see each of its
    messages and errors, the slot's first. *)
Definition step (e : event) (s : State) : State :=
  match e with
  | EMessage w msg => onMessage w msg (slot_on_message w msg s)
  | EError w err => onError w err (slot_on_error w err s)
  | EExit w code => slot_on_exit w code s
  | ECall c => snd (invoke c s)
  | ETerminate => terminate s
  end.

Definition run (es : list event) (s : State) : State :=
  foldl (fun s e => step e s) s es.

(** The wait of each of the first [n] workers, once there, stays; and
    [createPool] is resolved only when every wait has got its ["ready"]. *)
Definition waits_inv (n : nat) (s : State) : Prop :=
  (forall w, w < n -> is_Some (waits s !! w)) /\
  (created s = Created -> map_Forall (fun _ st => is_ready st = true) (waits s)).

(** The invariant of the pool's bookkeeping: a promise registered in a
    [pending] Map is unsettled and registered once; the slots hold distinct
    workers, all of them constructed; a worker not yet constructed has
    nothing pending. *)
Record consistent (s : State) : Prop := {
  pending_is_pending : forall w id h,
    pending_of s w !! id = Some h -> promises s !! h = Some Pending;
  pending_inj : forall w w' id id' h,
    pending_of s w !! id = Some h -> pending_of s w' !! id' = Some h ->
    w = w' /\ id = id';
  slots_spawned : forall w, w ∈ slots s -> w < spawned s;
  slots_nodup : NoDup (slots s);
  pendings_spawned : forall w, spawned s <= w -> pending_of s w = ∅;
}.

End Pool.

(** ** The pool together with its worker threads *)

Module System.
Import Fs Worker Pool.

(** How far the module body of js/worker.mjs has run in a worker:
    [Loading] up to [new MemexFS(...)], [Built] once [fs] is bound,
    [Announced] once ["ready"] is posted, [Listening] once the message
    handler is attached; [Exited] when the thread is gone. *)
Inductive phase :=
  | Loading
  | Built
  | Announced
  | Listening
  | Exited.

Inductive action :=
  | ABuild (w : nat)
  | ABuildFail (w : nat)
  | AReady (w : nat)
  | AListen (w : nat)
  | AHandle (w : nat) (req : Request)
  | ADeliver (w : nat) (msg : Message)
  | AExit (w : nat) (code : Z)
  | ACall (c : operation)
  | ATerminate.

Section System.
Context {Store : Type} `{!Core Store}.
Context (JSON_parse : string -> res jsval).
Context {collator : JsArray.Collator}.
(** [resolve(workerData.dir)] and what the file system holds there. *)
Context (absDir : path) (tree : node).

(** A worker thread: [w_fs] is its variable [fs], [w_handled] the number
    of requests its port has delivered to the handler. *)
Record worker := mkWorker {
  w_phase : phase;
  w_fs : option Store;
  w_handled : nat;
}.

Definition fresh : worker := mkWorker Loading None 0.

(** [inflight]: the messages workers have posted and the pool has not
    yet received. *)
Record system := mkSystem {
  pool : Pool.State;
  workers : gmap nat worker;
  inflight : list (nat * Message);
}.

Definition worker_of (σ : system) (w : nat) : worker :=
  default fresh (workers σ !! w).

(** The requests posted to worker [w], in order. *)
Definition inbox (σ : system) (w : nat) : list Request :=
  (filter (fun p => p.1 = w) (posted (pool σ))).*2.

(** Lines 14-18 of the worker: collect, sort, construct. *)
Definition construct : res Store :=
  Loader.loadFromDirectory MemexFS absDir tree.

Definition set_worker (w : nat) (x : worker) (σ : system) : system :=
  mkSystem (pool σ) (<[w := x]> (workers σ)) (inflight σ).

Inductive sys_step : system -> action -> system -> Prop :=
  | step_build σ w st :
      w < spawned (pool σ) ->
      w_phase (worker_of σ w) = Loading ->
      construct = Ok st ->
      sys_step σ (ABuild w)
        (set_worker w (mkWorker Built (Some st) (w_handled (worker_of σ w))) σ)
  | step_build_fail σ w err :
      w < spawned (pool σ) ->
      w_phase (worker_of σ w) = Loading ->
      construct = Throw err ->
      sys_step σ (ABuildFail w)
        (mkSystem (step (EExit w 1) (step (EError w err) (pool σ)))
                  (<[w := mkWorker Exited None (w_handled (worker_of σ w))]> (workers σ))
                  (inflight σ))
  | step_ready σ w :
      w_phase (worker_of σ w) = Built ->
      sys_step σ (AReady w)
        (mkSystem (pool σ)
                  (<[w := mkWorker Announced (w_fs (worker_of σ w))
                                   (w_handled (worker_of σ w))]> (workers σ))
                  (inflight σ ++ [(w, ready_message)]))
  | step_listen σ w :
      w_phase (worker_of σ w) = Announced ->
      sys_step σ (AListen w)
        (set_worker w (mkWorker Listening (w_fs (worker_of σ w))
                                (w_handled (worker_of σ w))) σ)
  | step_handle σ w st req :
      w_phase (worker_of σ w) = Listening ->
      w_fs (worker_of σ w) = Some st ->
      inbox σ w !! w_handled (worker_of σ w) = Some req ->
      sys_step σ (AHandle w req)
        (mkSystem (pool σ)
                  (<[w := mkWorker Listening (Some st)
                                   (S (w_handled (worker_of σ w)))]> (workers σ))
                  (inflight σ ++ map (pair w) (Worker.on_message JSON_parse st req)))
  | step_deliver σ w msg before after :
      inflight σ = before ++ (w, msg) :: after ->
      sys_step σ (ADeliver w msg)
        (mkSystem (step (EMessage w msg) (pool σ)) (workers σ) (before ++ after))
  | step_exit σ w code :
      w < spawned (pool σ) ->
      w_phase (worker_of σ w) <> Exited ->
      sys_step σ (AExit w code)
        (mkSystem (step (EExit w code) (pool σ))
                  (<[w := mkWorker Exited (w_fs (worker_of σ w))
                                   (w_handled (worker_of σ w))]> (workers σ))
                  (inflight σ))
  | step_call σ c :
      created (pool σ) = Created ->
      sys_step σ (ACall c) (mkSystem (step (ECall c) (pool σ)) (workers σ) (inflight σ))
  | step_terminate σ :
      created (pool σ) = Created ->
      sys_step σ ATerminate
        (mkSystem (step ETerminate (pool σ)) (workers σ) (inflight σ)).

(** The system right after [createPool(dir, { workers: size })] has run
    up to its [await]. *)
Definition start (size : Z) : system :=
  mkSystem (createPool size) ∅ [].

(** An execution from [start size], with the actions taken, in order. *)
Inductive exec (size : Z) : list action -> system -> Prop :=
  | exec_start : exec size [] (start size)
  | exec_step tr σ a σ' :
      exec size tr σ -> sys_step σ a σ' -> exec size (tr ++ [a]) σ'.

(** [a] occurs in [tr], and [b] occurs after it. *)
Definition ordered (a b : action) (tr : list action) : Prop :=
  exists l1 l2 l3, tr = l1 ++ a :: l2 ++ b :: l3.

Definition started (p : phase) : Prop :=
  p = Built \/ p = Announced \/ p = Listening.

Definition announced (p : phase) : Prop :=
  p = Announced \/ p = Listening.

(** What holds of an execution and the state it has reached. *)
Record sys_inv (size : Z) (tr : list action) (σ : system) : Prop := {
  inv_pool : waits_inv (Z.to_nat size) (pool σ);
  inv_built : forall w, started (w_phase (worker_of σ w)) ->
    exists st, w_fs (worker_of σ w) = Some st /\ construct = Ok st /\ ABuild w ∈ tr;
  inv_announced : forall w, announced (w_phase (worker_of σ w)) ->
    ordered (ABuild w) (AReady w) tr;
  inv_ready : forall w, AReady w ∈ tr -> ordered (ABuild w) (AReady w) tr;
  inv_build : forall w, ABuild w ∈ tr -> exists st, construct = Ok st;
  inv_inflight : forall w m, (w, m) ∈ inflight σ -> m_type m = Some "ready" ->
    AReady w ∈ tr;
  inv_waits : forall w, waits (pool σ) !! w = Some GotReady -> AReady w ∈ tr;
  inv_handle : forall pre w req post, tr = pre ++ AHandle w req :: post ->
    ordered (ABuild w) (AReady w) pre;
}.
End System.

End System.

(** ** The query engine of the core *)

Module Grep.
Import JsArray.

(** A document of the store: its path and its lines. *)
Record Document := {
  path : string;
  lines : list string;
}.

Record GrepResult := {
  r_path : string;
  r_line : nat;
  r_content : string;
}.

(** The lines of a document with their 1-indexed numbers, from [n]. *)
Fixpoint numbered (n : nat) (ls : list string) : list (nat * string) :=
  match ls with
  | [] => []
  | l :: ls' => (n, l) :: numbered (S n) ls'
  end.

(** Path ascending, then line ascending. *)
Definition result_compare (a b : GrepResult) : Z :=
  match lex_compare (code_units (r_path a)) (code_units (r_path b)) with
  | Eq => sign (Nat.compare (r_line a) (r_line b))
  | c => sign c
  end.

(** [a] comes no later than [b]: its path is smaller, or the paths are the
    same and its line is no larger. *)
Definition result_le (a b : GrepResult) : Prop :=
  str_lt (r_path a) (r_path b) \/ (r_path a = r_path b /\ r_line a <= r_line b).

Definition cap : nat := 100.

Section Query.
(** Steps 1 to 5 of the algorithm decide, for a pattern and a glob, which
    documents are candidates and which lines match: [in_scope] is the
    glob test on a path, [line_matches] the case-insensitive test of the
    pattern on a line. *)
Context (in_scope : string -> bool) (line_matches : string -> bool).

(** One result for each matching line of a document (step 6). *)
Definition matches_in (d : Document) : list GrepResult :=
  map (fun nl => Build_GrepResult (path d) nl.1 nl.2)
      (List.filter (fun nl => line_matches nl.2) (numbered 1 (lines d))).

(** All collected results, in traversal order. *)
Definition collected (store : list Document) : list GrepResult :=
  flat_map matches_in (List.filter (fun d => in_scope (path d)) store).

(** Step 7: the full sorted result set. *)
Definition full_result (store : list Document) : list GrepResult :=
  sort result_compare (collected store).

(** Modelled from the spec: [grep(pattern, glob?)] of the query engine,
    whose source (the Rust core, src/lib.rs and src/store.rs) is not among
    the files; section 4.3 of the specification, steps 7 and 8: sort all
    collected results by path then line, then truncate the sorted list to
    the first 100 entries. *)
Definition grep (store : list Document) : list GrepResult :=
  take cap (full_result store).
End Query.

End Grep.

(** ** The requests and promises of the pool *)

Module PoolInv.
Import Worker Pool.

(** What the pool keeps track of: request ids are handed out once and in
    increasing order; whatever is pending on a worker was posted to that
    worker; an unsettled promise is pending on some worker. *)
Record tracked (s : State) : Prop := {
  ids_below : forall w req, (w, req) ∈ posted s -> req_id req < nextId s;
  ids_nodup : NoDup (map (fun p : nat * Request => req_id p.2) (posted s));
  pending_posted : forall w id h,
    pending_of s w !! id = Some h ->
    exists req, (w, req) ∈ posted s /\ req_id req = id;
  pending_registered : forall h,
    promises s !! h = Some Pending ->
    exists w id, pending_of s w !! id = Some h;
}.

End PoolInv.

(** ** Well-formed directory trees and the files below them *)

Module Tree.
Import Fs.

(** A name a directory entry can have: it holds no ["/"]. *)
Fixpoint slash_free (s : string) : Prop :=
  match s with
  | EmptyString => True
  | String c s' => c <> "/"%char /\ slash_free s'
  end.

(** A tree as a file system holds it: in each directory the names are
    distinct and none holds a separator. *)
Fixpoint wf (n : node) : Prop :=
  match n with
  | File _ => True
  | Dir es =>
      NoDup (map fst es) /\
      (fix all (es : list (string * node)) : Prop :=
         match es with
         | [] => True
         | e :: es' => slash_free e.1 /\ wf e.2 /\ all es'
         end) es
  end.

(** The .md files below a node in the order of a depth-first walk, each
    with its segments below the node and its content. *)
Fixpoint md_files (n : node) : list (list string * string) :=
  match n with
  | File _ => []
  | Dir es =>
      (fix go (es : list (string * node)) : list (list string * string) :=
         match es with
         | [] => []
         | (name, child) :: es' =>
             match child with
             | File content => if endsWith name ".md" then [([name], content)] else []
             | Dir _ => map (fun f => (name :: f.1, f.2)) (md_files child)
             end ++ go es'
         end) es
  end.

(** The pair [collectMdFiles] makes of a file found below [pre]. *)
Definition render (pre : list string) (f : list string * string) : string * string :=
  (String.concat "/" (pre ++ f.1), f.2).

End Tree.

(** ** The lazy initialisation of the loaders *)

Module LoaderInit.
Import Fs.

(** The module variable [initialized] of js/loader.mjs, and the number of
    times [initSync] has returned. *)
Record state := mkInit {
  initialized : bool;
  initSync_calls : nat;
}.

(** The state when the module has been evaluated. *)
Definition loaded : state := mkInit false 0.

Section Loads.
Context {Store : Type} (MemexFS : Loader.docs -> res Store).
Context {collator : JsArray.Collator}.

(** [ensureInit()]. [wasm] is what [readFileSync(wasmPath)] followed by
    [initSync({ module: wasmBytes })] does if it is run now: both can
    throw. *)
Definition ensureInit (wasm : res unit) (s : state) : state * res unit :=
  if initialized s then (s, Ok tt)
  else
    match wasm with
    | Ok _ => (mkInit true (S (initSync_calls s)), Ok tt)
    | Throw e => (s, Throw e)
    end.

(** [loadFromDirectory(dir)] of the recursive loader, with the module
    variable threaded through; the flat loader starts the same way. *)
Definition loadFromDirectory (wasm : res unit) (dir : path * node) (s : state)
  : state * res Store :=
  match ensureInit wasm s with
  | (s', Ok _) => (s', Loader.loadFromDirectory MemexFS dir.1 dir.2)
  | (s', Throw e) => (s', Throw e)
  end.

Definition loadFromDirectory_flat (wasm : res unit) (dir : path * node) (s : state)
  : state * res Store :=
  match ensureInit wasm s with
  | (s', Ok _) => (s', Loader.loadFromDirectory_flat MemexFS dir.2)
  | (s', Throw e) => (s', Throw e)
  end.

Definition succeeds (wasm : res unit) : bool :=
  match wasm with Ok _ => true | Throw _ => false end.

(** A sequence of loads, each with what the WebAssembly module would do
    at that time, and the state it leaves. *)
Definition loads (calls : list (res unit * (path * node))) (s : state) : state :=
  foldl (fun s c => (loadFromDirectory c.1 c.2 s).1) s calls.
End Loads.

End LoaderInit.

(** * Properties *)

(** ** [collectMdFiles] finds exactly the .md files *)

Module CollectSpec.
Import Fs Collect.

Lemma relative_below (root segs : path) :
  relative root (root ++ segs) = String.concat "/" segs.
Proof.
  unfold relative. f_equal.
  induction root as [|r root IH]; simpl; [done|].
  by rewrite String.eqb_refl.
Qed.

Lemma is_md_cons name segs : segs <> [] -> is_md (name :: segs) <-> is_md segs.
Proof.
  intros Hne. unfold is_md. destruct segs as [|s segs]; [done|].
  by rewrite last_cons_cons.
Qed.

Lemma file_at_dir_nonempty es segs c : file_at (Dir es) segs c -> segs <> [].
Proof. by inversion 1. Qed.

Lemma collect_dir root pre n :
  (exists es, n = Dir es) ->
  exists ds, collectMdFiles root (root ++ pre) n = Ok ds /\ describes pre n ds.
Proof.
  revert pre. induction n as [c|es IH] using node_children_ind; intros pre [es' Hes]; [done|].
  clear es' Hes. simpl.
  enough (Hloop : forall acc, exists ds,
    (fix loop (es0 : list (string * node)) (docs : list (string * string)) {struct es0} :=
       match es0 with
       | [] => Ok docs
       | (entry, child) :: es'0 =>
           match child with
           | File content =>
               if endsWith entry ".md"
               then loop es'0 (docs ++ [(relative root (join (root ++ pre) entry), content)])
               else loop es'0 docs
           | Dir _ =>
               sub ← collectMdFiles root (join (root ++ pre) entry) child;
               loop es'0 (docs ++ sub)
           end
       end) es acc = Ok (acc ++ ds) /\ describes pre (Dir es) ds).
  { destruct (Hloop []) as (ds & -> & Hd). eauto. }
  induction es as [|[entry child] es IHes]; intros acc.
  - exists []. rewrite app_nil_r. split; [done|]. split; [|done].
    intros p c. split; [done|]. intros (segs & Hf & _). inversion Hf; subst. done.
  - apply Forall_cons in IH as [IHc IHrest]. specialize (IHes IHrest).
    simpl in IHc.
    assert (Hhead : exists sub,
      match child with
      | File content =>
          Ok (if endsWith entry ".md"
              then [(relative root (join (root ++ pre) entry), content)] else [])
      | Dir _ => collectMdFiles root (join (root ++ pre) entry) child
      end = Ok sub /\
      (forall p c, In (p, c) sub <->
         exists segs, file_at child segs c /\ is_md (entry :: segs)
                      /\ p = String.concat "/" (pre ++ entry :: segs)) /\
      length sub = match child with
                   | File _ => if endsWith entry ".md" then 1 else 0
                   | Dir _ => md_count child
                   end).
    { destruct child as [content|ces].
      - eexists. split; [done|]. split.
        + intros p c. destruct (endsWith entry ".md") eqn:Hmd; simpl.
          * split.
            -- intros [[= <- <-]|[]]. exists []. split; [constructor|].
               split; [by exists entry|].
               unfold join. by rewrite <- app_assoc, relative_below.
            -- intros (segs & Hf & _ & ->). inversion Hf; subst. left.
               unfold join. by rewrite <- app_assoc, relative_below.
          * split; [done|]. intros (segs & Hf & (name & Hl & Hn) & _).
            inversion Hf; subst. simpl in Hl. congruence.
        + by destruct (endsWith entry ".md").
      - destruct (IHc (pre ++ [entry])) as (sub & Hsub & Hd1 & Hd2); [eauto|].
        exists sub. unfold join. rewrite <- app_assoc. split; [done|].
        split; [|done]. intros p c. rewrite Hd1. split.
        + intros (segs & Hf & Hm & ->). exists segs. split; [done|].
          split; [|by rewrite <- app_assoc].
          apply is_md_cons; [by eapply file_at_dir_nonempty|done].
        + intros (segs & Hf & Hm & ->). exists segs. split; [done|].
          split; [|by rewrite <- app_assoc].
          eapply is_md_cons; [by eapply file_at_dir_nonempty|done]. }
    destruct Hhead as (sub & Hsub & Hin & Hlen).
    destruct (IHes (acc ++ sub)) as (ds & Hds & Hd1 & Hd2).
    exists (sub ++ ds). split.
    + rewrite app_assoc, <- Hds. destruct child as [content|ces].
      * injection Hsub as <-. destruct (endsWith entry ".md"); [done|].
        by rewrite app_nil_r.
      * by rewrite Hsub.
    + split.
      * intros p c. rewrite in_app_iff, Hin, Hd1. split.
        -- intros [(segs & Hf & Hm & ->)|(segs & Hf & Hm & ->)].
           ++ exists (entry :: segs). split; [|done]. econstructor; [by left|done].
           ++ exists segs. split; [|done]. inversion Hf; subst.
              econstructor; [by right|done].
        -- intros (segs & Hf & Hm & ->). inversion Hf as [|? name ch segs' ? Hel Hf']; subst.
           destruct Hel as [[= -> ->]|Hel].
           ++ left. eauto.
           ++ right. exists (name :: segs'). split; [|done]. by econstructor.
      * rewrite length_app, Hlen, Hd2. done.
Qed.

(** The nested fixture of the tests: [top.md] next to [subdir/deep.md]. *)
Example collect_nested_fixture :
  collectMdFiles ["fixtures"; "nested"] ["fixtures"; "nested"]
    (Dir [("subdir", Dir [("deep.md", File "nested inside subdir");
                          ("notes.txt", File "not a document")]);
          ("top.md", File "Top level doc")])
  = Ok [("subdir/deep.md", "nested inside subdir"); ("top.md", "Top level doc")].
Proof. reflexivity. Qed.

(** C1. For every directory tree, [collectMdFiles(rootDir, rootDir)] returns
    a (path, content) pair for exactly the regular files below [rootDir], at
    any depth, whose name ends in ".md": a pair is in the result if and only
    if its content is that of such a file and its path is the file's
    segments below [rootDir] joined by "/"; the result has as many pairs as
    there are such files, so nothing else contributes one. *)
Theorem collectMdFiles_exact (rootDir : path) (entries : list (string * node)) :
  exists docs,
    collectMdFiles rootDir rootDir (Dir entries) = Ok docs /\
    (forall p c,
        In (p, c) docs <->
        exists segs, file_at (Dir entries) segs c /\ is_md segs /\
                     p = String.concat "/" segs) /\
    length docs = md_count (Dir entries).
Proof.
  destruct (collect_dir rootDir [] (Dir entries)) as (ds & Hds & Hin & Hlen);
    [eauto|].
  rewrite app_nil_r in Hds. exists ds. split; [done|]. split; [|done].
  intros p c. by rewrite Hin.
Qed.

End CollectSpec.

(** ** Sorting *)

Module SortFacts.
Import JsArray.

Section Sort.
Context {A : Type} (cmp : A -> A -> Z).

Lemma insert_sorted_perm x l : Permutation (insert_sorted cmp x l) (x :: l).
Proof.
  induction l as [|y l IH]; simpl; [done|].
  destruct (cmp x y <=? 0)%Z; [done|].
  rewrite IH. apply perm_swap.
Qed.

Lemma sort_perm l : Permutation (sort cmp l) l.
Proof.
  induction l as [|x l IH]; simpl; [done|].
  by rewrite insert_sorted_perm, IH.
Qed.

Lemma sort_length l : length (sort cmp l) = length l.
Proof. by rewrite sort_perm. Qed.

Hypothesis cmp_total : forall a b, cmp_le cmp a b \/ cmp_le cmp b a.
Hypothesis cmp_trans : forall a b c, cmp_le cmp a b -> cmp_le cmp b c -> cmp_le cmp a c.

Lemma insert_sorted_sorted x l :
  StronglySorted (cmp_le cmp) l -> StronglySorted (cmp_le cmp) (insert_sorted cmp x l).
Proof.
  induction 1 as [|y l Hs IH Hy]; simpl.
  - repeat constructor.
  - destruct (Z.leb_spec (cmp x y) 0) as [Hle|Hgt].
    + constructor; [by constructor|]. constructor; [done|].
      eapply Forall_impl; [exact Hy|]. intros z Hz. by eapply cmp_trans.
    + constructor; [done|].
      rewrite insert_sorted_perm. constructor; [|done].
      destruct (cmp_total x y) as [Hxy|Hyx]; [unfold cmp_le in Hxy; lia|done].
Qed.

Lemma sort_sorted l : StronglySorted (cmp_le cmp) (sort cmp l).
Proof.
  induction l as [|x l IH]; simpl; [constructor|].
  by apply insert_sorted_sorted.
Qed.
End Sort.

Lemma lex_compare_refl a : lex_compare a a = Eq.
Proof. induction a as [|x a IH]; simpl; [done|]. by rewrite N.compare_refl. Qed.

Lemma lex_compare_eq a b : lex_compare a b = Eq -> a = b.
Proof.
  revert b. induction a as [|x a IH]; intros [|y b]; simpl; try done.
  destruct (N.compare_spec x y) as [->| |]; try done.
  intros H. by rewrite (IH b H).
Qed.

Lemma lex_compare_antisym a b : lex_compare b a = CompOpp (lex_compare a b).
Proof.
  revert b. induction a as [|x a IH]; intros [|y b]; simpl; try done.
  rewrite (N.compare_antisym x y).
  destruct (N.compare x y); simpl; auto.
Qed.

Lemma lex_compare_le_trans a b c :
  lex_compare a b <> Gt -> lex_compare b c <> Gt -> lex_compare a c <> Gt.
Proof.
  revert b c. induction a as [|x a IH]; intros [|y b] [|z c]; simpl; try done.
  destruct (N.compare_spec x y) as [->|Hxy|Hxy]; [| |done].
  - destruct (N.compare_spec y z) as [->|Hyz|Hyz]; [|done|done]. apply IH.
  - intros _. destruct (N.compare_spec y z) as [->|Hyz|Hyz]; [| |done]; intros _.
    + by rewrite (proj2 (N.compare_lt_iff x z) Hxy).
    + by rewrite (proj2 (N.compare_lt_iff x z) (N.lt_trans _ _ _ Hxy Hyz)).
Qed.

Lemma sign_le c : (sign c <= 0)%Z <-> c <> Gt.
Proof. destruct c; simpl; split; (done || lia). Qed.

(** A comparison by the lexicographic order of keys is a consistent
    comparator: total and transitive. *)
Section ByKey.
Context {A : Type} (key : A -> list N).

Lemma by_key_total a b : cmp_le (by_key key) a b \/ cmp_le (by_key key) b a.
Proof.
  unfold cmp_le, by_key. rewrite !sign_le, (lex_compare_antisym (key a) (key b)).
  destruct (lex_compare (key a) (key b)); simpl; auto.
Qed.

Lemma by_key_trans a b c :
  cmp_le (by_key key) a b -> cmp_le (by_key key) b c -> cmp_le (by_key key) a c.
Proof. unfold cmp_le, by_key. rewrite !sign_le. apply lex_compare_le_trans. Qed.
End ByKey.

End SortFacts.

(** ** The list the loaders hand to the constructor *)

Module LoaderSpec.
Import Fs Collect JsArray Loader SortFacts CollectSpec.

Lemma map_res_ok {A B} (f : A -> res B) (g : A -> B) l :
  (forall x, In x l -> f x = Ok (g x)) -> map_res f l = Ok (map g l).
Proof.
  induction l as [|x l IH]; intros Hf; simpl; [done|].
  rewrite (Hf x) by (by left). simpl.
  rewrite IH by (intros; apply Hf; by right). done.
Qed.

(** The loop of [collectMdFiles] appends what each entry contributes. *)
Lemma collect_unfold root cur es :
  collectMdFiles root cur (Dir es) =
    (dss ← map_res (entry_docs root cur) es; Ok (concat dss)).
Proof.
  simpl.
  enough (Hloop : forall acc,
    (fix loop (es0 : list (string * node)) (docs : list (string * string)) {struct es0} :=
       match es0 with
       | [] => Ok docs
       | (entry, child) :: es'0 =>
           match child with
           | File content =>
               if endsWith entry ".md"
               then loop es'0 (docs ++ [(relative root (join cur entry), content)])
               else loop es'0 docs
           | Dir _ =>
               sub ← collectMdFiles root (join cur entry) child;
               loop es'0 (docs ++ sub)
           end
       end) es acc = (dss ← map_res (entry_docs root cur) es; Ok (acc ++ concat dss))).
  { apply (Hloop []). }
  induction es as [|[entry child] es IH]; intros acc.
  - simpl. by rewrite app_nil_r.
  - cbn [map_res]. remember (map_res (entry_docs root cur) es) as r eqn:Hr.
    unfold entry_docs. cbn [fst snd]. destruct child as [content|ces].
    + destruct (endsWith entry ".md"); rewrite IH; destruct r; simpl; try done.
      by rewrite <- app_assoc.
    + destruct (collectMdFiles root (join cur entry) (Dir ces)) as [sub|e];
        [|done].
      change (Ok sub ≫= ?k) with (k sub). cbv beta.
      rewrite IH. destruct r; simpl; [|done].
      by rewrite <- app_assoc.
Qed.

Lemma sorted_collect_dir {collator : Collator} absDir entries :
  exists collected,
    collectMdFiles absDir absDir (Dir entries) = Ok collected /\
    sorted_collect absDir (Dir entries) =
      Ok (sort (fun a b => localeCompare a.1 b.1) collected).
Proof.
  destruct (collect_dir absDir [] (Dir entries)) as (ds & Hds & _); [eauto|].
  rewrite app_nil_r in Hds.
  exists ds. split; [done|]. unfold sorted_collect. by rewrite Hds.
Qed.

(** The collator of the examples is a consistent comparator. *)
Lemma root_collator_antisym a b :
  Z.sgn (@localeCompare root_collator b a) = (- Z.sgn (@localeCompare root_collator a b))%Z.
Proof.
  unfold localeCompare, root_collator.
  rewrite (lex_compare_antisym (sort_key a) (sort_key b)).
  by destruct (lex_compare (sort_key a) (sort_key b)).
Qed.

Lemma root_collator_trans a b c :
  (@localeCompare root_collator a b <= 0)%Z ->
  (@localeCompare root_collator b c <= 0)%Z ->
  (@localeCompare root_collator a c <= 0)%Z.
Proof. apply (by_key_trans sort_key). Qed.

(** C2 (as amended). For every directory tree, and whatever collator
    [localeCompare] compares with, as long as it is a consistent comparator
    (swapping the arguments swaps the sign, and the comparison is
    transitive): the list the recursive [loadFromDirectory] and every pool
    worker pass to the [MemexFS] constructor is what [collectMdFiles]
    returned, reordered so that it ascends by path in the order of
    [localeCompare], the comparator given to [sort]. *)
Theorem docs_sorted_by_localeCompare
    {Store : Type} `{!Worker.Core Store} {collator : Collator}
    (absDir : path) (entries : list (string * node)) :
  (forall a b, Z.sgn (localeCompare b a) = (- Z.sgn (localeCompare a b))%Z) ->
  (forall a b c, (localeCompare a b <= 0)%Z -> (localeCompare b c <= 0)%Z ->
                 (localeCompare a c <= 0)%Z) ->
  exists collected docs,
    collectMdFiles absDir absDir (Dir entries) = Ok collected /\
    Permutation docs collected /\
    StronglySorted (fun a b => (localeCompare a.1 b.1 <= 0)%Z) docs /\
    loadFromDirectory Worker.MemexFS absDir (Dir entries) = Worker.MemexFS docs /\
    System.construct absDir (Dir entries) = Worker.MemexFS docs.
Proof.
  intros Hanti Htrans.
  destruct (sorted_collect_dir absDir entries) as (collected & Hc & Hs).
  exists collected, (sort (fun a b => localeCompare a.1 b.1) collected).
  split; [done|]. split; [apply sort_perm|]. split.
  - apply (sort_sorted (fun a b : string * string => localeCompare a.1 b.1)).
    + intros a b. unfold cmp_le. pose proof (Hanti a.1 b.1) as Hs'.
      destruct (localeCompare a.1 b.1) eqn:Hab; [left; lia|right|left; lia].
      destruct (localeCompare b.1 a.1); simpl in Hs'; [lia|lia|lia].
    + intros a b c. apply Htrans.
  - unfold System.construct, loadFromDirectory. by rewrite Hs.
Qed.

(** With the collator of the examples, on a directory with a subdirectory:
    the list handed over is [a.md], [B.md], [sub/c.md]. *)
Lemma docs_sorted_by_localeCompare_witness :
  let entries := [("B.md", File "b"); ("sub", Dir [("c.md", File "c")]);
                  ("a.md", File "a"); ("notes.txt", File "n")] in
  exists collected docs,
    collectMdFiles ["srv"; "docs"] ["srv"; "docs"] (Dir entries) = Ok collected /\
    Permutation docs collected /\
    StronglySorted (fun a b => (@localeCompare root_collator a.1 b.1 <= 0)%Z) docs /\
    @loadFromDirectory _ (@Worker.MemexFS _ Sample.sample_core) root_collator
      ["srv"; "docs"] (Dir entries) = @Worker.MemexFS _ Sample.sample_core docs /\
    @System.construct _ Sample.sample_core root_collator ["srv"; "docs"] (Dir entries)
      = @Worker.MemexFS _ Sample.sample_core docs.
Proof.
  intros entries.
  apply (@docs_sorted_by_localeCompare _ Sample.sample_core root_collator
           ["srv"; "docs"] entries).
  - apply root_collator_antisym.
  - apply root_collator_trans.
Defined.

(** The list handed over for a directory holding [B.md] and [a.md] is not
    in ascending lexicographic order of its paths: [localeCompare], here
    with the collator of the default locale, puts [a.md] first, and
    ["B.md" < "a.md"]. *)
Lemma docs_not_lexicographic :
  @sorted_collect root_collator ["srv"; "docs"]
      (Dir [("B.md", File "b"); ("a.md", File "a")])
    = Ok [("a.md", "a"); ("B.md", "b")] /\
  ~ StronglySorted (fun a b : string * string => str_le a.1 b.1)
      [("a.md", "a"); ("B.md", "b")].
Proof.
  split; [reflexivity|].
  intros Hs. apply StronglySorted_inv in Hs as [_ Hall].
  apply Forall_cons in Hall as [Hle _]. apply Hle. reflexivity.
Qed.

(** *** The flat loader against the recursive one *)

Lemma find_entry (es : list (string * node)) name child :
  NoDup (map fst es) -> In (name, child) es ->
  List.find (fun e => String.eqb e.1 name) es = Some (name, child).
Proof.
  induction es as [|[n c] es IH]; simpl; [done|].
  intros Hnd Hin. apply NoDup_cons in Hnd as [Hn Hnd].
  destruct Hin as [[= -> ->]|Hin].
  - by rewrite String.eqb_refl.
  - destruct (String.eqb_spec n name) as [->|Hne]; [|by apply IH].
    exfalso. apply Hn. apply list_elem_of_In, in_map_iff. by exists (name, child).
Qed.

Lemma entry_docs_top_level root (e : string * node) :
  match e.2 with
  | Dir _ => endsWith e.1 ".md" = false /\ md_count e.2 = 0
  | File _ => True
  end ->
  entry_docs root root e = Ok (top_level e).
Proof.
  destruct e as [name [content|ces]]; unfold entry_docs, top_level; cbn [fst snd].
  - intros _. unfold join. rewrite relative_below. simpl. done.
  - intros [_ Hcount].
    destruct (collect_dir root [name] (Dir ces)) as (ds & Hds & _ & Hlen); [eauto|].
    unfold join. rewrite Hds. f_equal. apply nil_length_inv. by rewrite Hlen.
Qed.

Lemma collect_top_level root entries :
  no_nested_md entries ->
  collectMdFiles root root (Dir entries) = Ok (concat (map top_level entries)).
Proof.
  intros Hflat. rewrite collect_unfold.
  rewrite (map_res_ok _ top_level); [done|].
  intros e He. apply entry_docs_top_level.
  unfold no_nested_md in Hflat. rewrite Forall_forall in Hflat.
  apply Hflat. by apply list_elem_of_In.
Qed.

Lemma flat_read_ok (entries sub : list (string * node)) :
  NoDup (map fst entries) -> no_nested_md entries ->
  (forall e, In e sub -> In e entries) ->
  (forall f, In f (List.filter (fun f => endsWith f ".md") (map fst sub)) ->
     readFileSync (Dir entries) f = Ok (content_of (Dir entries) f)) /\
  map (fun f => (f, content_of (Dir entries) f))
      (List.filter (fun f => endsWith f ".md") (map fst sub))
    = concat (map top_level sub).
Proof.
  intros Hnd Hflat. unfold no_nested_md in Hflat. rewrite Forall_forall in Hflat.
  induction sub as [|[name child] sub IH]; intros Hsub; simpl; [done|].
  destruct IH as [IH1 IH2]; [intros; apply Hsub; by right|].
  assert (Hin : In (name, child) entries) by (apply Hsub; by left).
  assert (Hread : endsWith name ".md" = true ->
            exists c, child = File c /\ readFileSync (Dir entries) name = Ok c).
  { intros Hmd. specialize (Hflat (name, child) (proj2 (list_elem_of_In _ _) Hin)).
    simpl in Hflat. destruct child as [c|ces]; [|destruct Hflat; congruence].
    exists c. split; [done|]. unfold readFileSync, entry_named.
    by rewrite (find_entry entries name (File c)). }
  cbn [map fst concat List.filter].
  destruct (endsWith name ".md") eqn:Hmd.
  - destruct (Hread eq_refl) as (c & -> & Hc). split.
    + intros f [<-|Hf]; [|by apply IH1]. unfold content_of. by rewrite Hc.
    + cbn [map]. rewrite IH2. unfold content_of at 1. rewrite Hc.
      unfold top_level at 2. cbn [fst snd]. by rewrite Hmd.
  - split; [done|]. rewrite IH2. unfold top_level at 2. cbn [fst snd].
    rewrite Hmd. by destruct child.
Qed.

(** C9 (as amended). For every directory in which entry names are distinct
    and no subdirectory holds a .md file or is itself named like one, the
    flat [loadFromDirectory] of js/loader.mjs and the recursive one both
    reach the constructor, and the lists they pass to it hold the same
    (path, content) pairs, each as often: the two load the same documents.
    (The order may differ: one sorts by code unit, the other by
    [localeCompare].) *)
Theorem flat_and_recursive_same_documents
    {collator : Collator} (absDir : path) (entries : list (string * node)) :
  NoDup (map fst entries) ->
  no_nested_md entries ->
  exists flat recursive,
    flat_docs (Dir entries) = Ok flat /\
    sorted_collect absDir (Dir entries) = Ok recursive /\
    Permutation flat recursive.
Proof.
  intros Hnd Hflat.
  destruct (flat_read_ok entries entries Hnd Hflat) as [Hread Hmap]; [done|].
  set (files := sort codeUnitCompare
                  (List.filter (fun f => endsWith f ".md") (map fst entries))).
  exists (map (fun f => (f, content_of (Dir entries) f)) files),
         (sort (fun a b => localeCompare a.1 b.1) (concat (map top_level entries))).
  split; [|split].
  - unfold flat_docs. simpl. fold files. apply map_res_ok.
    intros f Hf. rewrite Hread; [done|].
    eapply Permutation_in; [apply sort_perm|exact Hf].
  - unfold sorted_collect. by rewrite collect_top_level.
  - rewrite sort_perm, <- Hmap. apply Permutation_map. apply sort_perm.
Qed.

Lemma flat_and_recursive_same_documents_witness :
  exists flat recursive,
    flat_docs (Dir [("top.md", File "Top level doc"); ("notes.txt", File "n");
                    ("img", Dir [("logo.png", File "")])]) = Ok flat /\
    @sorted_collect root_collator ["srv"; "docs"]
      (Dir [("top.md", File "Top level doc"); ("notes.txt", File "n");
            ("img", Dir [("logo.png", File "")])]) = Ok recursive /\
    Permutation flat recursive.
Proof.
  apply flat_and_recursive_same_documents.
  - apply (bool_decide_unpack _). vm_compute. exact I.
  - unfold no_nested_md. repeat (apply Forall_cons; split; [simpl; auto|]).
    apply Forall_nil. done.
Defined.

(** On the nested fixture (a file [top.md] next to [subdir/deep.md]) the
    flat loader passes one document and the recursive one two. *)
Lemma flat_and_recursive_differ :
  flat_docs (Dir [("subdir", Dir [("deep.md", File "nested inside subdir")]);
                  ("top.md", File "Top level doc")])
    = Ok [("top.md", "Top level doc")] /\
  @sorted_collect root_collator ["fixtures"; "nested"]
    (Dir [("subdir", Dir [("deep.md", File "nested inside subdir")]);
          ("top.md", File "Top level doc")])
    = Ok [("subdir/deep.md", "nested inside subdir"); ("top.md", "Top level doc")] /\
  ~ Permutation [("top.md", "Top level doc")]
      [("subdir/deep.md", "nested inside subdir"); ("top.md", "Top level doc")].
Proof.
  split; [reflexivity|]. split; [reflexivity|].
  intros Hp. apply Permutation_length in Hp. discriminate.
Qed.

(** Even on a flat directory the two lists can differ in order. *)
Lemma flat_and_recursive_order :
  flat_docs (Dir [("a.md", File "a"); ("B.md", File "b")])
    = Ok [("B.md", "b"); ("a.md", "a")] /\
  @sorted_collect root_collator ["srv"; "docs"]
      (Dir [("a.md", File "a"); ("B.md", File "b")])
    = Ok [("a.md", "a"); ("B.md", "b")].
Proof. split; reflexivity. Qed.

End LoaderSpec.

(** ** The worker pool *)

Module PoolSpec.
Import Worker Pool.

(** *** Promises *)

Lemma settle_lookup_ne h h' o ps : h <> h' -> settle h o ps !! h' = ps !! h'.
Proof.
  intros Hne. unfold settle. destruct (ps !! h) as [[]|]; try done.
  by apply list_lookup_insert_ne.
Qed.

Lemma settle_lookup_pending h o ps :
  ps !! h = Some Pending -> settle h o ps !! h = Some o.
Proof.
  intros Hp. unfold settle. rewrite Hp. apply list_lookup_insert_eq.
  by eapply lookup_lt_Some.
Qed.

Lemma settle_lookup_settled h o ps x :
  ps !! h = Some x -> x <> Pending -> settle h o ps !! h = Some x.
Proof. intros Hp Hx. unfold settle. rewrite Hp. by destruct x. Qed.

Lemma settle_length h o ps : length (settle h o ps) = length ps.
Proof. unfold settle. destruct (ps !! h) as [[]|]; try done. apply length_insert. Qed.

Lemma reject_list_other err hs ps h :
  h ∉ hs -> reject_list err hs ps !! h = ps !! h.
Proof.
  induction hs as [|x hs IH]; simpl; [done|].
  intros Hn. apply not_elem_of_cons in Hn as [Hne Hn].
  rewrite settle_lookup_ne by done. by apply IH.
Qed.

Lemma reject_list_hit err hs ps h :
  h ∈ hs -> ps !! h = Some Pending ->
  reject_list err hs ps !! h = Some (Rejected err).
Proof.
  intros Hin Hp. induction hs as [|x hs IH]; simpl; [by apply elem_of_nil in Hin|].
  destruct (decide (x = h)) as [->|Hne].
  - destruct (decide (h ∈ hs)) as [Hin'|Hnin].
    + apply settle_lookup_settled; [by apply IH|done].
    + apply settle_lookup_pending. by rewrite reject_list_other.
  - rewrite settle_lookup_ne by done. apply IH.
    apply elem_of_cons in Hin as [->|Hin]; done.
Qed.

Lemma elem_of_values (m : gmap nat nat) h :
  h ∈ (map_to_list m).*2 <-> exists id, m !! id = Some h.
Proof.
  rewrite list_elem_of_fmap. split.
  - intros ([id h'] & -> & Hin). exists id. by apply elem_of_map_to_list.
  - intros (id & Hid). exists (id, h). split; [done|]. by apply elem_of_map_to_list.
Qed.

Lemma reject_all_other err (m : gmap nat nat) ps h :
  (forall id, m !! id <> Some h) -> reject_all err m ps !! h = ps !! h.
Proof.
  intros Hn. apply reject_list_other. rewrite elem_of_values.
  intros (id & Hid). by apply (Hn id).
Qed.

Lemma reject_all_hit err (m : gmap nat nat) ps id h :
  m !! id = Some h -> ps !! h = Some Pending ->
  reject_all err m ps !! h = Some (Rejected err).
Proof. intros Hid Hp. apply reject_list_hit; [|done]. apply elem_of_values. eauto. Qed.

(** *** The [pending] Maps *)

Lemma pending_of_set_pending w m s w' :
  pending_of (set_pending w m s) w' = if decide (w = w') then m else pending_of s w'.
Proof.
  unfold pending_of, set_pending. simpl. rewrite lookup_insert.
  by destruct (decide (w = w')).
Qed.


Lemma pending_of_same s s' w : pendings s' = pendings s -> pending_of s' w = pending_of s w.
Proof. unfold pending_of. by intros ->. Qed.

Lemma consistent_same s s' :
  pendings s' = pendings s -> promises s' = promises s ->
  slots s' = slots s -> spawned s' = spawned s ->
  consistent s -> consistent s'.
Proof.
  intros Hp Hq Hs Hn [I1 I2 I3 I4 I5]. split.
  - intros w id h. rewrite (pending_of_same s s') by done. rewrite Hq. apply I1.
  - intros w w' id id' h. rewrite !(pending_of_same s s') by done. apply I2.
  - intros w. rewrite Hs, Hn. apply I3.
  - by rewrite Hs.
  - intros w. rewrite Hn, (pending_of_same s s') by done. apply I5.
Qed.

Lemma NoDup_insert_fresh (l : list nat) i x :
  NoDup l -> x ∉ l -> NoDup (<[i := x]> l).
Proof.
  intros Hnd. revert i. induction Hnd as [|y l Hy Hnd IH]; intros i Hx; [constructor|].
  apply not_elem_of_cons in Hx as [Hxy Hx].
  destruct i as [|i]; simpl.
  - constructor; [done|done].
  - constructor; [|by apply IH].
    intros Hin. apply list_elem_of_lookup in Hin as [j Hj].
    destruct (decide (i = j)) as [->|Hne].
    + destruct (decide (j < length l)) as [Hlt|Hge].
      * rewrite list_lookup_insert_eq in Hj by done. congruence.
      * rewrite list_insert_ge in Hj by lia. apply Hy. by eapply list_elem_of_lookup_2.
    + rewrite list_lookup_insert_ne in Hj by done. apply Hy.
      by eapply list_elem_of_lookup_2.
Qed.

Lemma elem_of_insert_list (l : list nat) i x y :
  y ∈ <[i := x]> l -> y = x \/ y ∈ l.
Proof.
  intros Hin. apply list_elem_of_lookup in Hin as [j Hj].
  destruct (decide (i = j)) as [->|Hne].
  - destruct (decide (j < length l)) as [Hlt|Hge].
    + rewrite list_lookup_insert_eq in Hj by done. left. congruence.
    + rewrite list_insert_ge in Hj by lia. right. by eapply list_elem_of_lookup_2.
  - rewrite list_lookup_insert_ne in Hj by done. right. by eapply list_elem_of_lookup_2.
Qed.

(** *** The invariant *)

Lemma spawnWorker_consistent s :
  consistent s -> consistent (spawnWorker s).2 /\ (spawnWorker s).1 = spawned s.
Proof.
  intros [I1 I2 I3 I4 I5]. split; [|done]. unfold spawnWorker. cbn [snd].
  assert (Hp : forall w, pending_of (set_pending (spawned s) ∅ (set_spawned (S (spawned s)) s)) w
                         = pending_of s w).
  { intros w. rewrite pending_of_set_pending. destruct (decide (spawned s = w)) as [<-|]; [|done].
    symmetry. by apply I5. }
  split.
  - intros w id h. rewrite Hp. apply I1.
  - intros w w' id id' h. rewrite !Hp. apply I2.
  - intros w Hw. simpl in *. specialize (I3 w Hw). lia.
  - done.
  - intros w Hw. rewrite Hp. simpl in Hw. apply I5. lia.
Qed.

Lemma slot_on_message_consistent w msg s :
  consistent s -> consistent (slot_on_message w msg s).
Proof.
  intros Hc. unfold slot_on_message. case_bool_decide; [done|].
  destruct (m_id msg) as [id|]; [|done].
  destruct (pending_of s w !! id) as [p|] eqn:Hp; [|done].
  destruct Hc as [I1 I2 I3 I4 I5].
  set (s1 := set_pending w (delete id (pending_of s w)) s).
  assert (Hsub : forall w' id' h, pending_of s1 w' !! id' = Some h ->
                   pending_of s w' !! id' = Some h /\ h <> p).
  { intros w' id' h. unfold s1. rewrite pending_of_set_pending.
    destruct (decide (w = w')) as [<-|Hne].
    - rewrite lookup_delete_Some. intros [Hid Hh]. split; [done|].
      intros ->. destruct (I2 _ _ _ _ _ Hh Hp). done.
    - intros Hh. split; [done|]. intros ->. destruct (I2 _ _ _ _ _ Hh Hp). done. }
  assert (consistent (set_promises (settle p (Rejected (JsError "")) (promises s1)) s1)
          /\ forall o, consistent (set_promises (settle p o (promises s1)) s1)) as [_ Hall].
  { split; [|intros o]; (split;
    [ intros w' id' h Hh; apply Hsub in Hh as [Hh Hne]; simpl;
      rewrite settle_lookup_ne by done; by eapply I1
    | intros w1 w2 id1 id2 h Hh1 Hh2; apply Hsub in Hh1 as [Hh1 _];
      apply Hsub in Hh2 as [Hh2 _]; by eapply I2
    | done | done
    | intros w' Hw';
      change (pending_of s1 w' = ∅); unfold s1; rewrite pending_of_set_pending;
      destruct (decide (w = w')) as [<-|]; [|by apply I5];
      rewrite (I5 w Hw') in Hp; by rewrite lookup_empty in Hp ]). }
  destruct (m_error msg); apply Hall.
Qed.

Lemma reject_clear_consistent w err s :
  consistent s ->
  consistent (set_pending w ∅ (set_promises (reject_all err (pending_of s w) (promises s)) s)).
Proof.
  intros [I1 I2 I3 I4 I5].
  set (s1 := set_pending w ∅ _).
  assert (Hsub : forall w' id' h, pending_of s1 w' !! id' = Some h ->
                   pending_of s w' !! id' = Some h /\ w' <> w).
  { intros w' id' h. unfold s1. rewrite pending_of_set_pending.
    destruct (decide (w = w')) as [<-|Hne]; [by rewrite lookup_empty|].
    intros Hh. split; [|done]. exact Hh. }
  split.
  - intros w' id' h Hh. apply Hsub in Hh as [Hh Hne]. simpl.
    rewrite reject_all_other; [by eapply I1|].
    intros id Hid. destruct (I2 _ _ _ _ _ Hh Hid). done.
  - intros w1 w2 id1 id2 h Hh1 Hh2. apply Hsub in Hh1 as [Hh1 _].
    apply Hsub in Hh2 as [Hh2 _]. by eapply I2.
  - done.
  - done.
  - intros w' Hw'. unfold s1. rewrite pending_of_set_pending.
    destruct (decide (w = w')); [done|]. by apply I5.
Qed.

Lemma slot_on_error_consistent w err s :
  consistent s -> consistent (slot_on_error w err s).
Proof. apply reject_clear_consistent. Qed.

Lemma slot_on_exit_consistent w code s :
  consistent s -> consistent (slot_on_exit w code s).
Proof.
  intros Hc. unfold slot_on_exit. destruct (terminated s); [done|].
  pose proof (reject_clear_consistent w (exit_error code) s Hc) as Hc1.
  set (s1 := set_pending w ∅ _) in *.
  destruct (indexOf w (slots s1)) as [idx|]; [|done].
  destruct (spawnWorker_consistent s1 Hc1) as [Hc2 Hw'].
  destruct (spawnWorker s1) as [w' s2] eqn:Hsp. cbn [fst snd] in *.
  assert (Hslots : slots s2 = slots s1) by (by injection Hsp as _ <-).
  assert (Hspawned : spawned s2 = S (spawned s1)) by (by injection Hsp as _ <-).
  destruct Hc2 as [I1 I2 I3 I4 I5]. destruct Hc1 as [_ _ J3 J4 _].
  assert (Hfresh : w' ∉ slots s1).
  { intros Hin. apply J3 in Hin. lia. }
  split; try done.
  - intros x Hx. simpl in *. apply elem_of_insert_list in Hx as [->|Hx].
    + rewrite Hspawned. lia.
    + rewrite Hslots in Hx. rewrite Hspawned. apply J3 in Hx. lia.
  - simpl. rewrite Hslots. by apply NoDup_insert_fresh.
Qed.

Lemma push_promise_consistent o s :
  consistent s -> consistent (set_promises (promises s ++ [o]) s).
Proof.
  intros [I1 I2 I3 I4 I5]. split; try done.
  intros w id h Hh. simpl. rewrite lookup_app_l; [by eapply I1|].
  eapply lookup_lt_Some. by eapply I1.
Qed.

(** The loop of [dispatch] ends on a slot of the pool that has the fewest
    pending requests. *)
Lemma least_pending_min s w :
  least_pending s = Some w ->
  w ∈ slots s /\
  forall w', w' ∈ slots s -> size (pending_of s w) <= size (pending_of s w').
Proof.
  unfold least_pending. destruct (slots s) as [|first rest]; [done|].
  intros [= <-].
  enough (H : forall best,
    let r := foldl (fun best w =>
                      if (size (pending_of s w) <? size (pending_of s best))%nat
                      then w else best) best rest in
    (r = best \/ r ∈ rest) /\
    size (pending_of s r) <= size (pending_of s best) /\
    forall w', w' ∈ rest -> size (pending_of s r) <= size (pending_of s w')).
  { destruct (H first) as (Hin & Hle & Hall). split.
    - destruct Hin as [->|Hin]; [by left|by right].
    - intros w' [->|Hw']%elem_of_cons; [done|by apply Hall]. }
  induction rest as [|x rest IH]; intros best; simpl.
  - split; [by left|]. split; [done|]. intros w' Hw'. by apply elem_of_nil in Hw'.
  - destruct (Nat.ltb_spec (size (pending_of s x)) (size (pending_of s best))) as [Hlt|Hge].
    + destruct (IH x) as (Hin & Hle & Hall). split; [|split].
      * right. destruct Hin as [->|Hin]; [by left|by right].
      * lia.
      * intros w' [->|Hw']%elem_of_cons; [done|by apply Hall].
    + destruct (IH best) as (Hin & Hle & Hall). split; [|split].
      * destruct Hin as [->|Hin]; [by left|right; by right].
      * done.
      * intros w' [->|Hw']%elem_of_cons; [lia|by apply Hall].
Qed.

Lemma dispatch_consistent method args s :
  consistent s -> consistent (dispatch method args s).2.
Proof.
  intros Hc. unfold dispatch. cbv zeta.
  destruct (terminated s); cbn [snd]; [by apply push_promise_consistent|].
  assert (Hc1 : consistent (set_nextId (S (nextId s)) s)) by (by apply (consistent_same s)).
  destruct (least_pending s) as [w|] eqn:Hbest; cbn [snd];
    [|by apply push_promise_consistent].
  apply least_pending_min in Hbest as [Hw _].
  destruct Hc as [I1 I2 I3 I4 I5].
  set (h := length (promises s)).
  assert (Hfresh : forall w' id', pending_of s w' !! id' <> Some h).
  { intros w' id' Hh. apply I1, lookup_lt_Some in Hh. unfold h in Hh. lia. }
  apply (consistent_same
           (set_pending w (<[nextId s := h]> (pending_of s w))
              (set_promises (promises s ++ [Pending]) s))); try done.
  assert (Hlk : forall w' id' h',
    pending_of (set_pending w (<[nextId s := h]> (pending_of s w))
                  (set_promises (promises s ++ [Pending]) s)) w' !! id' = Some h' ->
    (w' = w /\ id' = nextId s /\ h' = h) \/ (pending_of s w' !! id' = Some h')).
  { intros w' id' h'. rewrite pending_of_set_pending.
    destruct (decide (w = w')) as [<-|Hne]; [|by right].
    change (pending_of (set_promises (promises s ++ [Pending]) s) w) with (pending_of s w).
    rewrite lookup_insert. case_decide; [|by right].
    intros [= <-]. left. done. }
  split.
  - intros w' id' h' Hh. simpl. apply Hlk in Hh as [(-> & -> & ->)|Hh].
    + unfold h. by rewrite lookup_app_r, Nat.sub_diag.
    + rewrite lookup_app_l; [by eapply I1|]. eapply lookup_lt_Some. by eapply I1.
  - intros w1 w2 id1 id2 h' Hh1 Hh2.
    apply Hlk in Hh1 as [(-> & -> & ->)|Hh1]; apply Hlk in Hh2 as [(-> & -> & Heq)|Hh2].
    + done.
    + by destruct (Hfresh _ _ Hh2).
    + subst h'. by destruct (Hfresh _ _ Hh1).
    + by eapply I2.
  - done.
  - done.
  - intros w' Hw'. rewrite pending_of_set_pending.
    destruct (decide (w = w')) as [<-|Hne]; [|by apply I5].
    exfalso. simpl in Hw'. apply I3 in Hw. lia.
Qed.


(** The listeners of [createPool] touch only its own promises. *)
Lemma settle_created_fields s :
  let s' := settle_created s in
  pendings s' = pendings s /\ promises s' = promises s /\ slots s' = slots s /\
  spawned s' = spawned s /\ terminated s' = terminated s /\ posted s' = posted s /\
  nextId s' = nextId s.
Proof.
  unfold settle_created. destruct (created s); [|done|done].
  by destruct (all_ready s).
Qed.

Lemma onMessage_fields w msg s :
  let s' := onMessage w msg s in
  pendings s' = pendings s /\ promises s' = promises s /\ slots s' = slots s /\
  spawned s' = spawned s /\ terminated s' = terminated s /\ posted s' = posted s /\
  nextId s' = nextId s.
Proof.
  unfold onMessage. destruct (waits s !! w) as [[]|]; try done.
  case_bool_decide; [|done].
  apply (settle_created_fields (set_waits (<[w:=GotReady]> (waits s)) s)).
Qed.

Lemma onError_fields w err s :
  let s' := onError w err s in
  pendings s' = pendings s /\ promises s' = promises s /\ slots s' = slots s /\
  spawned s' = spawned s /\ terminated s' = terminated s /\ posted s' = posted s /\
  nextId s' = nextId s.
Proof.
  unfold onError. destruct (waits s !! w) as [[]|]; try done.
  simpl. by destruct (created s).
Qed.

Lemma initial_consistent : consistent initial.
Proof.
  split; try done.
  - intros w Hw. by apply elem_of_nil in Hw.
  - constructor.
Qed.

Lemma spawn_loop_consistent n s : consistent s -> consistent (spawn_loop n s).
Proof.
  revert s. induction n as [|n IH]; intros s Hc; simpl; [done|].
  apply IH. destruct (spawnWorker_consistent s Hc) as [Hc1 _].
  unfold spawnWorker in Hc1. cbn [snd] in Hc1.
  destruct Hc1 as [I1 I2 I3 I4 I5]. destruct Hc as [_ _ J3 _ _].
  split; try done.
  - intros w [Hw| ->%list_elem_of_singleton]%elem_of_app; simpl; [by apply I3|]. lia.
  - simpl. apply NoDup_app. split; [done|]. split; [|apply NoDup_singleton].
    intros w Hw ->%list_elem_of_singleton. apply J3 in Hw. lia.
Qed.

Lemma createPool_consistent size : consistent (createPool size).
Proof.
  unfold createPool. cbv zeta.
  set (s := spawn_loop (Z.to_nat size) initial).
  assert (Hs : consistent s) by apply spawn_loop_consistent, initial_consistent.
  destruct (settle_created_fields
              (set_waits (list_to_map (map (fun w => (w, Waiting)) (slots s))) s))
    as (H1 & H2 & H3 & H4 & _).
  by apply (consistent_same s).
Qed.

Lemma step_consistent e s : consistent s -> consistent (step e s).
Proof.
  intros Hc. destruct e as [w msg|w err|w code|c|]; simpl.
  - destruct (onMessage_fields w msg (slot_on_message w msg s)) as (H1 & H2 & H3 & H4 & _).
    apply (consistent_same (slot_on_message w msg s)); try done.
    by apply slot_on_message_consistent.
  - destruct (onError_fields w err (slot_on_error w err s)) as (H1 & H2 & H3 & H4 & _).
    apply (consistent_same (slot_on_error w err s)); try done.
    by apply slot_on_error_consistent.
  - by apply slot_on_exit_consistent.
  - destruct c; by apply dispatch_consistent.
  - by apply (consistent_same s).
Qed.

Lemma run_snoc es e s : run (es ++ [e]) s = step e (run es s).
Proof. unfold run. by rewrite foldl_snoc. Qed.

Lemma run_consistent es s : consistent s -> consistent (run es s).
Proof.
  intros Hc. induction es as [|e es IH] using rev_ind; [done|].
  rewrite run_snoc. by apply step_consistent.
Qed.

(** Every state a pool goes through keeps the invariant. *)
Lemma reachable_consistent size es : consistent (run es (createPool size)).
Proof. apply run_consistent, createPool_consistent. Qed.

(** *** The number of slots *)

Lemma spawn_loop_slots n s :
  length (slots (spawn_loop n s)) = length (slots s) + n.
Proof.
  revert s. induction n as [|n IH]; intros s; simpl; [lia|].
  rewrite IH. simpl. rewrite length_app. simpl. lia.
Qed.

Lemma step_slots_length e s : length (slots (step e s)) = length (slots s).
Proof.
  destruct e as [w msg|w err|w code|c|]; simpl.
  - destruct (onMessage_fields w msg (slot_on_message w msg s)) as (_ & _ & -> & _).
    unfold slot_on_message. case_bool_decide; [done|].
    destruct (m_id msg); [|done]. destruct (pending_of s w !! n); [|done].
    by destruct (m_error msg).
  - by destruct (onError_fields w err (slot_on_error w err s)) as (_ & _ & -> & _).
  - unfold slot_on_exit. destruct (terminated s); [done|].
    simpl. destruct (indexOf w (slots s)); [|done]. simpl. apply length_insert.
  - destruct c; unfold invoke, pool_grep, pool_read, pool_ls, pool_toolDefinitions,
      pool_documentCount, dispatch; cbv zeta;
      destruct (terminated s); try done; by destruct (least_pending s).
  - done.
Qed.

Lemma reachable_slots_length size es :
  length (slots (run es (createPool size))) = Z.to_nat size.
Proof.
  induction es as [|e es IH] using rev_ind.
  - unfold run, createPool. cbv zeta. simpl.
    match goal with |- context [settle_created ?s] =>
      destruct (settle_created_fields s) as (_ & _ & -> & _) end.
    simpl. by rewrite spawn_loop_slots.
  - by rewrite run_snoc, step_slots_length.
Qed.


(** *** Dispatch *)

Lemma dispatch_posts method args s w :
  terminated s = false -> least_pending s = Some w ->
  (dispatch method args s).1 = length (promises s) /\
  posted (dispatch method args s).2
    = posted s ++ [(w, Build_Request (nextId s) method args)] /\
  pending_of (dispatch method args s).2 w
    = <[nextId s := length (promises s)]> (pending_of s w) /\
  promises (dispatch method args s).2 = promises s ++ [Pending] /\
  nextId (dispatch method args s).2 = S (nextId s).
Proof.
  intros Ht Hbest. unfold dispatch. cbv zeta. rewrite Ht, Hbest. cbn [fst snd].
  split; [done|]. split; [done|]. split; [|done].
  change (pending_of (set_posted ?p ?s0) w) with (pending_of s0 w).
  rewrite pending_of_set_pending. by rewrite decide_True.
Qed.

Lemma invoke_dispatch c s :
  exists method args, invoke c s = dispatch method args s.
Proof. destruct c; simpl; eauto. Qed.

(** C3. Every operation invoked on a pool that is not terminated and has
    worker slots posts exactly one request, to a slot of the pool whose
    [pending] Map, at that moment, is no larger than that of any slot of the
    pool; the request is registered there under the promise returned. *)
Theorem dispatch_least_pending (c : operation) (s : State) :
  terminated s = false ->
  slots s <> [] ->
  exists w req,
    w ∈ slots s /\
    (forall w', w' ∈ slots s -> size (pending_of s w) <= size (pending_of s w')) /\
    posted (invoke c s).2 = posted s ++ [(w, req)] /\
    req_id req = nextId s /\
    pending_of (invoke c s).2 w
      = <[req_id req := (invoke c s).1]> (pending_of s w) /\
    promises (invoke c s).2 !! (invoke c s).1 = Some Pending.
Proof.
  intros Ht Hne.
  destruct (least_pending s) as [w|] eqn:Hbest.
  2:{ unfold least_pending in Hbest. by destruct (slots s). }
  destruct (invoke_dispatch c s) as (method & args & ->).
  destruct (dispatch_posts method args s w Ht Hbest) as (Hh & Hp & Hpe & Hpr & _).
  destruct (least_pending_min s w Hbest) as [Hin Hmin].
  exists w, (Build_Request (nextId s) method args).
  split; [done|]. split; [done|]. split; [done|]. split; [done|].
  split; [by rewrite Hh|].
  rewrite Hpr, Hh. by rewrite lookup_app_r, Nat.sub_diag.
Qed.

Lemma dispatch_least_pending_witness :
  exists w req,
    w ∈ slots (createPool 2) /\
    (forall w', w' ∈ slots (createPool 2) ->
       size (pending_of (createPool 2) w) <= size (pending_of (createPool 2) w')) /\
    posted (invoke (Grep (JStr "archive") JUndefined) (createPool 2)).2
      = posted (createPool 2) ++ [(w, req)] /\
    req_id req = nextId (createPool 2) /\
    pending_of (invoke (Grep (JStr "archive") JUndefined) (createPool 2)).2 w
      = <[req_id req := (invoke (Grep (JStr "archive") JUndefined) (createPool 2)).1]>
          (pending_of (createPool 2) w) /\
    promises (invoke (Grep (JStr "archive") JUndefined) (createPool 2)).2
      !! (invoke (Grep (JStr "archive") JUndefined) (createPool 2)).1 = Some Pending.
Proof.
  apply (dispatch_least_pending (Grep (JStr "archive") JUndefined) (createPool 2)).
  - reflexivity.
  - vm_compute. discriminate.
Defined.

(** Two calls in a row on a fresh pool of two workers go to the two
    workers: after the first, worker 0 has one request pending and worker 1
    none. *)
Example dispatch_spreads :
  posted (run [ECall (Grep (JStr "file") JUndefined); ECall (Ls (JStr ""))]
              (createPool 2))
  = [(0, Build_Request 0 "grep" [JStr "file"]);
     (1, Build_Request 1 "ls" [JStr ""])].
Proof. vm_compute. reflexivity. Qed.

(** With no slot at all ([workers: 0]) [slots[0]] is [undefined]: the
    executor throws, the promise returned is rejected, nothing is posted. *)
Lemma dispatch_empty_pool method args :
  let s := createPool 0 in
  promises (dispatch method args s).2 !! (dispatch method args s).1
    = Some (Rejected (JsError "Cannot read properties of undefined (reading 'pending')"))
  /\ posted (dispatch method args s).2 = [].
Proof. split; reflexivity. Qed.

(** *** Exit of a worker *)

Lemma indexOf_lookup (l : list nat) i w :
  NoDup l -> l !! i = Some w -> indexOf w l = Some i.
Proof.
  intros Hnd. revert i. induction Hnd as [|x l Hx Hnd IH]; intros i; [done|].
  destruct i as [|i]; simpl.
  - intros [= ->]. by rewrite decide_True.
  - intros Hi. rewrite decide_False.
    + by rewrite (IH i Hi).
    + intros ->. apply Hx. by eapply list_elem_of_lookup_2.
Qed.

(** C4. Whenever a worker of the pool exits while the pool is not
    terminated, every request still pending on it is rejected with the
    error "worker exited with code ...", its [pending] Map is emptied, and
    its slot is taken by a newly spawned worker with nothing pending, so
    that the pool holds as many slots as before, the number it was created
    with; the [pending] Maps of the other workers and the promises
    registered in them stay as they were. *)
Theorem exit_rejects_and_respawns
    (size : Z) (es : list event) (idx w : nat) (code : Z) :
  let s := run es (createPool size) in
  let s' := step (EExit w code) s in
  terminated s = false ->
  slots s !! idx = Some w ->
  (forall id h, pending_of s w !! id = Some h ->
     promises s' !! h = Some (Rejected (exit_error code))) /\
  pending_of s' w = ∅ /\
  slots s' = <[idx := spawned s]> (slots s) /\
  (spawned s ∉ slots s) /\
  (w ∉ slots s') /\
  spawned s' = S (spawned s) /\
  pending_of s' (spawned s) = ∅ /\
  length (slots s') = Z.to_nat size /\
  (forall w', w' <> w ->
     pending_of s' w' = pending_of s w' /\
     forall id h, pending_of s w' !! id = Some h -> promises s' !! h = Some Pending).
Proof.
  intros s s' Ht Hidx.
  pose proof (reachable_consistent size es) as Hc. fold s in Hc.
  pose proof (reachable_slots_length size (es ++ [EExit w code])) as Hlen.
  rewrite run_snoc in Hlen. fold s in Hlen. fold s' in Hlen.
  destruct Hc as [I1 I2 I3 I4 I5].
  assert (Hfresh : spawned s ∉ slots s).
  { intros Hin. apply I3 in Hin. lia. }
  assert (Hw : w < spawned s).
  { apply I3. by eapply list_elem_of_lookup_2. }
  assert (Hs' : s' =
    set_slots (<[idx := spawned s]> (slots s))
      (set_pending (spawned s) ∅
         (set_spawned (S (spawned s))
            (set_pending w ∅
               (set_promises (reject_all (exit_error code) (pending_of s w) (promises s))
                  s))))).
  { unfold s'. simpl. unfold slot_on_exit. rewrite Ht. cbn [slots set_pending set_pendings
      set_promises]. by rewrite (indexOf_lookup (slots s) idx w I4 Hidx). }
  assert (Hpend : forall w', pending_of s' w' = if decide (w' = w) then ∅ else pending_of s w').
  { intros w'. rewrite Hs'.
    change (pending_of (set_slots ?l ?s0) w') with (pending_of s0 w').
    rewrite pending_of_set_pending. destruct (decide (spawned s = w')) as [<-|Hne].
    - rewrite decide_False by lia. symmetry. by apply I5.
    - change (pending_of (set_spawned ?n ?s0) w') with (pending_of s0 w').
      rewrite pending_of_set_pending.
      destruct (decide (w = w')) as [<-|Hne']; [by rewrite decide_True|].
      by rewrite decide_False. }
  assert (Hprom : promises s' = reject_all (exit_error code) (pending_of s w) (promises s)).
  { by rewrite Hs'. }
  split; [|split; [|split; [|split; [|split; [|split; [|split; [|split]]]]]]].
  - intros id h Hh. rewrite Hprom. eapply reject_all_hit; [exact Hh|]. by eapply I1.
  - rewrite Hpend. by rewrite decide_True.
  - by rewrite Hs'.
  - done.
  - rewrite Hs'. cbn [slots set_slots]. intros Hin.
    apply list_elem_of_lookup in Hin as [j Hj].
    destruct (decide (idx = j)) as [<-|Hne].
    + rewrite list_lookup_insert_eq in Hj by (by eapply lookup_lt_Some). injection Hj. lia.
    + rewrite list_lookup_insert_ne in Hj by done.
      by pose proof (NoDup_lookup _ _ _ _ I4 Hidx Hj).
  - by rewrite Hs'.
  - rewrite Hpend. rewrite decide_False by lia. by apply I5.
  - done.
  - intros w' Hne. split; [rewrite Hpend; by rewrite decide_False|].
    intros id h Hh. rewrite Hprom. rewrite reject_all_other; [by eapply I1|].
    intros id' Hid'. destruct (I2 _ _ _ _ _ Hh Hid'). done.
Qed.


Lemma exit_rejects_and_respawns_witness :
  let s := run [ECall (Read (JStr "tar.md") JUndefined JUndefined)] (createPool 2) in
  let s' := step (EExit 0 1) s in
  (forall id h, pending_of s 0 !! id = Some h ->
     promises s' !! h = Some (Rejected (exit_error 1))) /\
  pending_of s' 0 = ∅ /\
  slots s' = <[0 := spawned s]> (slots s) /\
  (spawned s ∉ slots s) /\
  (0 ∉ slots s') /\
  spawned s' = S (spawned s) /\
  pending_of s' (spawned s) = ∅ /\
  length (slots s') = Z.to_nat 2 /\
  (forall w', w' <> 0 ->
     pending_of s' w' = pending_of s w' /\
     forall id h, pending_of s w' !! id = Some h -> promises s' !! h = Some Pending).
Proof.
  apply (exit_rejects_and_respawns 2
           [ECall (Read (JStr "tar.md") JUndefined JUndefined)] 0 0 1);
    reflexivity.
Defined.

(** *** Termination *)

Lemma step_terminated e s : terminated s = true -> terminated (step e s) = true.
Proof.
  intros Ht. destruct e as [w msg|w err|w code|c|]; simpl.
  - destruct (onMessage_fields w msg (slot_on_message w msg s)) as (_ & _ & _ & _ & -> & _).
    unfold slot_on_message. case_bool_decide; [done|].
    destruct (m_id msg); [|done]. destruct (pending_of s w !! n); [|done].
    by destruct (m_error msg).
  - by destruct (onError_fields w err (slot_on_error w err s)) as (_ & _ & _ & _ & -> & _).
  - unfold slot_on_exit. by rewrite Ht.
  - destruct (invoke_dispatch c s) as (method & args & ->).
    unfold dispatch. cbv zeta. by rewrite Ht.
  - done.
Qed.

Lemma run_terminated es s : terminated s = true -> terminated (run es s) = true.
Proof.
  intros Ht. induction es as [|e es IH] using rev_ind; [done|].
  rewrite run_snoc. by apply step_terminated.
Qed.

(** C10. After [terminate()] has been invoked, whatever happens next, every
    call of [grep], [read], [ls], [toolDefinitions] or [documentCount]
    returns a promise rejected with "pool is terminated" and leaves the
    pool as it was but for that promise: nothing is posted, nothing becomes
    pending, no request id is used; and the exit of a worker changes
    nothing: no slot is replaced and no worker is spawned. *)
Theorem terminated_pool_rejects
    (size : Z) (before after : list event) (c : operation) :
  let s := run after (terminate (run before (createPool size))) in
  terminated s = true /\
  promises (invoke c s).2 !! (invoke c s).1
    = Some (Rejected (JsError "pool is terminated")) /\
  (invoke c s).2
    = set_promises (promises s ++ [Rejected (JsError "pool is terminated")]) s /\
  posted (invoke c s).2 = posted s /\
  (forall w code, step (EExit w code) s = s).
Proof.
  intros s.
  assert (Ht : terminated s = true) by (by apply run_terminated).
  assert (Hinv : invoke c s
            = (length (promises s),
               set_promises (promises s ++ [Rejected (JsError "pool is terminated")]) s)).
  { destruct (invoke_dispatch c s) as (method & args & ->).
    unfold dispatch. cbv zeta. by rewrite Ht. }
  rewrite Hinv. cbn [fst snd]. split; [done|]. split; [|split; [done|split; [done|]]].
  - simpl. by rewrite lookup_app_r, Nat.sub_diag.
  - intros w code. simpl. unfold slot_on_exit. by rewrite Ht.
Qed.


(** *** Requests and their responses *)

(** What the message handler of the pool does with a response. *)
Lemma deliver_response w msg id h s :
  consistent s ->
  m_type msg = None -> m_id msg = Some id ->
  pending_of s w !! id = Some h ->
  promises (step (EMessage w msg) s) !! h
    = Some (match m_error msg with
            | Some error => Rejected (JsError error)
            | None => Resolved (m_result msg)
            end) /\
  pending_of (step (EMessage w msg) s) w !! id = None.
Proof.
  intros Hc Hty Hid Hp. simpl.
  destruct (onMessage_fields w msg (slot_on_message w msg s)) as (H1 & H2 & _).
  rewrite H2, (pending_of_same _ _ w H1).
  unfold slot_on_message. rewrite Hty, Hid, Hp.
  rewrite bool_decide_eq_false_2 by done.
  pose proof (pending_is_pending s Hc _ _ _ Hp) as Hpend.
  destruct (m_error msg); simpl; (split; [by apply settle_lookup_pending|]);
    change (pending_of (set_promises ?ps ?s0) w) with (pending_of s0 w);
    rewrite pending_of_set_pending, decide_True by done; apply lookup_delete_eq.
Qed.

Section Responses.
Context {Store : Type} `{!Core Store}.
Context (JSON_parse : string -> res jsval).

(** The worker posts exactly one message for a request. *)
Lemma on_message_single (fs : Store) (req : Request) :
  exists msg,
    Worker.on_message JSON_parse fs req = [msg] /\
    m_type msg = None /\ m_id msg = Some (req_id req) /\
    match Worker.call JSON_parse fs (req_method req) (req_args req) with
    | Ok v => m_error msg = None /\ m_result msg = v
    | Throw err => m_error msg = Some (message_of err)
    end.
Proof.
  unfold Worker.on_message.
  destruct (Worker.call JSON_parse fs (req_method req) (req_args req)); eexists; eauto.
Qed.

Lemma call_unknown (fs : Store) method args :
  method ∉ ["grep"; "read"; "ls"; "toolDefinitions"; "documentCount"] ->
  Worker.call JSON_parse fs method args = Throw (JsError ("unknown method: " +:+ method)).
Proof.
  intros Hn. unfold Worker.call.
  destruct (String.eqb_spec method "grep") as [->|_]; [set_solver|].
  destruct (String.eqb_spec method "read") as [->|_]; [set_solver|].
  destruct (String.eqb_spec method "ls") as [->|_]; [set_solver|].
  destruct (String.eqb_spec method "toolDefinitions") as [->|_]; [set_solver|].
  destruct (String.eqb_spec method "documentCount") as [->|_]; [set_solver|].
  done.
Qed.

(** C6 (as amended). For every request that is still pending on its worker
  when the worker's answer reaches the pool: the worker's handler posts
  exactly one message, carrying the request's id; on receiving it the
  pool rejects the promise of the request if and only if the dispatch
  inside the worker threw, an unknown method name being one way to throw,
  and then with an error of the same message; otherwise it resolves the
  promise with the result; either way the request is no longer
  pending. *)
Theorem response_settles_promise
    (size : Z) (es : list event) (w : nat) (req : Request) (h : nat) (fs : Store) :
  let s := run es (createPool size) in
  let outcome := Worker.call JSON_parse fs (req_method req) (req_args req) in
  pending_of s w !! req_id req = Some h ->
  exists msg,
    Worker.on_message JSON_parse fs req = [msg] /\
    m_id msg = Some (req_id req) /\
    let s' := step (EMessage w msg) s in
    ((exists e, promises s' !! h = Some (Rejected e)) <-> (exists err, outcome = Throw err)) /\
    (forall err, outcome = Throw err ->
       promises s' !! h = Some (Rejected (JsError (message_of err)))) /\
    (forall v, outcome = Ok v -> promises s' !! h = Some (Resolved v)) /\
    (req_method req ∉ ["grep"; "read"; "ls"; "toolDefinitions"; "documentCount"] ->
       outcome = Throw (JsError ("unknown method: " +:+ req_method req))) /\
    pending_of s' w !! req_id req = None.
Proof.
  intros s outcome Hp.
  destruct (on_message_single fs req) as (msg & Hmsg & Hty & Hid & Hout).
  exists msg. split; [done|]. split; [done|]. cbv zeta.
  destruct (deliver_response w msg (req_id req) h s) as [Hprom Hgone];
    [apply reachable_consistent|done|done|done|].
  rewrite Hprom. fold outcome in Hout.
  split; [|split; [|split; [|split; [|done]]]].
  - destruct outcome as [v|err].
    + destruct Hout as [-> _]. split; intros [x Hx]; done.
    + rewrite Hout. split; eauto.
  - intros err Herr. rewrite Herr in Hout. by rewrite Hout.
  - intros v Hv. rewrite Hv in Hout. destruct Hout as [-> ->]. done.
  - apply call_unknown.
Qed.

(** C7. For every successful request, the promise is resolved with the
    value the worker computed: for [grep], [ls] and [toolDefinitions] the
    [JSON.parse] of the string the core returned, for [read] that string
    itself, for [documentCount] the number itself. *)
Theorem results_delivered
    (size : Z) (es : list event) (w : nat) (req : Request) (h : nat) (fs : Store)
    (v : jsval) :
  let s := run es (createPool size) in
  let s' := foldl (fun s msg => step (EMessage w msg) s) s
                  (Worker.on_message JSON_parse fs req) in
  pending_of s w !! req_id req = Some h ->
  Worker.call JSON_parse fs (req_method req) (req_args req) = Ok v ->
  promises s' !! h = Some (Resolved v) /\
  (req_method req = "grep" ->
     exists str, grep fs (req_args req) = Ok str /\ JSON_parse str = Ok v) /\
  (req_method req = "ls" ->
     exists str, ls fs (req_args req) = Ok str /\ JSON_parse str = Ok v) /\
  (req_method req = "toolDefinitions" -> JSON_parse (tool_definitions fs) = Ok v) /\
  (req_method req = "read" ->
     exists str, read fs (req_args req) = Ok str /\ v = JStr str) /\
  (req_method req = "documentCount" -> v = JNum (document_count fs)).
Proof.
  intros s s' Hp Hcall.
  split.
  - destruct (on_message_single fs req) as (msg & Hmsg & Hty & Hid & Hout).
    unfold s'. rewrite Hmsg. cbn [foldl].
    destruct (deliver_response w msg (req_id req) h s) as [Hprom _];
      [apply reachable_consistent|done|done|done|].
    rewrite Hprom. rewrite Hcall in Hout. by destruct Hout as [-> ->].
  - unfold Worker.call in Hcall.
    repeat split; intros Hm; rewrite Hm in Hcall; simpl in Hcall.
    + destruct (grep fs (req_args req)) as [str|]; [|done]. eauto.
    + destruct (ls fs (req_args req)) as [str|]; [|done]. eauto.
    + done.
    + destruct (read fs (req_args req)) as [str|]; [|done].
      exists str. split; [done|]. by injection Hcall.
    + by injection Hcall.
Qed.
End Responses.


Lemma response_settles_promise_witness :
  let fs : Loader.docs := [("tar.md", "# tar")] in
  let req := Build_Request 0 "read" [JStr "nonexistent.md"] in
  let s := run [ECall (Read (JStr "nonexistent.md") JUndefined JUndefined)] (createPool 1) in
  let outcome := @Worker.call _ Sample.sample_core Sample.sample_parse fs
                   (req_method req) (req_args req) in
  exists msg,
    @Worker.on_message _ Sample.sample_core Sample.sample_parse fs req = [msg] /\
    m_id msg = Some (req_id req) /\
    let s' := step (EMessage 0 msg) s in
    ((exists e, promises s' !! 0 = Some (Rejected e)) <-> (exists err, outcome = Throw err)) /\
    (forall err, outcome = Throw err ->
       promises s' !! 0 = Some (Rejected (JsError (message_of err)))) /\
    (forall v, outcome = Ok v -> promises s' !! 0 = Some (Resolved v)) /\
    (req_method req ∉ ["grep"; "read"; "ls"; "toolDefinitions"; "documentCount"] ->
       outcome = Throw (JsError ("unknown method: " +:+ req_method req))) /\
    pending_of s' 0 !! req_id req = None.
Proof.
  apply (@response_settles_promise _ Sample.sample_core Sample.sample_parse 1
           [ECall (Read (JStr "nonexistent.md") JUndefined JUndefined)] 0
           (Build_Request 0 "read" [JStr "nonexistent.md"]) 0 [("tar.md", "# tar")]).
  vm_compute. reflexivity.
Defined.

(** A request pending on a worker that exits is rejected although no
    dispatch inside a worker threw for it: the [read] of an existing
    document, posted to worker 0, is rejected with "worker exited with code
    1" when that worker exits before answering. *)
Lemma rejected_without_throw :
  posted (run [ECall (Read (JStr "top.md") JUndefined JUndefined); EExit 0 1]
              (createPool 1))
    = [(0, Build_Request 0 "read" [JStr "top.md"])] /\
  promises (run [ECall (Read (JStr "top.md") JUndefined JUndefined); EExit 0 1]
                (createPool 1)) !! 0
    = Some (Rejected (JsError "worker exited with code 1")) /\
  @Worker.call _ Sample.sample_core Sample.sample_parse
     [("top.md", "Top level doc")] "read" [JStr "top.md"]
    = Ok (JStr "Top level doc").
Proof. repeat split; vm_compute; reflexivity. Qed.

Lemma results_delivered_witness :
  let fs : Loader.docs := [("tar.md", "# tar")] in
  let req := Build_Request 0 "read" [JStr "tar.md"] in
  let s := run [ECall (Read (JStr "tar.md") JUndefined JUndefined)] (createPool 1) in
  let s' := foldl (fun s msg => step (EMessage 0 msg) s) s
              (@Worker.on_message _ Sample.sample_core Sample.sample_parse fs req) in
  promises s' !! 0 = Some (Resolved (JStr "# tar")) /\
  (req_method req = "grep" ->
     exists str, @grep _ Sample.sample_core fs (req_args req) = Ok str /\
                 Sample.sample_parse str = Ok (JStr "# tar")) /\
  (req_method req = "ls" ->
     exists str, @ls _ Sample.sample_core fs (req_args req) = Ok str /\
                 Sample.sample_parse str = Ok (JStr "# tar")) /\
  (req_method req = "toolDefinitions" ->
     Sample.sample_parse (@tool_definitions _ Sample.sample_core fs) = Ok (JStr "# tar")) /\
  (req_method req = "read" ->
     exists str, @read _ Sample.sample_core fs (req_args req) = Ok str /\
                 JStr "# tar" = JStr str) /\
  (req_method req = "documentCount" ->
     JStr "# tar" = JNum (@document_count _ Sample.sample_core fs)).
Proof.
  apply (@results_delivered _ Sample.sample_core Sample.sample_parse 1
           [ECall (Read (JStr "tar.md") JUndefined JUndefined)] 0
           (Build_Request 0 "read" [JStr "tar.md"]) 0 [("tar.md", "# tar")]
           (JStr "# tar")).
  - vm_compute. reflexivity.
  - reflexivity.
Defined.

End PoolSpec.

(** ** Ordering and capping of [grep] *)

Module GrepSpec.
Import JsArray Grep SortFacts.

Lemma code_units_inj a b : code_units a = code_units b -> a = b.
Proof.
  unfold code_units. intros H.
  rewrite <- (string_of_list_ascii_of_string a), <- (string_of_list_ascii_of_string b).
  f_equal. revert H. generalize (list_ascii_of_string a) (list_ascii_of_string b).
  intros l1. induction l1 as [|x l1 IH]; intros [|y l2]; simpl; try done.
  intros [= Hxy Hl]. f_equal; [|by apply IH].
  rewrite <- (ascii_N_embedding x), <- (ascii_N_embedding y). by rewrite Hxy.
Qed.

Lemma result_compare_le a b : cmp_le result_compare a b <-> result_le a b.
Proof.
  unfold cmp_le, result_compare, result_le, str_lt.
  destruct (lex_compare (code_units (r_path a)) (code_units (r_path b))) eqn:Hc; simpl.
  - apply lex_compare_eq, code_units_inj in Hc.
    destruct (Nat.compare_spec (r_line a) (r_line b)); simpl; split;
      try lia; try (intros _; right; split; [done|lia]); intros [|[_ ?]]; try done; lia.
  - split; [by left|lia].
  - split; [lia|]. intros [|[Hp _]]; [done|].
    rewrite Hp, lex_compare_refl in Hc. done.
Qed.

Lemma str_lt_trans a b c : str_lt a b -> str_lt b c -> str_lt a c.
Proof.
  unfold str_lt. intros Hab Hbc.
  destruct (lex_compare (code_units a) (code_units c)) eqn:Hac; [|done|].
  - apply lex_compare_eq in Hac. rewrite Hac in Hab.
    rewrite (lex_compare_antisym (code_units c) (code_units b)), Hab in Hbc. done.
  - exfalso. eapply (lex_compare_le_trans (code_units a) (code_units b) (code_units c));
      [by rewrite Hab|by rewrite Hbc|done].
Qed.

Lemma result_le_total a b : result_le a b \/ result_le b a.
Proof.
  unfold result_le, str_lt.
  rewrite (lex_compare_antisym (code_units (r_path a)) (code_units (r_path b))).
  destruct (lex_compare (code_units (r_path a)) (code_units (r_path b))) eqn:Hc; simpl.
  - apply lex_compare_eq, code_units_inj in Hc.
    destruct (Nat.le_ge_cases (r_line a) (r_line b)); [left|right]; right; done.
  - by left; left.
  - by right; left.
Qed.

Lemma result_le_trans a b c : result_le a b -> result_le b c -> result_le a c.
Proof.
  unfold result_le. intros [Hab|[Hab Hl1]] [Hbc|[Hbc Hl2]].
  - left. by eapply str_lt_trans.
  - left. by rewrite <- Hbc.
  - left. by rewrite Hab.
  - right. split; [congruence|lia].
Qed.

Lemma StronglySorted_weaken {A} (R1 R2 : A -> A -> Prop) l :
  (forall a b, R1 a b -> R2 a b) -> StronglySorted R1 l -> StronglySorted R2 l.
Proof.
  intros HR. induction 1 as [|x l Hs IH Hx]; constructor; [done|].
  eapply Forall_impl; [exact Hx|]. intros y. apply HR.
Qed.

(** Results collected in store order come out by path, then by line. *)
Example grep_orders :
  grep (fun _ => true) (fun l => String.eqb l "tar")
       [Build_Document "b.md" ["tar"; "x"; "tar"]; Build_Document "a.md" ["x"; "tar"]]
  = [Build_GrepResult "a.md" 2 "tar"; Build_GrepResult "b.md" 1 "tar";
     Build_GrepResult "b.md" 3 "tar"].
Proof. reflexivity. Qed.

Section Query.
Context (in_scope : string -> bool) (line_matches : string -> bool).

Lemma full_result_sorted store :
  StronglySorted result_le (full_result in_scope line_matches store).
Proof.
  unfold full_result.
  apply (StronglySorted_weaken (cmp_le result_compare)).
  - intros a b. apply result_compare_le.
  - apply sort_sorted.
    + intros a b. rewrite !result_compare_le. apply result_le_total.
    + intros a b c. rewrite !result_compare_le. apply result_le_trans.
Qed.

(** C8. For every query, the sequence [grep] returns ascends by path and
    then by line, has at most 100 entries, and is the first 100 entries
    of the full result set once that is sorted: when more than 100 lines
    match it has exactly 100 entries, and no result left out comes before
    a result returned. *)
Theorem grep_sorted_then_capped (store : list Document) :
  let full := full_result in_scope line_matches store in
  let out := grep in_scope line_matches store in
  Permutation full (collected in_scope line_matches store) /\
  StronglySorted result_le full /\
  out = take 100 full /\
  StronglySorted result_le out /\
  length out <= 100 /\
  (100 < length (collected in_scope line_matches store) -> length out = 100) /\
  (forall kept left_out,
     kept ∈ out -> left_out ∈ drop 100 full -> result_le kept left_out).
Proof.
  intros full out.
  pose proof (full_result_sorted store) as Hs. fold full in Hs.
  assert (Hperm : Permutation full (collected in_scope line_matches store))
    by apply sort_perm.
  assert (Hsplit : StronglySorted result_le (take 100 full ++ drop 100 full))
    by (by rewrite take_drop).
  split; [done|]. split; [done|]. split; [done|]. split; [|split; [|split]].
  - by eapply StronglySorted_app_1_l.
  - unfold out, grep, cap. rewrite length_take. lia.
  - intros Hmany. unfold out, grep, cap. rewrite length_take.
    fold full. rewrite (Permutation_length Hperm). lia.
  - intros kept left_out Hk Hl.
    by eapply (StronglySorted_app_1_elem_of _ (take 100 full) (drop 100 full)).
Qed.
End Query.

End GrepSpec.

(** ** Readiness *)

Module SystemSpec.
Import Fs Worker Pool System PoolSpec.

(** *** The promises of [createPool] *)

Lemma spawn_loop_slots_seq n s :
  slots (spawn_loop n s) = slots s ++ seq (spawned s) n.
Proof.
  revert s. induction n as [|n IH]; intros s; simpl; [by rewrite app_nil_r|].
  rewrite IH. simpl. by rewrite <- app_assoc.
Qed.

Lemma spawn_loop_created n s : created (spawn_loop n s) = created s.
Proof. revert s. induction n as [|n IH]; intros s; simpl; [done|]. by rewrite IH. Qed.

Lemma settle_created_waits_inv n s :
  (forall w, w < n -> is_Some (waits s !! w)) ->
  created s <> Created ->
  waits_inv n (settle_created s).
Proof.
  intros H1 H2. unfold settle_created.
  destruct (created s) eqn:Hc; [|done|by split; [|rewrite Hc]].
  unfold all_ready. case_bool_decide as Hall.
  - split; [done|]. intros _. exact Hall.
  - split; [done|]. by rewrite Hc.
Qed.

Lemma createPool_waits_inv size : waits_inv (Z.to_nat size) (createPool size).
Proof.
  unfold createPool. cbv zeta. apply settle_created_waits_inv.
  2:{ simpl. by rewrite spawn_loop_created. }
  intros w Hw. simpl. rewrite spawn_loop_slots_seq. simpl.
  apply elem_of_dom. rewrite dom_list_to_map_L.
  apply elem_of_list_to_set, list_elem_of_fmap. exists (w, Waiting). split; [done|].
  apply list_elem_of_fmap. exists w. split; [done|]. apply list_elem_of_In, in_seq. lia.
Qed.

Lemma waits_unchanged_inv n s s' :
  waits s' = waits s -> created s' = created s -> waits_inv n s -> waits_inv n s'.
Proof. unfold waits_inv. by intros -> ->. Qed.

Lemma onMessage_waits_inv n w msg s : waits_inv n s -> waits_inv n (onMessage w msg s).
Proof.
  intros [H1 H2]. unfold onMessage.
  destruct (waits s !! w) as [[]|] eqn:Hw; try done.
  case_bool_decide; [|done].
  apply settle_created_waits_inv.
  - intros w' Hw'. simpl. destruct (decide (w = w')) as [<-|Hne].
    + rewrite lookup_insert_eq. eauto.
    + rewrite lookup_insert_ne by done. by apply H1.
  - simpl. intros Hc. specialize (H2 Hc w Waiting Hw). done.
Qed.

Lemma onError_waits_inv n w err s : waits_inv n s -> waits_inv n (onError w err s).
Proof.
  intros [H1 H2]. unfold onError.
  destruct (waits s !! w) as [[]|] eqn:Hw; try done.
  assert (Hdom : forall w', w' < n -> is_Some (<[w := GotError err]> (waits s) !! w')).
  { intros w' Hw'. destruct (decide (w = w')) as [<-|Hne].
    - rewrite lookup_insert_eq. eauto.
    - rewrite lookup_insert_ne by done. by apply H1. }
  simpl. destruct (created s) eqn:Hc.
  - split; [done|]. done.
  - specialize (H2 eq_refl w Waiting Hw). done.
  - split; [done|]. simpl. by rewrite Hc.
Qed.

Lemma step_waits_inv n e s : waits_inv n s -> waits_inv n (step e s).
Proof.
  intros Hi. destruct e as [w msg|w err|w code|c|]; simpl.
  - apply onMessage_waits_inv. revert Hi. apply waits_unchanged_inv;
      unfold slot_on_message; case_bool_decide; try done;
      destruct (m_id msg); try done; destruct (pending_of s w !! n0); try done;
      by destruct (m_error msg).
  - apply onError_waits_inv. revert Hi. by apply waits_unchanged_inv.
  - revert Hi. apply waits_unchanged_inv; unfold slot_on_exit;
      destruct (terminated s); try done; simpl;
      by destruct (indexOf w (slots s)).
  - revert Hi. destruct (invoke_dispatch c s) as (method & args & ->).
    apply waits_unchanged_inv; unfold dispatch; cbv zeta;
      destruct (terminated s); try done; by destruct (least_pending s).
  - revert Hi. by apply waits_unchanged_inv.
Qed.

(** A wait gets its ["ready"] only from a ["ready"] message of its worker. *)
Lemma step_got_ready e s w :
  waits (step e s) !! w = Some GotReady ->
  waits s !! w = Some GotReady \/
  exists msg, e = EMessage w msg /\ m_type msg = Some "ready".
Proof.
  destruct e as [w0 msg|w0 err|w0 code|c|]; simpl.
  - assert (Hsl : waits (slot_on_message w0 msg s) = waits s).
    { unfold slot_on_message; case_bool_decide; try done;
      destruct (m_id msg); try done; destruct (pending_of s w0 !! n); try done;
      by destruct (m_error msg). }
    unfold onMessage. rewrite Hsl.
    destruct (waits s !! w0) as [[]|] eqn:Hw; rewrite ?Hsl; auto.
    case_bool_decide as Hty; rewrite ?Hsl; auto.
    match goal with |- waits (settle_created ?s0) !! _ = _ -> _ =>
      assert (Hs : waits (settle_created s0) = waits s0)
        by (unfold settle_created; destruct (created s0); [|done|done];
            by destruct (all_ready s0));
      rewrite Hs end.
    simpl. rewrite ?Hsl. destruct (decide (w0 = w)) as [->|Hne].
    + intros _. right. eauto.
    + rewrite lookup_insert_ne by done. auto.
  - unfold onError. simpl.
    destruct (waits s !! w0) as [[]|] eqn:Hw; auto.
    destruct (created s); simpl;
      (destruct (decide (w0 = w)) as [->|Hne];
       [by rewrite lookup_insert_eq|rewrite lookup_insert_ne by done; auto]).
  - unfold slot_on_exit. destruct (terminated s); auto. simpl.
    destruct (indexOf w0 (slots s)); auto.
  - destruct (invoke_dispatch c s) as (method & args & ->).
    unfold dispatch; cbv zeta. destruct (terminated s); auto.
    destruct (least_pending s); auto.
  - auto.
Qed.


Lemma step_run_waits_inv size es :
  waits_inv (Z.to_nat size) (run es (createPool size)).
Proof.
  induction es as [|e es IH] using rev_ind; [apply createPool_waits_inv|].
  rewrite run_snoc. by apply step_waits_inv.
Qed.

(** *** Traces *)

Lemma ordered_snoc a b tr x : ordered a b tr -> ordered a b (tr ++ [x]).
Proof.
  intros (l1 & l2 & l3 & ->). exists l1, l2, (l3 ++ [x]).
  by simplify_list_eq.
Qed.

Lemma ordered_last a b (tr : list action) : a ∈ tr -> ordered a b (tr ++ [b]).
Proof.
  intros (l1 & l2 & ->)%list_elem_of_split. exists l1, l2, [].
  by simplify_list_eq.
Qed.

Lemma snoc_split (pre post tr : list action) x a :
  tr ++ [a] = pre ++ x :: post ->
  (post = [] /\ pre = tr /\ x = a) \/
  exists post', post = post' ++ [a] /\ tr = pre ++ x :: post'.
Proof.
  intros Heq. destruct post as [|y post _] using rev_ind.
  - left. apply app_inj_tail in Heq as [-> ->]. done.
  - right. exists post. change (x :: post ++ [y]) with ((x :: post) ++ [y]) in Heq.
    rewrite app_assoc in Heq. apply app_inj_tail in Heq as [-> ->]. done.
Qed.

Section Exec.
Context {Store : Type} `{!Core Store}.
Context (JSON_parse : string -> res jsval).
Context {collator : JsArray.Collator}.
Context (absDir : path) (tree : node).


Lemma worker_of_insert p (ws : gmap nat (@worker Store)) inf w x w' :
  worker_of (mkSystem p (<[w := x]> ws) inf) w'
    = if decide (w = w') then x else default fresh (ws !! w').
Proof.
  unfold worker_of. simpl. destruct (decide (w = w')) as [->|Hne].
  - by rewrite lookup_insert_eq.
  - by rewrite lookup_insert_ne.
Qed.

Lemma start_inv size : sys_inv absDir tree size [] (@start Store size).
Proof.
  split.
  - apply createPool_waits_inv.
  - intros w [H|[H|H]]; done.
  - intros w [H|H]; done.
  - intros w Hin. by apply elem_of_nil in Hin.
  - intros w Hin. by apply elem_of_nil in Hin.
  - intros w m Hin. by apply elem_of_nil in Hin.
  - intros w Hw. exfalso. simpl in Hw.
    pose proof (createPool_waits_inv size) as [H1 _].
    unfold createPool in Hw. cbv zeta in Hw.
    match type of Hw with waits (settle_created ?s) !! _ = _ =>
      assert (Hs : waits (settle_created s) = waits s)
        by (unfold settle_created; destruct (created s); [|done|done];
            by destruct (all_ready s));
      rewrite Hs in Hw end.
    simpl in Hw. apply elem_of_list_to_map_2 in Hw.
    by apply list_elem_of_fmap in Hw as (x & [= _ ?] & _).
  - intros pre w req post Heq. by destruct pre.
Qed.

Lemma step_inv size tr (σ : @system Store) a σ' :
  sys_inv absDir tree size tr σ ->
  sys_step JSON_parse absDir tree σ a σ' ->
  sys_inv absDir tree size (tr ++ [a]) σ'.
Proof.
  intros [P B L R BO I W H] Hstep.
  assert (Hmono : forall w (wk : worker),
    (exists st, w_fs wk = Some st /\ construct absDir tree = Ok st /\ ABuild w ∈ tr) ->
    exists st, w_fs wk = Some st /\ construct absDir tree = Ok st /\ ABuild w ∈ tr ++ [a]).
  { intros w wk (st & ? & ? & ?). exists st. set_solver. }
  assert (Hhandle : forall pre w req post,
    (forall w' req', a = AHandle w' req' -> ordered (ABuild w') (AReady w') tr) ->
    tr ++ [a] = pre ++ AHandle w req :: post -> ordered (ABuild w) (AReady w) pre).
  { intros pre w req post Hlast Heq.
    apply snoc_split in Heq as [(_ & -> & <-)|(post' & _ & ->)]; [by eapply Hlast|].
    by eapply H. }
  assert (Hready : forall w,
    (a = AReady w -> ABuild w ∈ tr) ->
    AReady w ∈ tr ++ [a] -> ordered (ABuild w) (AReady w) (tr ++ [a])).
  { intros w Hlast [Hin|Heq%list_elem_of_singleton]%elem_of_app.
    - by apply ordered_snoc, R.
    - rewrite <- Heq. by apply ordered_last, Hlast. }
  assert (Hbuild : forall w,
    (a = ABuild w -> exists st, construct absDir tree = Ok st) ->
    ABuild w ∈ tr ++ [a] -> exists st, construct absDir tree = Ok st).
  { intros w Hlast [Hin|Heq%list_elem_of_singleton]%elem_of_app; [by eapply BO|].
    by apply Hlast. }
  destruct Hstep as
    [σ w st Hw Hph Hcon | σ w err Hw Hph Hcon | σ w Hph | σ w Hph
    | σ w st req Hph Hfs Hreq | σ w msg before after Hin
    | σ w code Hw Hph | σ c Hc | σ Hc].
  - (* build *)
    split; cbn [pool workers inflight].
    + done.
    + intros w'. unfold set_worker. rewrite worker_of_insert.
      destruct (decide (w = w')) as [<-|Hne]; [|intros Hs; by apply Hmono, B].
      intros _. exists st. simpl. set_solver.
    + intros w'. unfold set_worker. rewrite worker_of_insert.
      destruct (decide (w = w')) as [<-|Hne]; [by intros [|]|].
      intros Hs. by apply ordered_snoc, L.
    + intros w'. by apply Hready.
    + intros w'. apply Hbuild. intros [= <-]. eauto.
    + intros w' m Hm Hty. apply elem_of_app. left. by eapply I.
    + intros w' Hw'. apply elem_of_app. left. by apply W.
    + intros pre w' req post. by apply Hhandle.
  - (* build fails *)
    split; cbn [pool workers inflight].
    + by do 2 apply step_waits_inv.
    + intros w'. rewrite worker_of_insert.
      destruct (decide (w = w')) as [<-|Hne]; [by intros [|[|]]|].
      intros Hs. by apply Hmono, B.
    + intros w'. rewrite worker_of_insert.
      destruct (decide (w = w')) as [<-|Hne]; [by intros [|]|].
      intros Hs. by apply ordered_snoc, L.
    + intros w'. by apply Hready.
    + intros w'. by apply Hbuild.
    + intros w' m Hm Hty. apply elem_of_app. left. by eapply I.
    + intros w' Hw'. apply elem_of_app. left. apply W.
      apply (step_got_ready (EExit w 1)) in Hw' as [Hw'|(? & ? & _)]; [|done].
      apply (step_got_ready (EError w err)) in Hw' as [Hw'|(? & ? & _)]; done.
    + intros pre w' req post. by apply Hhandle.
  - (* ready *)
    destruct (B w) as (st & Hfs & Hok & Hb); [by left|].
    split; cbn [pool workers inflight].
    + done.
    + intros w'. rewrite worker_of_insert.
      destruct (decide (w = w')) as [<-|Hne]; [|intros Hs; by apply Hmono, B].
      intros _. exists st. simpl. set_solver.
    + intros w'. rewrite worker_of_insert.
      destruct (decide (w = w')) as [<-|Hne].
      * intros _. by apply ordered_last.
      * intros Hs. by apply ordered_snoc, L.
    + intros w'. apply Hready. by intros [= <-].
    + intros w'. by apply Hbuild.
    + intros w' m [Hm|[= -> ->]%list_elem_of_singleton]%elem_of_app Hty.
      * apply elem_of_app. left. by eapply I.
      * apply elem_of_app. right. by apply list_elem_of_singleton.
    + intros w' Hw'. apply elem_of_app. left. by apply W.
    + intros pre w' req post. by apply Hhandle.
  - (* listen *)
    destruct (B w) as (st & Hfs & Hok & Hb); [by right; left|].
    split; cbn [pool workers inflight].
    + done.
    + intros w'. unfold set_worker. rewrite worker_of_insert.
      destruct (decide (w = w')) as [<-|Hne]; [|intros Hs; by apply Hmono, B].
      intros _. exists st. simpl. set_solver.
    + intros w'. unfold set_worker. rewrite worker_of_insert.
      destruct (decide (w = w')) as [<-|Hne].
      * intros _. apply ordered_snoc, L. by left.
      * intros Hs. by apply ordered_snoc, L.
    + intros w'. by apply Hready.
    + intros w'. by apply Hbuild.
    + intros w' m Hm Hty. apply elem_of_app. left. by eapply I.
    + intros w' Hw'. apply elem_of_app. left. by apply W.
    + intros pre w' req' post. by apply Hhandle.
  - (* handle *)
    destruct (B w) as (st' & Hfs' & Hok & Hb); [by right; right|].
    assert (st' = st) as -> by congruence.
    split; cbn [pool workers inflight].
    + done.
    + intros w'. rewrite worker_of_insert.
      destruct (decide (w = w')) as [<-|Hne]; [|intros Hs; by apply Hmono, B].
      intros _. exists st. simpl. set_solver.
    + intros w'. rewrite worker_of_insert.
      destruct (decide (w = w')) as [<-|Hne].
      * intros _. apply ordered_snoc, L. by right.
      * intros Hs. by apply ordered_snoc, L.
    + intros w'. by apply Hready.
    + intros w'. by apply Hbuild.
    + intros w' m [Hm|Hm]%elem_of_app Hty.
      * apply elem_of_app. left. by eapply I.
      * exfalso. apply list_elem_of_fmap in Hm as (m' & [= -> ->] & Hm').
        destruct (on_message_single JSON_parse st req) as (m0 & Heq & Hty0 & _).
        rewrite Heq in Hm'. apply list_elem_of_singleton in Hm' as ->. congruence.
    + intros w' Hw'. apply elem_of_app. left. by apply W.
    + intros pre w' req' post. apply Hhandle. intros w0 req0 [= <- <-].
      apply L. by right.
  - (* deliver *)
    split; cbn [pool workers inflight].
    + by apply step_waits_inv.
    + intros w' Hs. by apply Hmono, B.
    + intros w' Hs. by apply ordered_snoc, L.
    + intros w'. by apply Hready.
    + intros w'. by apply Hbuild.
    + intros w' m Hm Hty. apply elem_of_app. left. apply (I w' m); [|done].
      rewrite Hin. apply elem_of_app in Hm as [Hm|Hm]; apply elem_of_app;
        [by left|right; by right].
    + intros w' Hw'. apply elem_of_app. left.
      apply (step_got_ready (EMessage w msg)) in Hw' as [Hw'|(m & [= <- <-] & Hty)].
      * by apply W.
      * apply (I w msg); [|done]. rewrite Hin. apply elem_of_app. right. by left.
    + intros pre w' req post. by apply Hhandle.
  - (* exit *)
    split; cbn [pool workers inflight].
    + by apply step_waits_inv.
    + intros w'. rewrite worker_of_insert.
      destruct (decide (w = w')) as [<-|Hne]; [by intros [|[|]]|].
      intros Hs. by apply Hmono, B.
    + intros w'. rewrite worker_of_insert.
      destruct (decide (w = w')) as [<-|Hne]; [by intros [|]|].
      intros Hs. by apply ordered_snoc, L.
    + intros w'. by apply Hready.
    + intros w'. by apply Hbuild.
    + intros w' m Hm Hty. apply elem_of_app. left. by eapply I.
    + intros w' Hw'. apply elem_of_app. left. apply W.
      apply (step_got_ready (EExit w code)) in Hw' as [Hw'|(? & ? & _)]; done.
    + intros pre w' req post. by apply Hhandle.
  - (* call *)
    split; cbn [pool workers inflight].
    + by apply (step_waits_inv _ (ECall c)).
    + intros w' Hs. by apply Hmono, B.
    + intros w' Hs. by apply ordered_snoc, L.
    + intros w'. by apply Hready.
    + intros w'. by apply Hbuild.
    + intros w' m Hm Hty. apply elem_of_app. left. by eapply I.
    + intros w' Hw'. apply elem_of_app. left. apply W.
      apply (step_got_ready (ECall c)) in Hw' as [Hw'|(? & ? & _)]; done.
    + intros pre w' req post. by apply Hhandle.
  - (* terminate *)
    split; cbn [pool workers inflight].
    + by apply (step_waits_inv _ ETerminate).
    + intros w' Hs. by apply Hmono, B.
    + intros w' Hs. by apply ordered_snoc, L.
    + intros w'. by apply Hready.
    + intros w'. by apply Hbuild.
    + intros w' m Hm Hty. apply elem_of_app. left. by eapply I.
    + intros w' Hw'. apply elem_of_app. left. by apply W.
    + intros pre w' req post. by apply Hhandle.
Qed.

Lemma exec_inv size tr (σ : @system Store) :
  exec JSON_parse absDir tree size tr σ -> sys_inv absDir tree size tr σ.
Proof.
  induction 1 as [|tr σ a σ' _ IH Hstep]; [apply start_inv|].
  by eapply step_inv.
Qed.
End Exec.


Section Ready.
Context {Store : Type} `{!Core Store}.
Context (JSON_parse : string -> res jsval).
Context {collator : JsArray.Collator}.
Context (absDir : path) (tree : node).

(** C5 (as amended). In every execution of a pool with its workers: when
    the promise of [createPool] is resolved, each worker [createPool]
    spawned itself has constructed its store and, after that, posted
    "ready" (a worker spawned later, in the place of one that exited, is not
    waited for); every worker that posts "ready", a replacement too, has
    constructed its store before; whenever a worker handles a request it
    has, before, constructed its store and then posted "ready"; and the
    handler runs on the store the constructor returned, so no request is
    answered from a store that is not completely built. *)
Theorem createPool_resolves_after_ready
    (size : Z) (tr : list action) (σ : @system Store) :
  exec JSON_parse absDir tree size tr σ ->
  (created (pool σ) = Created ->
     forall w, w < Z.to_nat size ->
       exists st, construct absDir tree = Ok st /\
                  ordered (ABuild w) (AReady w) tr) /\
  (forall w, AReady w ∈ tr ->
     exists st, construct absDir tree = Ok st /\
                ordered (ABuild w) (AReady w) tr) /\
  (forall pre w req post,
     tr = pre ++ AHandle w req :: post ->
     exists st, construct absDir tree = Ok st /\
                ordered (ABuild w) (AReady w) pre) /\
  (forall w req σ',
     sys_step JSON_parse absDir tree σ (AHandle w req) σ' ->
     exists st, construct absDir tree = Ok st /\
                w_fs (worker_of σ w) = Some st /\
                inflight σ' = inflight σ ++
                  map (pair w) (Worker.on_message JSON_parse st req)).
Proof.
  intros Hexec. pose proof (exec_inv _ _ _ _ _ _ Hexec) as [P B L R BO I W H].
  assert (Hord : forall w pre, ordered (ABuild w) (AReady w) pre ->
            ABuild w ∈ pre).
  { intros w pre (l1 & l2 & l3 & ->). apply elem_of_app. right. by left. }
  assert (Hready : forall w, AReady w ∈ tr ->
            exists st, construct absDir tree = Ok st /\
                       ordered (ABuild w) (AReady w) tr).
  { intros w Hin. pose proof (R w Hin) as Ho.
    destruct (BO w (Hord _ _ Ho)) as [st Hst]. eauto. }
  split; [|split; [done|split]].
  - intros Hc w Hw. destruct P as [P1 P2].
    destruct (P1 w Hw) as [x Hx]. pose proof (P2 Hc w x Hx) as Hr.
    destruct x; try done. apply Hready. by apply W.
  - intros pre w req post Heq. pose proof (H pre w req post Heq) as Ho.
    assert (Hin : ABuild w ∈ tr).
    { rewrite Heq. apply elem_of_app. left. by apply Hord. }
    destruct (BO w Hin) as [st Hst]. eauto.
  - intros w req σ' Hstep. inversion Hstep as [| | | |? ? st ? Hph Hfs Hreq| | | |]; subst.
    destruct (B w) as (st' & Hfs' & Hok & _); [by right; right|].
    exists st. split; [congruence|]. split; [done|]. done.
Qed.
End Ready.


(** A run of a pool of one worker over a directory with one document: the
    worker constructs its store, posts "ready" and listens; the pool
    receives "ready", which resolves [createPool]; a [read] is dispatched
    and handled. *)
Lemma createPool_resolves_after_ready_witness :
  let tree := Dir [("top.md", File "Top level doc")] in
  let req := Build_Request 0 "read" [JStr "top.md"] in
  let tr := [ABuild 0; AReady 0; AListen 0; ADeliver 0 ready_message;
             ACall (Read (JStr "top.md") JUndefined JUndefined); AHandle 0 req] in
  exists σ : @system Loader.docs,
    (created (pool σ) = Created ->
       forall w, w < Z.to_nat 1 ->
         exists st, @construct _ Sample.sample_core JsArray.root_collator
                      ["fixtures"] tree = Ok st /\
                    ordered (ABuild w) (AReady w) tr) /\
    (forall w, AReady w ∈ tr ->
       exists st, @construct _ Sample.sample_core JsArray.root_collator
                    ["fixtures"] tree = Ok st /\
                  ordered (ABuild w) (AReady w) tr) /\
    (forall pre w req post,
       tr = pre ++ AHandle w req :: post ->
       exists st, @construct _ Sample.sample_core JsArray.root_collator
                    ["fixtures"] tree = Ok st /\
                  ordered (ABuild w) (AReady w) pre) /\
    (forall w req σ',
       @sys_step _ Sample.sample_core Sample.sample_parse JsArray.root_collator
         ["fixtures"] tree σ (AHandle w req) σ' ->
       exists st, @construct _ Sample.sample_core JsArray.root_collator
                    ["fixtures"] tree = Ok st /\
                  w_fs (worker_of σ w) = Some st /\
                  inflight σ' = inflight σ ++
                    map (pair w)
                        (@Worker.on_message _ Sample.sample_core Sample.sample_parse st req)).
Proof.
  intros tree req tr. eexists.
  apply (@createPool_resolves_after_ready _ Sample.sample_core Sample.sample_parse
           JsArray.root_collator ["fixtures"] tree 1 tr).
  refine (exec_step _ _ _ _ [ABuild 0; AReady 0; AListen 0; ADeliver 0 ready_message;
             ACall (Read (JStr "top.md") JUndefined JUndefined)] _ (AHandle 0 req) _ _ _).
  - refine (exec_step _ _ _ _ [ABuild 0; AReady 0; AListen 0; ADeliver 0 ready_message]
              _ (ACall (Read (JStr "top.md") JUndefined JUndefined)) _ _ _).
    + refine (exec_step _ _ _ _ [ABuild 0; AReady 0; AListen 0] _
                (ADeliver 0 ready_message) _ _ _).
      * refine (exec_step _ _ _ _ [ABuild 0; AReady 0] _ (AListen 0) _ _ _).
        -- refine (exec_step _ _ _ _ [ABuild 0] _ (AReady 0) _ _ _).
           ++ refine (exec_step _ _ _ _ [] _ (ABuild 0) _ _ _).
              ** apply exec_start.
              ** apply (step_build _ _ _ _ 0 [("top.md", "Top level doc")]);
                   reflexivity || (vm_compute; lia).
           ++ apply step_ready. reflexivity.
        -- apply step_listen. reflexivity.
      * apply (step_deliver _ _ _ _ 0 ready_message [] []). reflexivity.
    + apply step_call. reflexivity.
  - apply (step_handle _ _ _ _ 0 [("top.md", "Top level doc")]); reflexivity.
Defined.

(** The promise of [createPool] can be resolved while a worker of the pool
    has not constructed its store. A pool of two workers: worker 0 posts
    "ready" and exits, so that worker 2 is spawned into its slot; worker 1
    posts "ready". Both waits of [createPool] have got their "ready", its
    promise is resolved, and worker 2, which sits in the first slot, is
    still loading: it has constructed nothing and posted nothing. *)
Lemma createPool_resolved_before_replacement :
  let tree := Dir [("top.md", File "Top level doc")] in
  let tr := [ABuild 0; AReady 0; ADeliver 0 ready_message; AExit 0 1;
             ABuild 1; AReady 1; ADeliver 1 ready_message] in
  exists σ : @system Loader.docs,
    @exec _ Sample.sample_core Sample.sample_parse JsArray.root_collator
      ["fixtures"] tree 2 tr σ /\
    created (pool σ) = Created /\
    slots (pool σ) = [2; 1] /\
    w_phase (worker_of σ 2) = Loading /\
    w_fs (worker_of σ 2) = None /\
    ~ ordered (ABuild 2) (AReady 2) tr.
Proof.
  intros tree tr. eexists. split.
  - refine (exec_step _ _ _ _ [ABuild 0; AReady 0; ADeliver 0 ready_message; AExit 0 1;
               ABuild 1; AReady 1] _ (ADeliver 1 ready_message) _ _ _).
    + refine (exec_step _ _ _ _ [ABuild 0; AReady 0; ADeliver 0 ready_message; AExit 0 1;
                 ABuild 1] _ (AReady 1) _ _ _).
      * refine (exec_step _ _ _ _ [ABuild 0; AReady 0; ADeliver 0 ready_message;
                   AExit 0 1] _ (ABuild 1) _ _ _).
        -- refine (exec_step _ _ _ _ [ABuild 0; AReady 0; ADeliver 0 ready_message]
                     _ (AExit 0 1) _ _ _).
           ++ refine (exec_step _ _ _ _ [ABuild 0; AReady 0] _
                        (ADeliver 0 ready_message) _ _ _).
              ** refine (exec_step _ _ _ _ [ABuild 0] _ (AReady 0) _ _ _).
                 --- refine (exec_step _ _ _ _ [] _ (ABuild 0) _ _ _).
                     +++ apply exec_start.
                     +++ apply (step_build _ _ _ _ 0 [("top.md", "Top level doc")]);
                           reflexivity || (vm_compute; lia).
                 --- apply step_ready. reflexivity.
              ** apply (step_deliver _ _ _ _ 0 ready_message [] []). reflexivity.
           ++ apply step_exit; [vm_compute; lia|discriminate].
        -- apply (step_build _ _ _ _ 1 [("top.md", "Top level doc")]);
             reflexivity || (vm_compute; lia).
      * apply step_ready. reflexivity.
    + apply (step_deliver _ _ _ _ 1 ready_message [] []). reflexivity.
  - split; [reflexivity|]. split; [reflexivity|]. split; [reflexivity|].
    split; [reflexivity|].
    intros (l1 & l2 & l3 & Heq).
    assert (Hin : ABuild 2 ∈ tr).
    { rewrite Heq. apply elem_of_app. right. by left. }
    unfold tr in Hin.
    repeat (apply elem_of_cons in Hin as [Hin|Hin]; [discriminate|]).
    by apply elem_of_nil in Hin.
Qed.


(** In that run the promise of [createPool] is resolved by the "ready" of
    its only worker, and not before. *)
Lemma createPool_resolved_example :
  created (createPool 1) = Creating /\
  created (step (EMessage 0 ready_message) (createPool 1)) = Created /\
  created (createPool 0) = Created.
Proof. repeat split; vm_compute; reflexivity. Qed.

End SystemSpec.

(** ** More on the pool *)

Module PoolMore.
Import Worker Pool PoolSpec PoolInv.

(** *** Promises that are still pending *)


Lemma settle_pending_inv h' o ps h :
  o <> Pending -> settle h' o ps !! h = Some Pending ->
  ps !! h = Some Pending /\ h' <> h.
Proof.
  intros Ho Hp. destruct (decide (h' = h)) as [->|Hd].
  - exfalso. unfold settle in Hp. destruct (ps !! h) as [[]|] eqn:Hh;
      try congruence.
    rewrite list_lookup_insert_eq in Hp by (by eapply lookup_lt_Some). congruence.
  - by rewrite settle_lookup_ne in Hp.
Qed.

Lemma reject_list_pending_inv err hs ps h :
  reject_list err hs ps !! h = Some Pending ->
  ps !! h = Some Pending /\ h ∉ hs.
Proof.
  induction hs as [|y hs IH]; simpl; [intros ?; split; [done|apply not_elem_of_nil]|].
  intros Hp. apply settle_pending_inv in Hp as [Hp Hne]; [|done].
  destruct (IH Hp) as [Hps Hn]. split; [done|].
  apply not_elem_of_cons. split; [congruence|done].
Qed.


(** *** The error of a worker *)

(** X1. When a worker of a pool emits an error, every promise pending on
    it is rejected with that very error and its [pending] Map is emptied,
    whether or not the pool is terminated; the slots stay as they are and no
    worker is spawned (only an exit replaces a worker); the requests pending
    on the other workers are untouched. *)
Theorem error_rejects_pending
    (size : Z) (es : list event) (w : nat) (err : thrown) :
  let s := run es (createPool size) in
  let s' := step (EError w err) s in
  (forall id h, pending_of s w !! id = Some h ->
     promises s' !! h = Some (Rejected err)) /\
  pending_of s' w = ∅ /\
  slots s' = slots s /\
  spawned s' = spawned s /\
  posted s' = posted s /\
  (forall w', w' <> w ->
     pending_of s' w' = pending_of s w' /\
     forall id h, pending_of s w' !! id = Some h -> promises s' !! h = Some Pending).
Proof.
  intros s s'.
  pose proof (reachable_consistent size es) as Hc. fold s in Hc.
  destruct Hc as [I1 I2 I3 I4 I5].
  destruct (onError_fields w err (slot_on_error w err s))
    as (Hpe & Hpr & Hsl & Hsp & _ & Hpo & _).
  change (onError w err (slot_on_error w err s)) with s' in *.
  assert (Hpend : forall w', pending_of s' w' = if decide (w = w') then ∅ else pending_of s w').
  { intros w'. rewrite (pending_of_same _ _ w' Hpe). unfold slot_on_error.
    by rewrite pending_of_set_pending. }
  assert (Hprom : promises s' = reject_all err (pending_of s w) (promises s)).
  { by rewrite Hpr. }
  split; [|split; [|split; [|split; [|split]]]]; try done.
  - intros id h Hh. rewrite Hprom. eapply reject_all_hit; [exact Hh|]. by eapply I1.
  - rewrite Hpend. by rewrite decide_True.
  - intros w' Hne. split; [rewrite Hpend; by rewrite decide_False|].
    intros id h Hh. rewrite Hprom. rewrite reject_all_other; [by eapply I1|].
    intros id' Hid'. destruct (I2 _ _ _ _ _ Hh Hid'). done.
Qed.

(** *** Request ids and registrations *)

Lemma tracked_same s s' :
  pendings s' = pendings s -> promises s' = promises s ->
  posted s' = posted s -> nextId s' = nextId s ->
  tracked s -> tracked s'.
Proof.
  intros Hp Hq Hs Hn [T1 T2 T3 T4]. split.
  - intros w req. rewrite Hs, Hn. apply T1.
  - by rewrite Hs.
  - intros w id h. rewrite (pending_of_same s s') by done. rewrite Hs. apply T3.
  - intros h. rewrite Hq. intros Hh. destruct (T4 h Hh) as (w & id & Hw).
    exists w, id. by rewrite (pending_of_same s s').
Qed.

Lemma spawnWorker_tracked s :
  consistent s -> tracked s -> tracked (spawnWorker s).2.
Proof.
  intros [_ _ _ _ I5] [T1 T2 T3 T4]. unfold spawnWorker. cbn [snd].
  assert (Hp : forall w, pending_of (set_pending (spawned s) ∅ (set_spawned (S (spawned s)) s)) w
                         = pending_of s w).
  { intros w. rewrite pending_of_set_pending. destruct (decide (spawned s = w)) as [<-|]; [|done].
    symmetry. by apply I5. }
  split; try done.
  - intros w id h. rewrite Hp. apply T3.
  - intros h Hh. destruct (T4 h Hh) as (w & id & Hw). exists w, id. by rewrite Hp.
Qed.

Lemma reject_clear_tracked w err s :
  consistent s -> tracked s ->
  tracked (set_pending w ∅ (set_promises (reject_all err (pending_of s w) (promises s)) s)).
Proof.
  intros [I1 I2 I3 I4 I5] [T1 T2 T3 T4]. split; try done.
  - intros w' id h. rewrite pending_of_set_pending.
    destruct (decide (w = w')) as [<-|Hne]; [by rewrite lookup_empty|]. apply T3.
  - intros h Hh. simpl in Hh. apply reject_list_pending_inv in Hh as [Hh Hn].
    destruct (T4 h Hh) as (w' & id & Hw'). exists w', id.
    rewrite pending_of_set_pending. destruct (decide (w = w')) as [<-|Hne]; [|done].
    exfalso. apply Hn. apply elem_of_values. eauto.
Qed.

Lemma step_tracked e s : consistent s -> tracked s -> tracked (step e s).
Proof.
  intros Hc Ht. destruct e as [w msg|w err|w code|c|]; simpl.
  - destruct (onMessage_fields w msg (slot_on_message w msg s))
      as (H1 & H2 & _ & _ & _ & H3 & H4).
    apply (tracked_same (slot_on_message w msg s)); try done.
    unfold slot_on_message. case_bool_decide; [done|].
    destruct (m_id msg) as [id|]; [|done].
    destruct (pending_of s w !! id) as [p|] eqn:Hp; [|done].
    destruct Hc as [I1 I2 I3 I4 I5]. destruct Ht as [T1 T2 T3 T4].
    assert (forall o, o <> Pending ->
      tracked (set_promises
                 (settle p o (promises (set_pending w (delete id (pending_of s w)) s)))
                 (set_pending w (delete id (pending_of s w)) s))) as Hall.
    { intros o Ho. split; try done.
      - intros w' id' h.
        change (pending_of (set_promises ?ps ?s0) w') with (pending_of s0 w').
        rewrite pending_of_set_pending. destruct (decide (w = w')) as [<-|Hne]; [|apply T3].
        rewrite lookup_delete_Some. intros [_ Hh]. by eapply T3.
      - intros h Hh. simpl in Hh. apply settle_pending_inv in Hh as [Hh Hne]; [|done].
        destruct (T4 h Hh) as (w' & id' & Hw'). exists w', id'.
        change (pending_of (set_promises ?ps ?s0) w') with (pending_of s0 w').
        rewrite pending_of_set_pending. destruct (decide (w = w')) as [<-|Hnw]; [|done].
        rewrite lookup_delete_Some. split; [|done]. intros <-. congruence. }
    destruct (m_error msg); by apply Hall.
  - destruct (onError_fields w err (slot_on_error w err s))
      as (H1 & H2 & _ & _ & _ & H3 & H4).
    apply (tracked_same (slot_on_error w err s)); try done.
    by apply reject_clear_tracked.
  - unfold slot_on_exit. destruct (terminated s); [done|].
    pose proof (reject_clear_consistent w (exit_error code) s Hc) as Hc1.
    pose proof (reject_clear_tracked w (exit_error code) s Hc Ht) as Ht1.
    set (s1 := set_pending w ∅ _) in *.
    destruct (indexOf w (slots s1)) as [idx|]; [|done].
    pose proof (spawnWorker_tracked s1 Hc1 Ht1) as Ht2.
    destruct (spawnWorker s1) as [w' s2]. cbn [snd] in Ht2.
    by apply (tracked_same s2).
  - destruct (invoke_dispatch c s) as (method & args & ->).
    destruct Hc as [I1 I2 I3 I4 I5]. destruct Ht as [T1 T2 T3 T4].
    assert (Hpush : forall o s0, o <> Pending ->
      pendings s0 = pendings s -> promises s0 = promises s -> posted s0 = posted s ->
      nextId s <= nextId s0 ->
      tracked (set_promises (promises s0 ++ [o]) s0)).
    { intros o s0 Ho Hp Hq Hs Hn. split; simpl.
      - intros w req. rewrite Hs. intros Hin. apply T1 in Hin. lia.
      - by rewrite Hs.
      - intros w id h. change (pending_of (set_promises ?ps ?s1) w) with (pending_of s0 w).
        rewrite (pending_of_same s s0) by done. rewrite Hs. apply T3.
      - intros h Hh. rewrite Hq in Hh.
        apply lookup_app_Some in Hh as [Hh|[_ Hh]].
        + destruct (T4 h Hh) as (w & id & Hw). exists w, id.
          change (pending_of (set_promises ?ps ?s1) w) with (pending_of s0 w).
          by rewrite (pending_of_same s s0).
        + apply list_lookup_singleton_Some in Hh as [_ ->]. done. }
    unfold dispatch. cbv zeta.
    destruct (terminated s); cbn [snd]; [by apply Hpush|].
    destruct (least_pending s) as [w|] eqn:Hbest; cbn [snd];
      [|apply Hpush; simpl; try done; lia].
    set (h := length (promises s)).
    apply (tracked_same
             (set_posted (posted s ++ [(w, Build_Request (nextId s) method args)])
                (set_pending w (<[nextId s := h]> (pending_of s w))
                   (set_promises (promises s ++ [Pending])
                      (set_nextId (S (nextId s)) s))))); try done.
    assert (Hlk : forall w',
      pending_of (set_posted (posted s ++ [(w, Build_Request (nextId s) method args)])
                (set_pending w (<[nextId s := h]> (pending_of s w))
                   (set_promises (promises s ++ [Pending])
                      (set_nextId (S (nextId s)) s)))) w'
      = if decide (w = w') then <[nextId s := h]> (pending_of s w) else pending_of s w').
    { intros w'. change (pending_of (set_posted ?p ?s0) w') with (pending_of s0 w').
      by rewrite pending_of_set_pending. }
    split.
    { intros w' req. simpl. intros [Hin|Hin%list_elem_of_singleton]%elem_of_app.
      + apply T1 in Hin. lia.
      + injection Hin as -> ->. simpl. lia.
      }
    { simpl. rewrite map_app. simpl. apply NoDup_app. split; [done|].
      split; [|apply NoDup_singleton].
      intros id Hid ->%list_elem_of_singleton.
      apply list_elem_of_fmap in Hid as ([w' req] & Heq & Hin). simpl in Heq.
      apply T1 in Hin. lia.
      }
    { intros w' id h'. rewrite Hlk. simpl. destruct (decide (w = w')) as [<-|Hne].
      + rewrite lookup_insert. case_decide as Hid.
        * intros _. subst id. eexists. split; [apply elem_of_app; right; by left|done].
        * intros Hh. destruct (T3 _ _ _ Hh) as (req & Hreq & Hrid).
          exists req. split; [apply elem_of_app; by left|done].
      + intros Hh. destruct (T3 _ _ _ Hh) as (req & Hreq & Hrid).
        exists req. split; [apply elem_of_app; by left|done].
      }
    { intros h' Hh. simpl in Hh. apply lookup_app_Some in Hh as [Hh|[Hlen Hh]].
      + destruct (T4 h' Hh) as (w' & id & Hw'). exists w', id. rewrite Hlk.
        destruct (decide (w = w')) as [<-|Hne]; [|done].
        rewrite lookup_insert_ne; [done|]. intros <-.
        destruct (T3 _ _ _ Hw') as (req & Hreq & Hrid). apply T1 in Hreq. lia.
      + exists w, (nextId s). rewrite Hlk, decide_True by done.
        rewrite lookup_insert_eq. f_equal.
        apply list_lookup_singleton_Some in Hh as [Hz _]. unfold h. lia. }
  - by apply (tracked_same s).
Qed.

Lemma createPool_fields size :
  let s := createPool size in
  promises s = [] /\ posted s = [] /\ nextId s = 0 /\ terminated s = false.
Proof.
  unfold createPool. cbv zeta.
  match goal with |- context [settle_created ?s0] =>
    destruct (settle_created_fields s0) as (_ & -> & _ & _ & -> & -> & ->) end.
  simpl. generalize (Z.to_nat size) as n. intros n.
  enough (H : forall s0, promises (spawn_loop n s0) = promises s0 /\
                         posted (spawn_loop n s0) = posted s0 /\
                         nextId (spawn_loop n s0) = nextId s0 /\
                         terminated (spawn_loop n s0) = terminated s0) by apply H.
  induction n as [|n IH]; intros s0; simpl; [done|].
  destruct (IH (set_slots (slots s0 ++ [spawned s0])
                  (set_pending (spawned s0) ∅ (set_spawned (S (spawned s0)) s0))))
    as (-> & -> & -> & ->). done.
Qed.

Lemma createPool_tracked size : tracked (createPool size).
Proof.
  destruct (createPool_fields size) as (Hp & Hs & Hn & _).
  pose proof (createPool_consistent size) as [I1 _ _ _ _].
  split.
  - intros w req. rewrite Hs. intros Hin. by apply elem_of_nil in Hin.
  - rewrite Hs. constructor.
  - intros w id h Hh. apply I1 in Hh. by rewrite Hp in Hh.
  - intros h. by rewrite Hp.
Qed.

Lemma reachable_tracked size es : tracked (run es (createPool size)).
Proof.
  induction es as [|e es IH] using rev_ind; [apply createPool_tracked|].
  rewrite run_snoc. apply step_tracked; [apply reachable_consistent|done].
Qed.

(** X2. In every state of a pool, the requests posted so far carry
    pairwise distinct ids, all below [nextId]; and every entry of a
    worker's [pending] Map belongs to a request that was posted to that
    very worker under that id. *)
Theorem request_ids_unique (size : Z) (es : list event) :
  let s := run es (createPool size) in
  NoDup (map (fun p : nat * Request => req_id p.2) (posted s)) /\
  (forall w req, (w, req) ∈ posted s -> req_id req < nextId s) /\
  (forall w id h, pending_of s w !! id = Some h ->
     exists req, (w, req) ∈ posted s /\ req_id req = id).
Proof.
  intros s. destruct (reachable_tracked size es) as [T1 T2 T3 _]. done.
Qed.

(** X3. In every state of a pool, a promise [dispatch] has returned is
    unsettled exactly when it is registered in the [pending] Map of some
    worker, and then in one place only: no promise is left pending without
    a worker answerable for it, and none is registered once settled. *)
Theorem pending_iff_registered (size : Z) (es : list event) (h : nat) :
  let s := run es (createPool size) in
  (promises s !! h = Some Pending <-> exists w id, pending_of s w !! id = Some h) /\
  (forall w w' id id',
     pending_of s w !! id = Some h -> pending_of s w' !! id' = Some h ->
     w = w' /\ id = id').
Proof.
  intros s. destruct (reachable_tracked size es) as [_ _ _ T4].
  destruct (reachable_consistent size es) as [I1 I2 _ _ _].
  split; [split|].
  - apply T4.
  - intros (w & id & Hw). by eapply I1.
  - intros w w' id id'. apply I2.
Qed.


(** *** Messages *)

Lemma settle_created_waits s : waits (settle_created s) = waits s.
Proof.
  unfold settle_created. destruct (created s); [|done|done]. by destruct (all_ready s).
Qed.

Lemma slot_on_message_again w msg s :
  slot_on_message w msg (slot_on_message w msg s) = slot_on_message w msg s.
Proof.
  unfold slot_on_message at 2 3. case_bool_decide as Hty.
  - unfold slot_on_message. by rewrite bool_decide_eq_true_2.
  - destruct (m_id msg) as [id|] eqn:Hid.
    2:{ unfold slot_on_message. by rewrite bool_decide_eq_false_2, Hid. }
    destruct (pending_of s w !! id) as [p|] eqn:Hp.
    2:{ unfold slot_on_message. by rewrite bool_decide_eq_false_2, Hid, Hp. }
    assert (Hgone : forall ps,
      pending_of (set_promises ps (set_pending w (delete id (pending_of s w)) s)) w !! id
      = None).
    { intros ps. change (pending_of (set_promises ?q ?s0) w) with (pending_of s0 w).
      rewrite pending_of_set_pending, decide_True by done. apply lookup_delete_eq. }
    destruct (m_error msg); unfold slot_on_message;
      by rewrite bool_decide_eq_false_2, Hid, Hgone.
Qed.

Lemma onMessage_not_ready w msg s :
  m_type msg <> Some "ready" -> onMessage w msg s = s.
Proof.
  intros Hty. unfold onMessage. destruct (waits s !! w) as [[]|]; try done.
  by rewrite bool_decide_eq_false_2.
Qed.

Lemma slot_on_message_ready w msg s :
  m_type msg = Some "ready" -> slot_on_message w msg s = s.
Proof. intros Hty. unfold slot_on_message. by rewrite bool_decide_eq_true_2. Qed.

(** X4. Receiving the same message of a worker a second time changes
    nothing: a response is looked up under its id, which the first
    delivery removed from the [pending] Map, and a second "ready" finds the
    listeners of [createPool] gone. So a promise is settled by the first
    response for its id, and a duplicate or stale response is ignored. *)
Theorem message_twice_is_once (w : nat) (msg : Message) (s : State) :
  step (EMessage w msg) (step (EMessage w msg) s) = step (EMessage w msg) s.
Proof.
  simpl. destruct (decide (m_type msg = Some "ready")) as [Hty|Hty].
  - rewrite !slot_on_message_ready by done.
    destruct (waits s !! w) as [[]|] eqn:Hw;
      try (unfold onMessage; by rewrite !Hw).
    assert (Hone : onMessage w msg s
                   = settle_created (set_waits (<[w:=GotReady]> (waits s)) s)).
    { unfold onMessage. by rewrite Hw, bool_decide_eq_true_2. }
    rewrite Hone. unfold onMessage at 1. rewrite settle_created_waits. simpl.
    by rewrite lookup_insert_eq.
  - rewrite !onMessage_not_ready by done. apply slot_on_message_again.
Qed.

(** *** The choice of a slot *)

Lemma foldl_first_min (s : State) (pre mid rest : list nat) (best : nat) :
  Forall (fun x => size (pending_of s best) < size (pending_of s x)) pre ->
  Forall (fun x => size (pending_of s best) <= size (pending_of s x)) mid ->
  exists pre' post',
    pre ++ best :: mid ++ rest
      = pre' ++ foldl (fun best w =>
                         if (size (pending_of s w) <? size (pending_of s best))%nat
                         then w else best) best rest :: post' /\
    Forall (fun x =>
              size (pending_of s (foldl (fun best w =>
                         if (size (pending_of s w) <? size (pending_of s best))%nat
                         then w else best) best rest))
              < size (pending_of s x)) pre'.
Proof.
  revert pre mid best. induction rest as [|x rest IH]; intros pre mid best Hpre Hmid.
  - exists pre, mid. simpl. by rewrite app_nil_r.
  - simpl. destruct (Nat.ltb_spec (size (pending_of s x)) (size (pending_of s best)))
      as [Hlt|Hge].
    + destruct (IH (pre ++ best :: mid) [] x) as (pre' & post' & Heq & Hall).
      * apply Forall_app. split; [|apply Forall_cons; split].
        -- eapply Forall_impl; [exact Hpre|]. simpl. intros. lia.
        -- done.
        -- eapply Forall_impl; [exact Hmid|]. simpl. intros. lia.
      * constructor.
      * exists pre', post'. split; [|done]. rewrite <- Heq. by simplify_list_eq.
    + destruct (IH pre (mid ++ [x]) best) as (pre' & post' & Heq & Hall).
      * done.
      * apply Forall_app. split; [done|]. by apply Forall_singleton.
      * exists pre', post'. split; [|done]. rewrite <- Heq. by simplify_list_eq.
Qed.

(** X5. Among the slots with the fewest pending requests [dispatch]
    takes the first: every slot before the one it chooses has strictly
    more requests pending. *)
Theorem dispatch_takes_first_least (c : operation) (s : State) (w : nat) (req : Request) :
  terminated s = false ->
  posted (invoke c s).2 = posted s ++ [(w, req)] ->
  exists i,
    slots s !! i = Some w /\
    forall j w', j < i -> slots s !! j = Some w' ->
      size (pending_of s w) < size (pending_of s w').
Proof.
  intros Ht Hposted.
  destruct (invoke_dispatch c s) as (method & args & Heq). rewrite Heq in Hposted.
  destruct (least_pending s) as [b|] eqn:Hbest.
  2:{ exfalso. unfold dispatch in Hposted. cbv zeta in Hposted.
      rewrite Ht, Hbest in Hposted. simpl in Hposted.
      apply (f_equal length) in Hposted. rewrite length_app in Hposted.
      simpl in Hposted. lia. }
  destruct (dispatch_posts method args s b Ht Hbest) as (_ & Hp & _).
  rewrite Hp in Hposted. apply app_inv_head in Hposted. injection Hposted as -> _.
  unfold least_pending in Hbest. destruct (slots s) as [|first rest] eqn:Hs; [done|].
  injection Hbest as Hbest.
  destruct (foldl_first_min s [] [] rest first) as (pre' & post' & Hsplit & Hall);
    [constructor|constructor|].
  rewrite Hbest in Hsplit, Hall. simpl in Hsplit. rewrite Hsplit.
  exists (length pre'). split.
  - by rewrite lookup_app_r, Nat.sub_diag.
  - intros j w' Hj Hw'. rewrite lookup_app_l in Hw' by done.
    rewrite Forall_forall in Hall. apply Hall. by eapply list_elem_of_lookup_2.
Qed.

Lemma dispatch_takes_first_least_witness :
  let s := run [EMessage 0 ready_message; EMessage 1 ready_message;
                EMessage 2 ready_message;
                ECall (Ls (JStr "")); ECall DocumentCount] (createPool 3) in
  exists i,
    slots s !! i = Some 2 /\
    forall j w', j < i -> slots s !! j = Some w' ->
      size (pending_of s 2) < size (pending_of s w').
Proof.
  intros s.
  apply (dispatch_takes_first_least ToolDefinitions s 2
           (Build_Request 2 "toolDefinitions" [])).
  - reflexivity.
  - vm_compute. reflexivity.
Defined.


(** *** Creation *)

Lemma spawn_loop_shape n s :
  slots (spawn_loop n s) = slots s ++ seq (spawned s) n /\
  spawned (spawn_loop n s) = spawned s + n /\
  created (spawn_loop n s) = created s /\
  terminate_calls (spawn_loop n s) = terminate_calls s /\
  forall w, pending_of (spawn_loop n s) w
            = if decide (spawned s <= w < spawned s + n) then ∅ else pending_of s w.
Proof.
  revert s. induction n as [|n IH]; intros s.
  - simpl. rewrite app_nil_r, Nat.add_0_r. repeat split; try done.
    intros w. rewrite decide_False; [done|lia].
  - simpl. destruct (IH (set_slots (slots s ++ [spawned s])
                           (set_pending (spawned s) ∅ (set_spawned (S (spawned s)) s))))
      as (-> & -> & -> & -> & Hp).
    simpl. rewrite <- app_assoc. simpl.
    split; [done|]. split; [lia|]. split; [done|]. split; [done|].
    intros w. rewrite Hp. simpl.
    change (pending_of (set_slots ?l ?s0) w) with (pending_of s0 w).
    rewrite pending_of_set_pending.
    change (pending_of (set_spawned ?l ?s0) w) with (pending_of s0 w).
    repeat case_decide; try done; lia.
Qed.

(** X6. [createPool] spawns one worker for each [i = 0, 1, ...] below
    [size], in that order, each with an empty [pending] Map, and nothing
    else: no request is posted and no promise exists yet. Its own promise is
    already resolved when it returns to the event loop exactly when there is
    no worker to wait for, which is the case for [workers: 0] and for any
    negative number. *)
Theorem createPool_spawns (size : Z) :
  let s := createPool size in
  slots s = seq 0 (Z.to_nat size) /\
  spawned s = Z.to_nat size /\
  (forall w, pending_of s w = ∅) /\
  promises s = [] /\ posted s = [] /\ nextId s = 0 /\ terminated s = false /\
  (created s = Created <-> (size <= 0)%Z) /\
  (created s = Creating <-> (0 < size)%Z).
Proof.
  intros s. destruct (createPool_fields size) as (Hp & Hs & Hn & Ht).
  fold s in Hp, Hs, Hn, Ht.
  destruct (spawn_loop_shape (Z.to_nat size) initial) as (Hsl & Hsp & Hcr & _ & Hpe).
  simpl in Hsl, Hsp, Hcr, Hpe.
  set (s0 := set_waits (list_to_map (map (fun w => (w, Waiting))
                                          (slots (spawn_loop (Z.to_nat size) initial))))
                       (spawn_loop (Z.to_nat size) initial)).
  assert (Hs0 : s = settle_created s0) by done.
  destruct (settle_created_fields s0) as (Hf1 & _ & Hf3 & Hf4 & _).
  rewrite <- Hs0 in Hf1, Hf3, Hf4.
  assert (Hall : all_ready s0 = bool_decide (Z.to_nat size = 0)).
  { unfold all_ready, s0. simpl. rewrite Hsl.
    destruct (Z.to_nat size) as [|n] eqn:Hsz; simpl.
    - rewrite bool_decide_eq_true_2; [done|]. apply map_Forall_empty.
    - rewrite bool_decide_eq_false_2; [done|]. intros Hfa.
      specialize (Hfa 0 Waiting). rewrite lookup_insert_eq in Hfa.
      by specialize (Hfa eq_refl). }
  assert (Hcreated : created s = if bool_decide (Z.to_nat size = 0) then Created else Creating).
  { rewrite Hs0. unfold settle_created.
    replace (created s0) with Creating by (by unfold s0; simpl; rewrite Hcr).
    rewrite Hall. case_bool_decide; [done|]. unfold s0. simpl. by rewrite Hcr. }
  split; [by rewrite Hf3|]. split; [by rewrite Hf4|]. split.
  { intros w. rewrite (pending_of_same _ _ w Hf1). unfold s0.
    change (pending_of (set_waits ?l ?s1) w) with (pending_of s1 w).
    rewrite Hpe. by destruct (decide (0 <= w < Z.to_nat size)). }
  repeat split; try done; rewrite Hcreated; case_bool_decide; try done; lia.
Qed.

Lemma step_created_final e s : created s <> Creating -> created (step e s) = created s.
Proof.
  intros Hc. destruct e as [w msg|w err|w code|c|]; simpl.
  - assert (Hsl : created (slot_on_message w msg s) = created s /\
                  waits (slot_on_message w msg s) = waits s).
    { unfold slot_on_message; case_bool_decide; try done;
      destruct (m_id msg); try done; destruct (pending_of s w !! n); try done;
      by destruct (m_error msg). }
    destruct Hsl as [Hcr Hwa]. unfold onMessage. rewrite Hwa.
    destruct (waits s !! w) as [[]|]; try done.
    case_bool_decide; [|done]. unfold settle_created. simpl. rewrite Hcr.
    by destruct (created s).
  - unfold onError. simpl. destruct (waits s !! w) as [[]|]; try done.
    destruct (created s) eqn:Hcr; try done.
  - unfold slot_on_exit. destruct (terminated s); [done|]. simpl.
    by destruct (indexOf w (slots s)).
  - destruct (invoke_dispatch c s) as (method & args & ->).
    unfold dispatch. cbv zeta. destruct (terminated s); [done|].
    by destruct (least_pending s).
  - done.
Qed.

Lemma run_created_final es s : created s <> Creating -> created (run es s) = created s.
Proof.
  intros Hc. induction es as [|e es IH] using rev_ind; [done|].
  rewrite run_snoc, step_created_final; [done|]. by rewrite IH.
Qed.

(** X7. While [createPool] is still waiting, the first error of a worker
    it waits for rejects its promise with that error, and nothing that
    happens later changes that, not even the "ready" of every other worker.
    The workers already spawned are not terminated by this: no
    [worker.terminate()] is called and the slots stay filled. *)
Theorem createPool_rejects_on_error
    (s : State) (w : nat) (err : thrown) (later : list event) :
  created s = Creating ->
  waits s !! w = Some Waiting ->
  created (run later (step (EError w err) s)) = Failed err /\
  terminate_calls (step (EError w err) s) = terminate_calls s /\
  slots (step (EError w err) s) = slots s /\
  terminated (step (EError w err) s) = terminated s.
Proof.
  intros Hc Hw.
  assert (Hf : created (step (EError w err) s) = Failed err).
  { simpl. unfold onError. simpl. by rewrite Hw, Hc. }
  split; [by rewrite run_created_final; rewrite Hf|].
  simpl. unfold onError. simpl. rewrite Hw, Hc. done.
Qed.

Lemma createPool_rejects_on_error_witness :
  created (run [EMessage 0 ready_message; EExit 1 1; EMessage 2 ready_message]
               (step (EError 1 (JsError "no documents")) (createPool 2)))
    = Failed (JsError "no documents") /\
  terminate_calls (step (EError 1 (JsError "no documents")) (createPool 2))
    = terminate_calls (createPool 2) /\
  slots (step (EError 1 (JsError "no documents")) (createPool 2)) = slots (createPool 2) /\
  terminated (step (EError 1 (JsError "no documents")) (createPool 2))
    = terminated (createPool 2).
Proof.
  apply (createPool_rejects_on_error (createPool 2) 1 (JsError "no documents")
           [EMessage 0 ready_message; EExit 1 1; EMessage 2 ready_message]).
  - vm_compute. reflexivity.
  - vm_compute. reflexivity.
Defined.


(** *** The arguments of [read] *)

(** X8. [read] posts only the arguments that are not [undefined], in
    order, so the worker receives one, two or three of them; a call with
    [offset] left [undefined] and a [limit] given posts the same request as
    the call that gives that value as [offset] and no [limit]: the worker
    sees the limit in the place of the offset. *)
Theorem read_drops_undefined (path x : jsval) (s : State) :
  invoke (Read path JUndefined x) s = invoke (Read path x JUndefined) s /\
  (x <> JUndefined ->
   terminated s = false -> slots s <> [] ->
   exists w, posted (invoke (Read path JUndefined x) s).2
             = posted s ++ [(w, Build_Request (nextId s) "read" [path; x])]).
Proof.
  split.
  - simpl. unfold pool_read. by destruct x.
  - intros Hx Ht Hne.
    destruct (least_pending s) as [w|] eqn:Hbest.
    2:{ unfold least_pending in Hbest. by destruct (slots s). }
    exists w. simpl. unfold pool_read.
    destruct (dispatch_posts "read" ([path] ++ defined JUndefined ++ defined x) s w Ht Hbest)
      as (_ & -> & _).
    by destruct x.
Qed.

(** On a pool of one worker that is ready. *)
Lemma read_drops_undefined_witness :
  let s := step (EMessage 0 ready_message) (createPool 1) in
  invoke (Read (JStr "top.md") JUndefined (JNum 2)) s
    = invoke (Read (JStr "top.md") (JNum 2) JUndefined) s /\
  exists w, posted (invoke (Read (JStr "top.md") JUndefined (JNum 2)) s).2
            = posted s ++ [(w, Build_Request (nextId s) "read" [JStr "top.md"; JNum 2])].
Proof.
  intros s.
  destruct (read_drops_undefined (JStr "top.md") (JNum 2) s) as [H1 H2].
  split; [exact H1|]. apply H2; [discriminate|reflexivity|discriminate].
Defined.

(** *** From the methods of the pool to the methods of the core *)

Lemma dispatch_posted method args s w req :
  posted (dispatch method args s).2 = posted s ++ [(w, req)] ->
  req = Build_Request (nextId s) method args.
Proof.
  unfold dispatch. cbv zeta. destruct (terminated s).
  { simpl. intros Heq. apply (f_equal length) in Heq.
    rewrite length_app in Heq. simpl in Heq. lia. }
  destruct (least_pending s) as [w'|].
  - simpl. intros Heq. apply app_inv_head in Heq. by injection Heq as _ <-.
  - simpl. intros Heq. apply (f_equal length) in Heq.
    rewrite length_app in Heq. simpl in Heq. lia.
Qed.

Section Methods.
Context {Store : Type} `{!Core Store}.
Context (JSON_parse : string -> res jsval).

(** X9. Every method of the pool object posts a request whose method
    the worker's [switch] knows, so that it reaches the method of the core
    of the same name with the arguments given, trailing [undefined] ones
    left out: [grep] and [ls] and [toolDefinitions] through [JSON.parse],
    [read] and [documentCount] as they are; no call of the pool ends in
    "unknown method". *)
Theorem pool_methods_reach_core
    (c : operation) (s : State) (w : nat) (req : Request) (fs : Store) :
  posted (invoke c s).2 = posted s ++ [(w, req)] ->
  req_id req = nextId s /\
  Worker.call JSON_parse fs (req_method req) (req_args req) =
    match c with
    | Grep pattern glob => str ← grep fs (pattern :: defined glob); JSON_parse str
    | Read path offset limit =>
        str ← read fs (path :: defined offset ++ defined limit); Ok (JStr str)
    | Ls path => str ← ls fs [path]; JSON_parse str
    | ToolDefinitions => JSON_parse (tool_definitions fs)
    | DocumentCount => Ok (JNum (document_count fs))
    end.
Proof.
  intros Hp. destruct c as [pattern glob|path offset limit|path| |]; simpl in Hp;
    unfold pool_grep, pool_read, pool_ls, pool_toolDefinitions, pool_documentCount in Hp;
    apply dispatch_posted in Hp; subst req; (split; [done|]); try done.
  unfold Worker.call. simpl. by destruct glob.
Qed.
End Methods.

Lemma pool_methods_reach_core_witness :
  let s := step (EMessage 0 ready_message) (createPool 1) in
  let req := Build_Request 0 "read" [JStr "top.md"; JNum 2] in
  let fs := [("top.md", "Top level doc")] in
  req_id req = nextId s /\
  @Worker.call _ Sample.sample_core Sample.sample_parse fs (req_method req) (req_args req)
    = str ← @read _ Sample.sample_core fs [JStr "top.md"; JNum 2]; Ok (JStr str).
Proof.
  intros s req fs.
  apply (@pool_methods_reach_core _ Sample.sample_core Sample.sample_parse
           (Read (JStr "top.md") JUndefined (JNum 2)) s 0 req fs).
  reflexivity.
Defined.


End PoolMore.

(** ** More on the collector and the loaders *)

Module LoaderMore.
Import Fs Collect JsArray Loader SortFacts CollectSpec LoaderSpec Tree.

(** *** The collector, by segments *)

Lemma collect_by_segments root pre n :
  (exists es, n = Dir es) ->
  collectMdFiles root (root ++ pre) n = Ok (map (render pre) (md_files n)).
Proof.
  revert pre. induction n as [c|es IH] using node_children_ind; intros pre [es' Hes];
    [done|]. clear es' Hes.
  rewrite collect_unfold.
  enough (Hgo : exists dss,
            map_res (entry_docs root (root ++ pre)) es = Ok dss /\
            concat dss = map (render pre) (md_files (Dir es))).
  { destruct Hgo as (dss & -> & <-). done. }
  induction es as [|[name child] es IHes]; [by exists []|].
  apply Forall_cons in IH as [IHc IHrest].
  destruct (IHes IHrest) as (dss & Hdss & Hconcat).
  cbn [map_res]. rewrite Hdss.
  assert (Hhead : exists ds,
    entry_docs root (root ++ pre) (name, child) = Ok ds /\
    ds = map (render pre)
           match child with
           | File content => if endsWith name ".md" then [([name], content)] else []
           | Dir _ => map (fun f => (name :: f.1, f.2)) (md_files child)
           end).
  { unfold entry_docs. cbn [fst snd]. destruct child as [content|ces].
    - eexists. split; [done|]. destruct (endsWith name ".md"); [|done].
      unfold render, join. cbn [map fst snd]. by rewrite <- app_assoc, relative_below.
    - eexists. split.
      + unfold join. rewrite <- app_assoc. apply (IHc (pre ++ [name])). eauto.
      + rewrite map_map. apply map_ext. intros [segs c]. unfold render. cbn [fst snd].
        by rewrite <- app_assoc. }
  destruct Hhead as (ds & -> & ->).
  eexists. split; [done|].
  cbn [concat]. rewrite Hconcat.
  change (md_files (Dir ((name, child) :: es)))
    with (match child with
          | File content => if endsWith name ".md" then [([name], content)] else []
          | Dir _ => map (fun f => (name :: f.1, f.2)) (md_files child)
          end ++ md_files (Dir es)).
  by rewrite map_app.
Qed.

(** X10. The list [collectMdFiles(rootDir, rootDir)] returns depends on
    the tree below [rootDir] only, not on where [rootDir] lies: moving the
    directory changes neither the paths, nor the contents, nor their
    order, which is that of a depth-first walk in directory order. *)
Theorem collect_is_relative (rootDir rootDir' : path) (entries : list (string * node)) :
  collectMdFiles rootDir rootDir (Dir entries)
    = collectMdFiles rootDir' rootDir' (Dir entries) /\
  collectMdFiles rootDir rootDir (Dir entries)
    = Ok (map (fun f => (String.concat "/" f.1, f.2)) (md_files (Dir entries))).
Proof.
  pose proof (collect_by_segments rootDir [] (Dir entries)) as H1.
  pose proof (collect_by_segments rootDir' [] (Dir entries)) as H2.
  rewrite app_nil_r in H1, H2. rewrite H1, H2 by eauto. done.
Qed.


(** *** Strings *)

Lemma string_length_append (a b : string) :
  String.length (a +:+ b) = String.length a + String.length b.
Proof. induction a as [|c a IH]; simpl; [done|]. f_equal. exact IH. Qed.

Lemma substring_skip (a b : string) n m :
  substring (String.length a + n) m (a +:+ b) = substring n m b.
Proof. induction a as [|c a IH]; simpl; done. Qed.

Lemma string_append_assoc (a b c : string) : (a +:+ b) +:+ c = a +:+ (b +:+ c).
Proof.
  induction a as [|x a IH]; [done|].
  change (String x ((a +:+ b) +:+ c) = String x (a +:+ (b +:+ c))). by rewrite IH.
Qed.

Lemma endsWith_append (a b suffix : string) :
  endsWith b suffix = true -> endsWith (a +:+ b) suffix = true.
Proof.
  unfold endsWith. intros [Hlen Heq]%andb_prop. apply Nat.leb_le in Hlen.
  apply andb_true_intro. rewrite string_length_append. split.
  - apply Nat.leb_le. lia.
  - replace (String.length a + String.length b - String.length suffix)
      with (String.length a + (String.length b - String.length suffix)) by lia.
    by rewrite substring_skip.
Qed.

Lemma concat_cons (x : string) (segs : list string) :
  segs <> [] ->
  String.concat "/" (x :: segs) = x +:+ String "/" (String.concat "/" segs).
Proof. destruct segs; [done|]. intros _. done. Qed.

Lemma concat_last (segs : list string) name :
  last segs = Some name -> exists pre, String.concat "/" segs = pre +:+ name.
Proof.
  induction segs as [|x segs IH]; [done|].
  destruct segs as [|y segs].
  - intros [= ->]. by exists "".
  - rewrite last_cons_cons. intros Hl. destruct (IH Hl) as [pre Hpre].
    exists (x +:+ String "/" pre). rewrite (concat_cons x (y :: segs)) by done.
    rewrite Hpre. by rewrite string_append_assoc.
Qed.

(** Segments without a separator can be read back from the joined path. *)
Lemma slash_split (a b r1 r2 : string) :
  slash_free a -> slash_free b ->
  a +:+ String "/" r1 = b +:+ String "/" r2 -> a = b /\ r1 = r2.
Proof.
  revert b. induction a as [|x a IH]; intros [|y b]; simpl.
  - intros _ _ [= ->]. done.
  - intros _ [Hy _] [= Hxy _]. done.
  - intros [Hx _] _ [= Hxy _]. done.
  - intros [_ Ha] [_ Hb] [= -> Heq]. destruct (IH b Ha Hb Heq) as [-> ->]. done.
Qed.

Lemma slash_alone (a b r : string) :
  slash_free a -> a <> b +:+ String "/" r.
Proof.
  revert b. induction a as [|x a IH]; intros [|y b]; simpl; try done.
  - intros [Hx _] [= Hxy]. done.
  - intros [_ Ha] [= _ Heq]. by eapply IH.
Qed.

Lemma concat_slash_inj (l1 l2 : list string) :
  l1 <> [] -> l2 <> [] ->
  Forall slash_free l1 -> Forall slash_free l2 ->
  String.concat "/" l1 = String.concat "/" l2 -> l1 = l2.
Proof.
  revert l2. induction l1 as [|x l1 IH]; [done|].
  intros [|y l2]; [done|]. intros _ _ [Hx H1]%Forall_cons [Hy H2]%Forall_cons.
  destruct l1 as [|x' l1], l2 as [|y' l2].
  - simpl. by intros ->.
  - rewrite (concat_cons y) by done. simpl. intros Heq. by apply slash_alone in Heq.
  - rewrite (concat_cons x) by done. simpl. intros Heq. symmetry in Heq.
    by apply slash_alone in Heq.
  - rewrite (concat_cons x), (concat_cons y) by done. intros Heq.
    apply slash_split in Heq as [-> Heq]; [|done|done].
    f_equal. by apply IH.
Qed.

(** *** The files of a well-formed tree *)

Lemma md_files_cons name child es :
  md_files (Dir ((name, child) :: es))
  = match child with
    | File content => if endsWith name ".md" then [([name], content)] else []
    | Dir _ => map (fun f => (name :: f.1, f.2)) (md_files child)
    end ++ md_files (Dir es).
Proof. done. Qed.

Lemma wf_cons name child es :
  wf (Dir ((name, child) :: es)) <->
  (name ∉ map fst es) /\ slash_free name /\ wf child /\ wf (Dir es).
Proof.
  cbn [wf map fst snd]. rewrite NoDup_cons. tauto.
Qed.

Lemma md_files_segments n segs c :
  (segs, c) ∈ md_files n ->
  segs <> [] /\ is_md segs /\ (wf n -> Forall slash_free segs) /\
  (forall es, n = Dir es -> exists name rest, segs = name :: rest /\ name ∈ map fst es).
Proof.
  revert segs c. induction n as [c0|es IH] using node_children_ind; intros segs c.
  - intros Hin. by apply elem_of_nil in Hin.
  - induction es as [|[name child] es IHes].
    + intros Hin. by apply elem_of_nil in Hin.
    + apply Forall_cons in IH as [IHc IHrest]. specialize (IHes IHrest).
      rewrite md_files_cons. intros [Hin|Hin]%elem_of_app.
      * assert (Hhead : segs <> [] /\ is_md segs /\
                         (slash_free name -> wf child -> Forall slash_free segs) /\
                         exists rest, segs = name :: rest).
        { destruct child as [content|ces].
          - destruct (endsWith name ".md") eqn:Hmd; [|by apply elem_of_nil in Hin].
            apply list_elem_of_singleton in Hin as [= -> ->].
            split; [done|]. split; [by exists name|]. split; [|by exists []].
            intros Hn _. by apply Forall_singleton.
          - apply list_elem_of_fmap in Hin as ([segs' c'] & [= -> ->] & Hin).
            destruct (IHc _ _ Hin) as (Hne & Hmd & Hsf & _). cbn [fst snd].
            split; [done|]. split; [|split; [|by eexists]].
            + destruct Hmd as (nm & Hl & Hn). exists nm. split; [|done].
              destruct segs'; [done|]. by rewrite last_cons_cons.
            + intros Hn Hw. apply Forall_cons. split; [done|]. by apply Hsf. }
        destruct Hhead as (H1 & H2 & H3 & rest & ->).
        split; [done|]. split; [done|]. split.
        -- intros (_ & Hn & Hw & _)%wf_cons. by apply H3.
        -- intros es0 [= <-]. exists name, rest. split; [done|]. by left.
      * destruct (IHes Hin) as (H1 & H2 & H3 & H4).
        split; [done|]. split; [done|]. split.
        -- intros (_ & _ & _ & Hw)%wf_cons. by apply H3.
        -- intros es0 [= <-]. destruct (H4 es eq_refl) as (nm & rest & -> & Hnm).
           exists nm, rest. split; [done|]. by right.
Qed.

Lemma md_files_nodup n : wf n -> NoDup (map fst (md_files n)).
Proof.
  induction n as [c0|es IH] using node_children_ind; [constructor|].
  induction es as [|[name child] es IHes]; [constructor|].
  apply Forall_cons in IH as [IHc IHrest]. specialize (IHes IHrest).
  intros (Hfresh & Hn & Hw & Hrest)%wf_cons.
  assert (Hhead : forall segs,
    segs ∈ map fst match child with
                   | File content => if endsWith name ".md" then [([name], content)] else []
                   | Dir _ => map (fun f => (name :: f.1, f.2)) (md_files child)
                   end ->
    exists rest, segs = name :: rest).
  { intros segs Hin. destruct child as [content|ces].
    - destruct (endsWith name ".md"); [|by apply elem_of_nil in Hin].
      apply list_elem_of_singleton in Hin as ->. by eexists.
    - rewrite map_map in Hin. apply list_elem_of_fmap in Hin as (f & -> & _). by eexists. }
  rewrite md_files_cons, map_app. apply NoDup_app. split; [|split; [|by apply IHes]].
  - destruct child as [content|ces].
    + destruct (endsWith name ".md"); [apply NoDup_singleton|constructor].
    + rewrite map_map. cbn [fst]. rewrite <- (map_map fst (cons name)).
      apply (NoDup_fmap_2 (cons name)), IHc, Hw.
  - intros segs Hin Hin'. destruct (Hhead segs Hin) as [rest ->].
    apply list_elem_of_fmap in Hin' as ([segs' c] & Heq & Hin'). cbn [fst] in Heq.
    destruct (md_files_segments _ _ _ Hin') as (_ & _ & _ & H4).
    destruct (H4 es eq_refl) as (nm & rest' & -> & Hnm).
    injection Heq as -> _. done.
Qed.

(** X11. Every path [collectMdFiles] returns ends in ".md", at whatever
    depth its file was found. *)
Theorem collected_paths_end_in_md (rootDir : path) (entries : list (string * node)) :
  exists docs,
    collectMdFiles rootDir rootDir (Dir entries) = Ok docs /\
    Forall (fun d => endsWith d.1 ".md" = true) docs.
Proof.
  pose proof (collect_by_segments rootDir [] (Dir entries)) as H1.
  rewrite app_nil_r in H1. eexists. split; [apply H1; eauto|].
  apply Forall_forall. intros d ([segs c'] & -> & Hin)%list_elem_of_fmap.
  destruct (md_files_segments _ _ _ Hin) as (_ & (name & Hl & Hmd) & _).
  unfold render. cbn [fst app]. destruct (concat_last _ _ Hl) as [pre ->].
  by apply endsWith_append.
Qed.

(** X12. On a tree in which, directory by directory, the entry names are
    distinct and hold no "/", the paths [collectMdFiles] returns are
    pairwise distinct: the list it hands on has one entry per path. *)
Theorem collected_paths_distinct (rootDir : path) (entries : list (string * node)) :
  wf (Dir entries) ->
  exists docs,
    collectMdFiles rootDir rootDir (Dir entries) = Ok docs /\
    NoDup (map fst docs).
Proof.
  intros Hwf.
  pose proof (collect_by_segments rootDir [] (Dir entries)) as H1.
  rewrite app_nil_r in H1. eexists. split; [apply H1; eauto|].
  rewrite map_map. unfold render. cbn [fst app].
  rewrite <- (map_map fst (String.concat "/")).
  apply NoDup_fmap_2_strong; [|by apply md_files_nodup].
  intros l1 l2 ([s1 c1] & -> & Hin1)%list_elem_of_fmap
               ([s2 c2] & -> & Hin2)%list_elem_of_fmap Heq.
  destruct (md_files_segments _ _ _ Hin1) as (Hne1 & _ & Hsf1 & _).
  destruct (md_files_segments _ _ _ Hin2) as (Hne2 & _ & Hsf2 & _).
  cbn [fst] in *. apply concat_slash_inj; auto.
Qed.

Lemma collected_paths_distinct_witness :
  exists docs,
    collectMdFiles ["srv"; "kb"] ["srv"; "kb"]
      (Dir [("a", Dir [("b.md", File "1")]); ("a.md", File "2");
            ("b", Dir [("a.md", File "3"); ("c", Dir [("a.md", File "4")])])])
      = Ok docs /\
    NoDup (map fst docs).
Proof.
  apply collected_paths_distinct.
  cbn [wf map fst snd slash_free].
  repeat split; try (by apply (bool_decide_unpack _); vm_compute);
    try discriminate; try constructor.
Defined.


(** *** The flat loader *)

Lemma map_res_inv {A B} (f : A -> res B) l ys :
  map_res f l = Ok ys -> Forall2 (fun x y => f x = Ok y) l ys.
Proof.
  revert ys. induction l as [|x l IH]; intros ys; simpl.
  - intros [= <-]. constructor.
  - destruct (f x) as [y|e] eqn:Hx; [|done]. simpl.
    destruct (map_res f l) as [ys'|e]; [|done]. simpl.
    intros [= <-]. constructor; [done|]. by apply IH.
Qed.

Lemma map_res_throw {A B} (f : A -> res B) l e :
  map_res f l = Throw e -> exists x, In x l /\ f x = Throw e.
Proof.
  induction l as [|x l IH]; simpl; [done|].
  destruct (f x) as [y|e'] eqn:Hx; simpl.
  - destruct (map_res f l) as [ys'|e'']; simpl; [done|].
    intros [= <-]. destruct IH as (x' & Hin & Hx'); [done|]. eauto.
  - intros [= <-]. eauto.
Qed.

Lemma map_res_all {A B} (f : A -> res B) l :
  (exists ys, map_res f l = Ok ys) <-> forall x, In x l -> exists y, f x = Ok y.
Proof.
  induction l as [|x l IH]; simpl.
  - split; [done|eauto].
  - split.
    + intros [ys Hys]. destruct (f x) as [y|e] eqn:Hx; [|done]. simpl in Hys.
      destruct (map_res f l) as [ys'|e]; [|done].
      intros x' [<-|Hin]; [eauto|]. apply IH; eauto.
    + intros Hall. destruct (Hall x) as [y ->]; [by left|].
      destruct (proj2 IH) as [ys ->]; [intros; apply Hall; by right|].
      simpl. eauto.
Qed.

Lemma codeUnitCompare_le a b : cmp_le codeUnitCompare a b <-> str_le a b.
Proof. unfold cmp_le, codeUnitCompare, str_le. apply sign_le. Qed.

Lemma find_some_name (es : list (string * node)) name :
  In name (map fst es) ->
  exists child, List.find (fun e => String.eqb e.1 name) es = Some (name, child)
                /\ In (name, child) es.
Proof.
  induction es as [|[n c] es IH]; simpl; [done|].
  destruct (String.eqb_spec n name) as [->|Hne]; [eauto|].
  intros [Heq|Hin]; [done|]. destruct (IH Hin) as (child & -> & Hc). eauto.
Qed.

(** X13. On a directory whose entry names are ASCII: when the flat
    [loadFromDirectory] reaches the constructor, the list it passes is in
    ascending order of its paths compared code unit by code unit, each path
    is the name of an entry of the directory ending in ".md", and each
    content is what reading that entry returned. (The names are ASCII
    because only there are the numbers the model compares by the code units
    [sort()] compares by.) *)
Theorem flat_docs_sorted (entries : list (string * node)) (ds : docs) :
  Forall (fun e => is_ascii e.1) entries ->
  flat_docs (Dir entries) = Ok ds ->
  StronglySorted str_le (map fst ds) /\
  Forall (fun d => In d.1 (map fst entries) /\ endsWith d.1 ".md" = true /\
                   readFileSync (Dir entries) d.1 = Ok d.2) ds.
Proof.
  unfold flat_docs. simpl.
  set (files := sort codeUnitCompare
                  (List.filter (fun f => endsWith f ".md") (map fst entries))).
  intros _ Hds. apply map_res_inv in Hds.
  assert (Hfst : map fst ds = files /\
                 Forall (fun d => In d.1 files /\ readFileSync (Dir entries) d.1 = Ok d.2) ds).
  { clearbody files. induction Hds as [|f d files ds Hf Hrest IH]; [by split|].
    destruct IH as [IH1 IH2].
    destruct (readFileSync (Dir entries) f) as [content|] eqn:Hread; [|done].
    injection Hf as <-. cbn [map fst]. split; [by rewrite IH1|].
    constructor; [cbn [fst snd]; split; [by left|done]|].
    eapply Forall_impl; [exact IH2|]. intros d [Hin Hd]. split; [by right|done]. }
  destruct Hfst as [Hfst Hall]. split.
  - rewrite Hfst. apply (GrepSpec.StronglySorted_weaken (cmp_le codeUnitCompare)).
    + intros a b. apply codeUnitCompare_le.
    + apply (sort_sorted (by_key code_units)); [apply by_key_total|apply by_key_trans].
  - eapply Forall_impl; [exact Hall|]. intros d [Hin Hd].
    eapply Permutation_in in Hin; [|apply sort_perm].
    apply filter_In in Hin as [Hin Hmd]. done.
Qed.

Lemma flat_docs_sorted_witness :
  StronglySorted str_le (map fst [("B.md", "b"); ("a.md", "a"); ("z.md", "z")]) /\
  Forall (fun d => In d.1 (map fst [("z.md", File "z"); ("a.md", File "a");
                                    ("notes.txt", File "n"); ("B.md", File "b")]) /\
                   endsWith d.1 ".md" = true /\
                   readFileSync (Dir [("z.md", File "z"); ("a.md", File "a");
                                      ("notes.txt", File "n"); ("B.md", File "b")]) d.1
                   = Ok d.2)
         [("B.md", "b"); ("a.md", "a"); ("z.md", "z")].
Proof.
  apply (flat_docs_sorted [("z.md", File "z"); ("a.md", File "a");
                           ("notes.txt", File "n"); ("B.md", File "b")]).
  - repeat (apply Forall_cons; split; [vm_compute; repeat constructor|]).
    apply Forall_nil. done.
  - reflexivity.
Defined.

(** X14. The flat [loadFromDirectory] reads every top-level entry whose
    name ends in ".md" as a file: in a directory with distinct entry names
    it reaches the constructor exactly when no subdirectory is named like
    that, and otherwise throws the EISDIR error of [readFileSync]. *)
Theorem flat_docs_throws_on_md_directory (entries : list (string * node)) :
  NoDup (map fst entries) ->
  ((exists name ces, In (name, Dir ces) entries /\ endsWith name ".md" = true) ->
   flat_docs (Dir entries)
     = Throw (JsError "EISDIR: illegal operation on a directory, read")) /\
  ((forall name ces, In (name, Dir ces) entries -> endsWith name ".md" = false) ->
   exists ds, flat_docs (Dir entries) = Ok ds).
Proof.
  intros Hnd. unfold flat_docs. simpl.
  set (files := sort codeUnitCompare
                  (List.filter (fun f => endsWith f ".md") (map fst entries))).
  assert (Hfiles : forall f, In f files <->
                     In f (map fst entries) /\ endsWith f ".md" = true).
  { intros f. unfold files. split; intros Hin.
    - apply (filter_In (fun f => endsWith f ".md")).
      eapply Permutation_in; [apply sort_perm|done].
    - apply (filter_In (fun f => endsWith f ".md")) in Hin.
      eapply Permutation_in; [symmetry; apply sort_perm|done]. }
  set (read := fun f => content ← readFileSync (Dir entries) f; Ok (f, content)).
  assert (Hread : forall f, In f files ->
    (exists c, In (f, File c) entries /\ read f = Ok (f, c)) \/
    (exists ces, In (f, Dir ces) entries /\
       read f = Throw (JsError "EISDIR: illegal operation on a directory, read"))).
  { intros f [Hin _]%Hfiles. destruct (find_some_name entries f Hin) as (child & Hfind & Hc).
    unfold read, readFileSync, entry_named. rewrite Hfind. simpl.
    destruct child as [c|ces]; [left|right]; eauto. }
  split.
  - intros (name & ces & Hin & Hmd).
    assert (Hname : In name files).
    { apply Hfiles. split; [|done]. apply in_map_iff. by exists (name, Dir ces). }
    destruct (map_res read files) as [ds|e] eqn:Hres.
    + exfalso. destruct (proj1 (map_res_all read files)) with (x := name) as [y Hy];
        [eauto|done|].
      unfold read, readFileSync, entry_named in Hy.
      by rewrite (find_entry entries name (Dir ces)) in Hy.
    + apply map_res_throw in Hres as (f & Hf & Hthrow).
      destruct (Hread f Hf) as [(c & _ & Hok)|(ces' & _ & Herr)].
      * rewrite Hok in Hthrow. done.
      * rewrite Herr in Hthrow. by injection Hthrow as <-.
  - intros Hnone. apply map_res_all. intros f Hf.
    destruct (Hread f Hf) as [(c & _ & Hok)|(ces & Hin & _)]; [eauto|].
    apply Hfiles in Hf as [_ Hmd]. rewrite (Hnone f ces Hin) in Hmd. done.
Qed.

Lemma flat_docs_throws_on_md_directory_witness :
  let entries := [("top.md", File "t"); ("archive.md", Dir [("x.md", File "x")])] in
  flat_docs (Dir entries)
    = Throw (JsError "EISDIR: illegal operation on a directory, read") /\
  ((forall name ces, In (name, Dir ces) entries -> endsWith name ".md" = false) ->
   exists ds, flat_docs (Dir entries) = Ok ds).
Proof.
  intros entries.
  destruct (flat_docs_throws_on_md_directory entries) as [H1 H2].
  - apply (bool_decide_unpack _). vm_compute. exact I.
  - split; [|exact H2]. apply H1.
    exists "archive.md", [("x.md", File "x")]. split; [|reflexivity].
    right. left. reflexivity.
Defined.


(** *** Initialisation *)

Section Loads.
Context {Store : Type} (MemexFS : docs -> res Store).
Context {collator : Collator}.

Lemma loads_state (calls : list (res unit * (path * node))) :
  LoaderInit.loads MemexFS calls LoaderInit.loaded
  = if existsb (fun c => LoaderInit.succeeds c.1) calls
    then LoaderInit.mkInit true 1 else LoaderInit.loaded.
Proof.
  induction calls as [|c calls IH] using rev_ind; [done|].
  unfold LoaderInit.loads in *. rewrite foldl_snoc, IH, existsb_app.
  unfold LoaderInit.loadFromDirectory, LoaderInit.ensureInit.
  destruct (existsb _ calls); [done|]. simpl.
  by destruct c as [[[]|e] dir].
Qed.

(** X15. Whatever directories are loaded one after the other, and
    whether or not reading and instantiating the WebAssembly module works
    each time it is tried: [initSync] returns at most once, in the first
    load in which it works; from then on a load, of either loader, does
    not touch the module and returns what collecting, sorting and
    constructing return; until then every load tries again, and throws
    without looking at the directory when that fails. *)
Theorem initSync_runs_once
    (calls : list (res unit * (path * node))) (wasm : res unit) (dir : path * node) :
  let s := LoaderInit.loads MemexFS calls LoaderInit.loaded in
  LoaderInit.initialized s = existsb (fun c => LoaderInit.succeeds c.1) calls /\
  LoaderInit.initSync_calls s = (if LoaderInit.initialized s then 1 else 0) /\
  LoaderInit.loadFromDirectory MemexFS wasm dir s
    = (if LoaderInit.initialized s
       then (s, loadFromDirectory MemexFS dir.1 dir.2)
       else match wasm with
            | Ok _ => (LoaderInit.mkInit true 1, loadFromDirectory MemexFS dir.1 dir.2)
            | Throw e => (s, Throw e)
            end) /\
  LoaderInit.loadFromDirectory_flat MemexFS wasm dir s
    = (if LoaderInit.initialized s
       then (s, loadFromDirectory_flat MemexFS dir.2)
       else match wasm with
            | Ok _ => (LoaderInit.mkInit true 1, loadFromDirectory_flat MemexFS dir.2)
            | Throw e => (s, Throw e)
            end).
Proof.
  intros s. unfold s. rewrite loads_state.
  unfold LoaderInit.loadFromDirectory, LoaderInit.loadFromDirectory_flat,
    LoaderInit.ensureInit.
  destruct (existsb _ calls); simpl; [done|]. by destruct wasm as [[]|e].
Qed.
End Loads.

End LoaderMore.

(** ** More on the pool together with its workers *)

Module SystemMore.
Import Fs Worker Pool System PoolSpec SystemSpec.

(** *** What the pool keeps through an event *)

Lemma step_posted_mono e s x : x ∈ posted s -> x ∈ posted (step e s).
Proof.
  intros Hx. destruct e as [w msg|w err|w code|c|]; simpl.
  - destruct (onMessage_fields w msg (slot_on_message w msg s))
      as (_ & _ & _ & _ & _ & -> & _).
    unfold slot_on_message. case_bool_decide; [done|].
    destruct (m_id msg); [|done]. destruct (pending_of s w !! n); [|done].
    by destruct (m_error msg).
  - by destruct (onError_fields w err (slot_on_error w err s))
      as (_ & _ & _ & _ & _ & -> & _).
  - unfold slot_on_exit. destruct (terminated s); [done|]. simpl.
    by destruct (indexOf w (slots s)).
  - destruct (invoke_dispatch c s) as (method & args & ->).
    unfold dispatch. cbv zeta. destruct (terminated s); [done|].
    destruct (least_pending s); [|done]. simpl. apply elem_of_app. by left.
  - done.
Qed.

Lemma worker_event_fields e s :
  (forall c, e <> ECall c) -> e <> ETerminate ->
  terminated (step e s) = terminated s /\
  terminate_calls (step e s) = terminate_calls s.
Proof.
  intros Hc Ht. destruct e as [w msg|w err|w code|c|]; simpl.
  - assert (H : terminated (slot_on_message w msg s) = terminated s /\
                terminate_calls (slot_on_message w msg s) = terminate_calls s /\
                waits (slot_on_message w msg s) = waits s).
    { unfold slot_on_message. case_bool_decide; [done|].
      destruct (m_id msg); [|done]. destruct (pending_of s w !! n); [|done].
      by destruct (m_error msg). }
    destruct H as (H1 & H2 & H3). unfold onMessage. rewrite H3.
    destruct (waits s !! w) as [[]|]; try done.
    case_bool_decide; [|done]. unfold settle_created. simpl.
    destruct (created (slot_on_message w msg s)); try done.
    by destruct (all_ready _).
  - unfold onError. simpl. destruct (waits s !! w) as [[]|]; try done.
    simpl. by destruct (created s).
  - unfold slot_on_exit. destruct (terminated s) eqn:Hte; [done|]. simpl.
    by destruct (indexOf w (slots s)).
  - by destruct (Hc c).
  - done.
Qed.

Lemma indexOf_Some w l idx : indexOf w l = Some idx -> l !! idx = Some w.
Proof.
  revert idx. induction l as [|x l IH]; intros idx; simpl; [done|].
  case_decide as Hx; [by intros [= <-]; subst|].
  destruct (indexOf w l) as [j|]; [|done]. intros [= <-]. by apply IH.
Qed.

Lemma indexOf_None w l : indexOf w l = None -> w ∉ l.
Proof.
  induction l as [|x l IH]; simpl; [intros _ H; by apply elem_of_nil in H|].
  case_decide as Hx; [done|].
  destruct (indexOf w l) as [j|]; [done|]. intros _ [->|H]%elem_of_cons; [done|].
  by apply IH.
Qed.

(** The slots after an exit: the worker that exited is gone, the worker
    spawned in its place is the only new one. *)
Lemma exit_slots w code s w' :
  terminated s = false -> NoDup (slots s) ->
  w' ∈ slots (step (EExit w code) s) ->
  (w' ∈ slots s /\ w' <> w) \/ (w' = spawned s /\ w ∈ slots s).
Proof.
  intros Ht Hnd. simpl. unfold slot_on_exit. rewrite Ht. simpl.
  destruct (indexOf w (slots s)) as [idx|] eqn:Hidx.
  - apply indexOf_Some in Hidx. simpl.
    intros (j & Hj)%list_elem_of_lookup_1.
    destruct (decide (j = idx)) as [->|Hne].
    + rewrite list_lookup_insert_eq in Hj by (by eapply lookup_lt_Some).
      right. split; [congruence|]. by eapply list_elem_of_lookup_2.
    + rewrite list_lookup_insert_ne in Hj by done. left.
      split; [by eapply list_elem_of_lookup_2|].
      intros ->. apply Hne. by eapply NoDup_lookup.
  - apply indexOf_None in Hidx. intros Hin. left. split; [done|].
    by intros ->.
Qed.

Lemma exit_slots_insert w code s i :
  terminated s = false -> NoDup (slots s) -> slots s !! i = Some w ->
  slots (step (EExit w code) s) = <[i := spawned s]> (slots s).
Proof.
  intros Ht Hnd Hi. simpl. unfold slot_on_exit. rewrite Ht. simpl.
  by rewrite (indexOf_lookup _ i w Hnd Hi).
Qed.

Lemma exit_spawned w code s :
  terminated s = false ->
  spawned (step (EExit w code) s)
    = if decide (w ∈ slots s) then S (spawned s) else spawned s.
Proof.
  intros Ht. simpl. unfold slot_on_exit. rewrite Ht. simpl.
  destruct (indexOf w (slots s)) as [idx|] eqn:Hidx.
  - apply indexOf_Some in Hidx. rewrite decide_True; [done|].
    by eapply list_elem_of_lookup_2.
  - apply indexOf_None in Hidx. by rewrite decide_False.
Qed.

Lemma message_slots w msg s :
  slots (step (EMessage w msg) s) = slots s /\
  spawned (step (EMessage w msg) s) = spawned s.
Proof.
  simpl. destruct (onMessage_fields w msg (slot_on_message w msg s))
    as (_ & _ & -> & -> & _).
  unfold slot_on_message. case_bool_decide; [done|].
  destruct (m_id msg); [|done]. destruct (pending_of s w !! n); [|done].
  by destruct (m_error msg).
Qed.

Lemma error_slots w err s :
  slots (step (EError w err) s) = slots s /\
  spawned (step (EError w err) s) = spawned s.
Proof.
  simpl. by destruct (onError_fields w err (slot_on_error w err s))
    as (_ & _ & -> & -> & _).
Qed.

Section Runs.
Context {Store : Type} `{!Core Store}.
Context (JSON_parse : string -> res jsval).
Context {collator : JsArray.Collator}.
Context (absDir : path) (tree : node).

(** The pool of an execution has gone through a sequence of its events. *)
Lemma exec_pool_run size tr (σ : @system Store) :
  exec JSON_parse absDir tree size tr σ ->
  exists es, pool σ = run es (createPool size).
Proof.
  induction 1 as [|tr σ a σ' _ [es IH] Hstep]; [by exists []|].
  destruct Hstep; cbn [pool set_worker]; rewrite ?IH.
  - by exists es.
  - exists (es ++ [EError w err; EExit w 1]). unfold run. by rewrite foldl_app.
  - by exists es.
  - by exists es.
  - by exists es.
  - exists (es ++ [EMessage w msg]). by rewrite run_snoc.
  - exists (es ++ [EExit w code]). by rewrite run_snoc.
  - exists (es ++ [ECall c]). by rewrite run_snoc.
  - exists (es ++ [ETerminate]). by rewrite run_snoc.
Qed.

Lemma sys_step_posted_mono (σ σ' : @system Store) a x :
  sys_step JSON_parse absDir tree σ a σ' ->
  x ∈ posted (pool σ) -> x ∈ posted (pool σ').
Proof.
  intros Hstep Hx. destruct Hstep; cbn [pool set_worker]; try done;
    repeat apply step_posted_mono; done.
Qed.

Lemma inbox_posted (σ : @system Store) w k req :
  inbox σ w !! k = Some req -> (w, req) ∈ posted (pool σ).
Proof.
  unfold inbox. intros Hk. apply list_elem_of_lookup_2 in Hk.
  apply list_elem_of_fmap in Hk as ([w' req'] & -> & Hin).
  apply list_elem_of_filter in Hin as [Hw Hin]. simpl in Hw. by subst.
Qed.

(** X16. Every message that reaches the pool is either the ["ready"] of a
    worker or the one response of that worker to a request the pool posted
    to that very worker, computed on the store the worker constructed, and
    it carries the id of that request. *)
Theorem responses_answer_posted_requests
    (size : Z) (tr : list action) (σ : @system Store) (w : nat) (m : Message) :
  exec JSON_parse absDir tree size tr σ ->
  (w, m) ∈ inflight σ \/ ADeliver w m ∈ tr ->
  m = ready_message \/
  exists req st,
    (w, req) ∈ posted (pool σ) /\
    construct absDir tree = Ok st /\
    Worker.on_message JSON_parse st req = [m] /\
    m_id m = Some (req_id req).
Proof.
  intros Hexec. revert w m.
  induction Hexec as [|tr σ a σ' Hexec IH Hstep]; intros w m.
  { intros [H|H]; by apply elem_of_nil in H. }
  pose proof (exec_inv _ _ _ _ _ _ Hexec) as [_ B _ _ _ _ _ _].
  assert (Hkeep : (w, m) ∈ inflight σ \/ ADeliver w m ∈ tr ->
    m = ready_message \/
    exists req st,
      (w, req) ∈ posted (pool σ') /\ construct absDir tree = Ok st /\
      Worker.on_message JSON_parse st req = [m] /\ m_id m = Some (req_id req)).
  { intros Hm. destruct (IH w m Hm) as [->|(req & st & Hp & Hrest)]; [by left|].
    right. exists req, st. split; [|done]. by eapply sys_step_posted_mono. }
  intros [Hin|[Hin|Hin%list_elem_of_singleton]%elem_of_app]; [|by auto|].
  - destruct Hstep as
      [σ w0 st Hw Hph Hcon | σ w0 err Hw Hph Hcon | σ w0 Hph | σ w0 Hph
      | σ w0 st req Hph Hfs Hreq | σ w0 msg before after Hsplit
      | σ w0 code Hw Hph | σ c Hc | σ Hc]; cbn [inflight set_worker] in Hin;
      try (by auto).
    + apply elem_of_app in Hin as [Hin|[= -> ->]%list_elem_of_singleton]; auto.
    + apply elem_of_app in Hin as [Hin|Hin]; [by auto|].
      apply list_elem_of_fmap in Hin as (m' & [= -> ->] & Hm').
      destruct (B w0) as (st' & Hfs' & Hok & _); [by right; right|].
      assert (st' = st) as -> by congruence.
      destruct (on_message_single JSON_parse st req) as (m0 & Heq & _ & Hid & _).
      rewrite Heq in Hm'. apply list_elem_of_singleton in Hm' as ->.
      right. exists req, st. split; [|done]. cbn [pool].
      by eapply inbox_posted.
    + apply Hkeep. left. rewrite Hsplit.
      apply elem_of_app in Hin as [Hin|Hin]; apply elem_of_app;
        [by left|right; by right].
  - subst a. inversion Hstep as [| | | | |? ? ? before after Hsplit| | |]; subst.
    apply Hkeep. left. rewrite Hsplit. apply elem_of_app. right. by left.
Qed.

End Runs.

(** *** Workers that cannot construct their store *)

Section Failing.
Context {Store : Type} `{!Core Store}.
Context (JSON_parse : string -> res jsval).
Context {collator : JsArray.Collator}.
Context (absDir : path) (tree : node).

Lemma failing_never_created size err tr (σ : @system Store) :
  construct absDir tree = Throw err -> (0 < size)%Z ->
  exec JSON_parse absDir tree size tr σ ->
  created (pool σ) <> Created /\ forall w, (ABuild w ∉ tr) /\ (AReady w ∉ tr).
Proof.
  intros Hthrow Hsize Hexec.
  pose proof (exec_inv _ _ _ _ _ _ Hexec) as [[P1 P2] _ _ R BO _ W _].
  assert (Hb : forall w, ABuild w ∉ tr).
  { intros w Hin. destruct (BO w Hin) as [st Hst]. congruence. }
  assert (Hr : forall w, AReady w ∉ tr).
  { intros w Hin. destruct (R w Hin) as (l1 & l2 & l3 & ->).
    apply (Hb w). apply elem_of_app. right. by left. }
  split; [|done]. intros Hc.
  destruct (P1 0) as [x Hx]; [lia|]. pose proof (P2 Hc 0 x Hx) as Hready.
  destruct x; try done. by apply (Hr 0), W.
Qed.

Lemma failing_inv size err tr (σ : @system Store) :
  construct absDir tree = Throw err -> (0 < size)%Z ->
  exec JSON_parse absDir tree size tr σ ->
  terminated (pool σ) = false /\
  (forall w, w ∈ slots (pool σ) -> w_phase (worker_of σ w) = Loading) /\
  (forall w, spawned (pool σ) <= w -> workers σ !! w = None).
Proof.
  intros Hthrow Hsize Hexec.
  induction Hexec as [|tr σ a σ' Hexec (Ht & Hl & Hn) Hstep].
  { unfold start. cbn [pool workers].
    destruct (PoolMore.createPool_fields size) as (_ & _ & _ & Hte).
    split; [done|]. split; [|done]. intros w _. unfold worker_of. cbn [workers].
    by rewrite lookup_empty. }
  pose proof (exec_inv _ _ _ _ _ _ Hexec) as [_ B _ _ _ _ _ _].
  destruct (failing_never_created _ _ _ _ Hthrow Hsize Hexec) as [Hcr _].
  destruct (exec_pool_run _ _ _ _ _ _ Hexec) as [es Hes].
  pose proof (reachable_consistent size es) as [_ _ Hsp Hnd _].
  rewrite <- Hes in Hsp, Hnd.
  assert (Hstarted : forall w, started (w_phase (worker_of σ w)) -> False).
  { intros w Hs. destruct (B w Hs) as (st & _ & Hok & _). congruence. }
  assert (Hgone : forall w0 code x w,
    terminated (pool σ) = false ->
    w0 < spawned (pool σ) ->
    w ∈ slots (step (EExit w0 code) (pool σ)) ->
    w_phase (default fresh (<[w0 := x]> (workers σ) !! w)) = Loading).
  { intros w0 code x w Hte Hw0 Hin.
    apply exit_slots in Hin as [[Hin Hne]|[-> _]]; [| |done|done].
    - rewrite lookup_insert_ne by done. by apply Hl.
    - rewrite lookup_insert_ne by lia. by rewrite Hn. }
  destruct Hstep as
    [σ w0 st Hw Hph Hcon | σ w0 err' Hw Hph Hcon | σ w0 Hph | σ w0 Hph
    | σ w0 st req Hph Hfs Hreq | σ w0 msg before after Hsplit
    | σ w0 code Hw Hph | σ c Hc | σ Hc];
    try congruence;
    try (exfalso; apply (Hstarted w0); rewrite Hph; unfold started; by auto).
  - (* the build fails *)
    cbn [pool workers]. destruct (error_slots w0 err' (pool σ)) as [Hes1 Hes2].
    destruct (worker_event_fields (EError w0 err') (pool σ)) as [Hte1 _]; [done..|].
    destruct (worker_event_fields (EExit w0 1) (step (EError w0 err') (pool σ)))
      as [Hte2 _]; [done..|].
    split; [by rewrite Hte2, Hte1|]. split.
    + intros w Hin. unfold worker_of. cbn [workers].
      pose proof (Hgone w0 1%Z (mkWorker Exited None (w_handled (worker_of σ w0))) w) as Hg.
      apply exit_slots in Hin as [[Hin Hne]|[-> _]];
        [| |by rewrite Hte1|by rewrite Hes1].
      * rewrite Hes1 in Hin. rewrite lookup_insert_ne by done. by apply Hl.
      * rewrite Hes2. rewrite lookup_insert_ne by lia. by rewrite Hn.
    + intros w Hge. rewrite exit_spawned in Hge by (by rewrite Hte1).
      rewrite Hes2 in Hge. rewrite lookup_insert_ne; [apply Hn|]; case_decide; lia.
  - (* a message is delivered *)
    cbn [pool workers]. destruct (message_slots w0 msg (pool σ)) as [-> ->].
    destruct (worker_event_fields (EMessage w0 msg) (pool σ)) as [-> _]; done.
  - (* a worker exits *)
    cbn [pool workers].
    destruct (worker_event_fields (EExit w0 code) (pool σ)) as [Hte1 _]; [done..|].
    split; [by rewrite Hte1|]. split.
    + intros w Hin. unfold worker_of. cbn [workers]. by eapply Hgone.
    + intros w Hge. rewrite exit_spawned in Hge by done.
      rewrite lookup_insert_ne; [apply Hn|]; case_decide; lia.
Qed.

(** X17. When the directory cannot be loaded (collecting or the
    constructor throws), a pool of one or more workers never gets anywhere
    and never stops: in every execution no worker constructs a store or
    posts ["ready"], [createPool] is never resolved, so nobody can call
    [terminate] and [terminated] stays [false]; the slots stay filled, and
    every worker in a slot is one whose failing start spawns yet another
    worker into that slot. *)
Theorem failing_build_respawns_without_end
    (size : Z) (err : thrown) (tr : list action) (σ : @system Store) :
  construct absDir tree = Throw err -> (0 < size)%Z ->
  exec JSON_parse absDir tree size tr σ ->
  created (pool σ) <> Created /\
  terminated (pool σ) = false /\
  (forall w, (ABuild w ∉ tr) /\ (AReady w ∉ tr)) /\
  length (slots (pool σ)) = Z.to_nat size /\
  forall w, w ∈ slots (pool σ) ->
    exists σ', sys_step JSON_parse absDir tree σ (ABuildFail w) σ' /\
               spawned (pool σ') = S (spawned (pool σ)) /\
               spawned (pool σ) ∈ slots (pool σ') /\
               w ∉ slots (pool σ').
Proof.
  intros Hthrow Hsize Hexec.
  destruct (failing_never_created _ _ _ _ Hthrow Hsize Hexec) as [Hcr Hnone].
  destruct (failing_inv _ _ _ _ Hthrow Hsize Hexec) as (Ht & Hl & Hn).
  destruct (exec_pool_run _ _ _ _ _ _ Hexec) as [es Hes].
  pose proof (reachable_consistent size es) as [_ _ Hsp Hnd _].
  rewrite <- Hes in Hsp, Hnd.
  split; [done|]. split; [done|]. split; [done|].
  split; [rewrite Hes; apply reachable_slots_length|].
  intros w Hin. eexists. split; [apply (step_build_fail _ _ _ _ w err); auto|].
  cbn [pool]. destruct (error_slots w err (pool σ)) as [Hes1 Hes2].
  destruct (worker_event_fields (EError w err) (pool σ)) as [Hte1 _]; [done..|].
  rewrite exit_spawned by (by rewrite Hte1).
  rewrite Hes1, Hes2, decide_True by done. split; [done|].
  apply list_elem_of_lookup_1 in Hin as [i Hi].
  assert (Hslots : slots (step (EExit w 1) (step (EError w err) (pool σ)))
                   = <[i := spawned (pool σ)]> (slots (pool σ))).
  { rewrite (exit_slots_insert w 1 _ i); rewrite ?Hes1, ?Hes2, ?Hte1; done. }
  rewrite Hslots. split.
  - apply list_elem_of_lookup. exists i. apply list_lookup_insert_eq.
    by eapply lookup_lt_Some.
  - intros (j & Hj)%list_elem_of_lookup_1.
    destruct (decide (j = i)) as [->|Hne].
    + rewrite list_lookup_insert_eq in Hj by (by eapply lookup_lt_Some).
      injection Hj as Hj. assert (w < spawned (pool σ)); [|lia].
      apply Hsp. by eapply list_elem_of_lookup_2.
    + rewrite list_lookup_insert_ne in Hj by done.
      apply Hne. by eapply NoDup_lookup.
Qed.

End Failing.


(** *** Workers that exit before they are ready *)

Section Exits.
Context {Store : Type} `{!Core Store}.
Context (JSON_parse : string -> res jsval).
Context {collator : JsArray.Collator}.
Context (absDir : path) (tree : node).

Lemma exited_stays (σ σ' : @system Store) a w :
  sys_step JSON_parse absDir tree σ a σ' ->
  w_phase (worker_of σ w) = Exited -> w_phase (worker_of σ' w) = Exited.
Proof.
  intros Hstep Hw. destruct Hstep; unfold set_worker; rewrite ?worker_of_insert;
    try done; case_decide; subst; try done; congruence.
Qed.

Lemma exit_inv size tr (σ : @system Store) w :
  exec JSON_parse absDir tree size tr σ ->
  (exists code, AExit w code ∈ tr) \/ ABuildFail w ∈ tr ->
  w_phase (worker_of σ w) = Exited.
Proof.
  induction 1 as [|tr σ a σ' Hexec IH Hstep].
  { intros [[code H]|H]; by apply elem_of_nil in H. }
  intros Hin.
  assert (Hcase : ((exists code, AExit w code ∈ tr) \/ ABuildFail w ∈ tr) \/
                  (exists code, a = AExit w code) \/ a = ABuildFail w).
  { destruct Hin as [[code [H|H%list_elem_of_singleton]%elem_of_app]
                    |[H|H%list_elem_of_singleton]%elem_of_app]; eauto 6. }
  destruct Hcase as [Hold|[[code ->]| ->]].
  - eapply exited_stays; [done|]. by apply IH.
  - inversion Hstep; subst. rewrite worker_of_insert. by rewrite decide_True.
  - inversion Hstep; subst. rewrite worker_of_insert. by rewrite decide_True.
Qed.

Lemma ready_before_exit size tr (σ : @system Store) pre post w :
  exec JSON_parse absDir tree size tr σ ->
  tr = pre ++ AReady w :: post ->
  (forall code, AExit w code ∉ pre) /\ (ABuildFail w ∉ pre).
Proof.
  intros Hexec. revert pre post.
  induction Hexec as [|tr σ a σ' Hexec IH Hstep]; intros pre post Heq.
  { by destruct pre. }
  apply snoc_split in Heq as [(_ & -> & <-)|(post' & _ & ->)]; [|by eapply IH].
  inversion Hstep as [| |? ? Hph| | | | | |]; subst.
  split.
  - intros code Hin. rewrite (exit_inv size tr σ w) in Hph; [done|done|eauto].
  - intros Hin. rewrite (exit_inv size tr σ w) in Hph; [done|done|eauto].
Qed.

(** X18. [createPool] waits for the workers it spawned itself, not for
    the workers that replace them: when one of them exits before it has
    posted ["ready"], it never posts it, its wait never gets its ["ready"]
    and the promise of [createPool] is never resolved, whatever the worker
    spawned in its place does. *)
Theorem exit_before_ready_never_resolves
    (size : Z) (tr pre post : list action) (σ : @system Store) (w : nat) (code : Z) :
  exec JSON_parse absDir tree size tr σ ->
  w < Z.to_nat size ->
  tr = pre ++ AExit w code :: post ->
  AReady w ∉ pre ->
  (AReady w ∉ tr) /\
  waits (pool σ) !! w <> Some GotReady /\
  created (pool σ) <> Created.
Proof.
  intros Hexec Hw Heq Hpre.
  pose proof (exec_inv _ _ _ _ _ _ Hexec) as [[P1 P2] _ _ _ _ _ W _].
  assert (Hno : AReady w ∉ tr).
  { intros Hin. rewrite Heq in Hin.
    apply elem_of_app in Hin as [Hin|[Hin|Hin]%elem_of_cons]; [done|done|].
    apply list_elem_of_split in Hin as (l1 & l2 & ->).
    destruct (ready_before_exit size tr σ (pre ++ AExit w code :: l1) l2 w Hexec)
      as [Hex _].
    - rewrite Heq. by simplify_list_eq.
    - apply (Hex code). apply elem_of_app. right. by left. }
  split; [done|]. split.
  - intros Hr. by apply Hno, W.
  - intros Hc. destruct (P1 w Hw) as [x Hx]. pose proof (P2 Hc w x Hx) as Hr.
    destruct x; try done. by apply Hno, W.
Qed.

End Exits.


(** A pool of one worker over a directory with one document: the worker
    starts; once the pool has its "ready", a [read] is posted and handled,
    and its response is on its way to the pool. *)
Lemma responses_answer_posted_requests_witness :
  let tree := Dir [("top.md", File "Top level doc")] in
  let req := Build_Request 0 "read" [JStr "top.md"] in
  let m := Build_Message None (Some 0) (JStr "Top level doc") None in
  let tr := [ABuild 0; AReady 0; AListen 0; ADeliver 0 ready_message;
             ACall (Read (JStr "top.md") JUndefined JUndefined); AHandle 0 req] in
  exists σ : @system Loader.docs,
    (0, m) ∈ inflight σ /\
    (m = ready_message \/
     exists req st,
       (0, req) ∈ posted (pool σ) /\
       @construct _ Sample.sample_core JsArray.root_collator ["fixtures"] tree = Ok st /\
       @Worker.on_message _ Sample.sample_core Sample.sample_parse st req = [m] /\
       m_id m = Some (req_id req)).
Proof.
  intros tree req m tr. eexists. split; cycle 1.
  - apply (@responses_answer_posted_requests _ Sample.sample_core Sample.sample_parse
             JsArray.root_collator ["fixtures"] tree 1 tr _ 0 m).
    + refine (exec_step _ _ _ _ [ABuild 0; AReady 0; AListen 0; ADeliver 0 ready_message;
               ACall (Read (JStr "top.md") JUndefined JUndefined)] _ (AHandle 0 req) _ _ _).
      * refine (exec_step _ _ _ _ [ABuild 0; AReady 0; AListen 0; ADeliver 0 ready_message]
                  _ (ACall (Read (JStr "top.md") JUndefined JUndefined)) _ _ _).
        -- refine (exec_step _ _ _ _ [ABuild 0; AReady 0; AListen 0] _
                     (ADeliver 0 ready_message) _ _ _).
           ++ refine (exec_step _ _ _ _ [ABuild 0; AReady 0] _ (AListen 0) _ _ _).
              ** refine (exec_step _ _ _ _ [ABuild 0] _ (AReady 0) _ _ _).
                 --- refine (exec_step _ _ _ _ [] _ (ABuild 0) _ _ _).
                     +++ apply exec_start.
                     +++ apply (step_build _ _ _ _ 0 [("top.md", "Top level doc")]);
                           reflexivity || (vm_compute; lia).
                 --- apply step_ready. reflexivity.
              ** apply step_listen. reflexivity.
           ++ apply (step_deliver _ _ _ _ 0 ready_message [] []). reflexivity.
        -- apply step_call. reflexivity.
      * apply (step_handle _ _ _ _ 0 [("top.md", "Top level doc")]); reflexivity.
    + left. apply list_elem_of_here.
  - apply list_elem_of_here.
Defined.

(** A pool of two workers over a path that is a file: the first worker
    has failed and has been replaced by worker 2, which will fail too. *)
Lemma failing_build_respawns_without_end_witness :
  let tree := File "not a directory" in
  let err := JsError "ENOTDIR: not a directory, scandir" in
  let tr := [ABuildFail 0] in
  exists σ : @system Loader.docs,
    slots (pool σ) = [2; 1] /\
    created (pool σ) <> Created /\
    terminated (pool σ) = false /\
    (forall w, (ABuild w ∉ tr) /\ (AReady w ∉ tr)) /\
    length (slots (pool σ)) = Z.to_nat 2 /\
    forall w, w ∈ slots (pool σ) ->
      exists σ', @sys_step _ Sample.sample_core Sample.sample_parse
                   JsArray.root_collator ["fixtures"] tree
                   σ (ABuildFail w) σ' /\
                 spawned (pool σ') = S (spawned (pool σ)) /\
                 spawned (pool σ) ∈ slots (pool σ') /\
                 w ∉ slots (pool σ').
Proof.
  intros tree err tr. eexists. split; cycle 1.
  - apply (@failing_build_respawns_without_end _ Sample.sample_core Sample.sample_parse
             JsArray.root_collator ["fixtures"] tree 2 err tr).
    + reflexivity.
    + lia.
    + refine (exec_step _ _ _ _ [] _ (ABuildFail 0) _ _ _).
      * apply exec_start.
      * apply (step_build_fail _ _ _ _ 0 err); reflexivity || (vm_compute; lia).
  - reflexivity.
Defined.

(** A pool of one worker whose worker exits at once: the worker spawned
    in its place constructs its store and its "ready" reaches the pool, and
    [createPool] is still waiting. *)
Lemma exit_before_ready_never_resolves_witness :
  let tree := Dir [("top.md", File "Top level doc")] in
  let tr := [AExit 0 0; ABuild 1; AReady 1; ADeliver 1 ready_message] in
  exists σ : @system Loader.docs,
    created (pool σ) = Creating /\
    slots (pool σ) = [1] /\
    (AReady 0 ∉ tr) /\
    waits (pool σ) !! 0 <> Some GotReady /\
    created (pool σ) <> Created.
Proof.
  intros tree tr. eexists. split; [|split]; cycle 2.
  - apply (@exit_before_ready_never_resolves _ Sample.sample_core Sample.sample_parse
             JsArray.root_collator ["fixtures"] tree 1 tr []
             [ABuild 1; AReady 1; ADeliver 1 ready_message]
             _ 0 0%Z).
    + refine (exec_step _ _ _ _ [AExit 0 0; ABuild 1; AReady 1] _
                (ADeliver 1 ready_message) _ _ _).
      * refine (exec_step _ _ _ _ [AExit 0 0; ABuild 1] _ (AReady 1) _ _ _).
        -- refine (exec_step _ _ _ _ [AExit 0 0] _ (ABuild 1) _ _ _).
           ++ refine (exec_step _ _ _ _ [] _ (AExit 0 0) _ _ _).
              ** apply exec_start.
              ** apply step_exit; [vm_compute; lia|discriminate].
           ++ apply (step_build _ _ _ _ 1 [("top.md", "Top level doc")]);
                reflexivity || (vm_compute; lia).
        -- apply step_ready. reflexivity.
      * apply (step_deliver _ _ _ _ 1 ready_message [] []). reflexivity.
    + vm_compute. lia.
    + reflexivity.
    + intros Hin. by apply elem_of_nil in Hin.
  - reflexivity.
  - reflexivity.
Defined.

End SystemMore.
